(** * A verification development for the rendering program [src/game.cpp]

    The file embeds the program's text utilities, shader-header parser,
    matrix mathematics, mesh construction, object cloning, camera update and
    render loop, and states the properties of the specification over them.

    Conventions of the embedding:
    - [std::string] is a list of 8-bit characters, indexed by [size_t]
      values, which are integers taken modulo [2^64];
    - a C++ exception is the [Throw] outcome of the [res] monad;
    - [float] arithmetic is idealised as arithmetic in the real numbers:
      what is proved of a computed value holds of the program up to the
      rounding of [float];
    - heap objects live in typed stores indexed by address, and a pointer
      is an address. *)

From Stdlib Require Import ZArith List Ascii String Lia Bool.
From Stdlib Require Import Reals Lra RNsatz DecimalString.
From stdpp Require Import gmap.
Import ListNotations.

(** * Outcomes of fallible code *)

Module Outcome.

(** The exceptions the program can raise: [std::out_of_range] (from
    [std::string::substr]) and [std::runtime_error] with its message. *)
Inductive exn : Type :=
| out_of_range
| runtime_error (msg : list ascii).

(** [Ok] is a normal return and [Throw] an exception that propagates.
    [Undefined] is undefined behaviour: a dangling or null pointer is
    dereferenced, or a signed counter overflows.  [OutOfFuel] is the outcome
    of a loop model whose iteration budget was used up before the loop
    ended. *)
Inductive res (A : Type) : Type :=
| Ok (a : A)
| Throw (e : exn)
| Undefined
| OutOfFuel.

Arguments Ok {A} a.
Arguments Throw {A} e.
Arguments Undefined {A}.
Arguments OutOfFuel {A}.

Definition bind {A B : Type} (m : res A) (k : A -> res B) : res B :=
  match m with
  | Ok a => k a
  | Throw e => Throw e
  | Undefined => Undefined
  | OutOfFuel => OutOfFuel
  end.

(** Reading through a pointer: a missing object is undefined behaviour. *)
Definition deref {A : Type} (o : option A) : res A :=
  match o with
  | Some a => Ok a
  | None => Undefined
  end.

(** A pointer to data that the program hands to a library, which reads
    through it.  It points into an object that is alive and holds [value],
    or it dangles: the object it pointed into has been destroyed.  Reading
    through a dangling pointer is undefined behaviour. *)
Inductive pointer (T : Type) : Type :=
| Into (value : T)
| Dangling.

Arguments Into {T} value.
Arguments Dangling {T}.

Definition read {T : Type} (p : pointer T) : res T :=
  match p with
  | Into v => Ok v
  | Dangling => Undefined
  end.

End Outcome.

Export Outcome.

Notation "'do' x <- m ; k" := (bind m (fun x => k))
  (at level 10, x name, m at level 100, k at level 200).

(** * Machine integers and object sizes *)

Module Machine.

Local Open Scope Z_scope.

(** [size_t] is 64 bits wide; arithmetic on it wraps around. *)
Definition size_modulus : Z := 2 ^ 64.
Definition wrap (z : Z) : Z := z mod size_modulus.

(** [int] is 32 bits wide and signed; overflowing it is undefined. *)
Definition INT_MAX : Z := 2 ^ 31 - 1.

(** The conversion of a [size_t] to [GLsizei], a signed 32-bit integer: the
    value modulo [2^32], read as signed. *)
Definition to_GLsizei (z : Z) : Z := (z + 2 ^ 31) mod 2 ^ 32 - 2 ^ 31.

(** [sizeof(float)] and [sizeof(uint32_t)]. *)
Definition sizeof_float : Z := 4.
Definition sizeof_uint32_t : Z := 4.

(** A member of a struct, by size and alignment.  [glm::vec<N, float>] in
    glm's default (packed) configuration is [N] floats with the alignment of
    a float. *)
Record member : Type := Member { m_size : Z; m_align : Z }.

Definition float_vec (n : Z) : member := Member (n * sizeof_float) sizeof_float.

Definition round_up (z align : Z) : Z := ((z + align - 1) / align) * align.

(** The offsets the compiler gives the members of a struct, in declaration
    order, and the offset just after the last one. *)
Fixpoint member_offsets (ms : list member) (at_ : Z) : list Z * Z :=
  match ms with
  | [] => ([], at_)
  | m :: rest =>
      let o := round_up at_ (m_align m) in
      let (os, e) := member_offsets rest (o + m_size m) in
      (o :: os, e)
  end.

Definition struct_align (ms : list member) : Z :=
  fold_right (fun m a => Z.max (m_align m) a) 1 ms.

(** [sizeof] of a struct: the end of the last member, rounded up to the
    alignment of the struct. *)
Definition struct_size (ms : list member) : Z :=
  round_up (snd (member_offsets ms 0)) (struct_align ms).

(** [struct Vertex], lines 17-22: [vec4 position; vec4 color;
    vec2 textureCoords; vec4 normals]. *)
Definition Vertex_members : list member :=
  [float_vec 4; float_vec 4; float_vec 2; float_vec 4].

Definition sizeof_Vertex : Z := struct_size Vertex_members.

End Machine.

(** * Text utilities (game.cpp, lines 57-124) *)

Module Text.

Export Machine.

Local Open Scope Z_scope.

Definition cstring : Type := list ascii.

Definition lit (s : string) : cstring := list_ascii_of_string s.

(** [std::string::npos], the largest [size_t]. *)
Definition npos : Z := size_modulus - 1.

Definition size (s : cstring) : Z := Z.of_nat (length s).

(** [v.size()] of a [std::vector]. *)
Definition size_of_list {A : Type} (l : list A) : Z := Z.of_nat (length l).

Definition NUL : ascii := Ascii.zero.

Fixpoint dropWhile {A : Type} (p : A -> bool) (l : list A) : list A :=
  match l with
  | [] => []
  | x :: r => if p x then dropWhile p r else l
  end.

Fixpoint takeWhile {A : Type} (p : A -> bool) (l : list A) : list A :=
  match l with
  | [] => []
  | x :: r => if p x then x :: takeWhile p r else []
  end.

(** ** The standard-library operations the source calls *)

(** [s.substr(pos, n)]: throws when [pos > size()], otherwise the at most
    [n] characters from [pos] on. *)
Definition substr (s : cstring) (pos n : Z) : res cstring :=
  if pos >? size s then Throw out_of_range
  else Ok (firstn (Z.to_nat (Z.min n (size s - pos))) (skipn (Z.to_nat pos) s)).

(** [s.find_first_of(c)], counted from index [i] of the whole string. *)
Fixpoint find_from (s : cstring) (c : ascii) (i : Z) : Z :=
  match s with
  | [] => npos
  | x :: r => if Ascii.eqb x c then i else find_from r c (i + 1)
  end.

Definition find_first_of (s : cstring) (c : ascii) : Z := find_from s c 0.

(** [a == b] on strings. *)
Fixpoint eqb (a b : cstring) : bool :=
  match a, b with
  | [], [] => true
  | x :: a', y :: b' => Ascii.eqb x y && eqb a' b'
  | _, _ => false
  end.

(** [s.c_str()] as a reader of the C string sees it: the characters before
    the first zero byte. *)
Definition c_str (s : cstring) : cstring :=
  takeWhile (fun c => negb (Ascii.eqb c NUL)) s.

(** [s.starts_with(p)]. *)
Fixpoint starts_with (s p : cstring) {struct p} : bool :=
  match p, s with
  | [], _ => true
  | _ :: _, [] => false
  | y :: p', x :: s' => Ascii.eqb x y && starts_with s' p'
  end.

(** [std::tolower] in the C locale: only [A]..[Z] change. *)
Definition tolower (c : ascii) : ascii :=
  let n := N_of_ascii c in
  if ((65 <=? n) && (n <=? 90))%N then ascii_of_N (n + 32) else c.

Section Reads.

(** What a read outside the character array yields.  [s[size()]] is the
    terminating zero; any other index outside the string reads a byte the
    program does not control, here an arbitrary but fixed one. *)
Variable oob : ascii.

(** [s[i]]. *)
Definition at_ (s : cstring) (i : Z) : ascii :=
  if (0 <=? i) && (i <? size s) then nth (Z.to_nat i) s NUL
  else if i =? size s then NUL
  else oob.

(** ** The source's functions *)

(** [s2lower], lines 57-61. *)
Definition s2lower (str : cstring) : cstring := map tolower str.

(** [isWhiteSpace], lines 75-78. *)
Definition isWhiteSpace (c : ascii) : bool :=
  Ascii.eqb c " " || Ascii.eqb c "010" || Ascii.eqb c "013" || Ascii.eqb c "009".

(** How a loop that contains a [return] ends: the function returned [s], or
    control left the loop with the index at [i]. *)
Inductive loop_exit : Type :=
| Return (s : cstring)
| Fallthrough (i : Z).

(** The loop of lines 83-86, which is also the loop of lines 111-114:
    [while (isWhiteSpace(c)) { c = text[++i]; if (i >= text.size()) return ""; }] *)
Fixpoint leading_loop (fuel : nat) (text : cstring) (i : Z) (c : ascii)
  : res loop_exit :=
  if isWhiteSpace c then
    match fuel with
    | O => OutOfFuel
    | S fuel' =>
        let i := wrap (i + 1) in
        let c := at_ text i in
        if i >=? size text then Ok (Return [])
        else leading_loop fuel' text i c
    end
  else Ok (Fallthrough i).

(** [lStripNewlines], lines 80-89. *)
Definition lStripNewlines (text : cstring) : res cstring :=
  let i := 0 in
  let c := at_ text 0 in
  do e <- leading_loop (S (length text)) text i c;
  match e with
  | Return s => Ok s
  | Fallthrough i => substr text i npos
  end.

(** [splitAt], lines 91-97. *)
Definition splitAt (text : cstring) (i : Z) : res (cstring * cstring) :=
  if i =? 0 then do b <- substr text 1 npos; Ok ([], b)
  else if i =? npos then Ok (text, [])
  else if wrap (i + 1) =? size text then do a <- substr text 0 i; Ok (a, [])
  else if wrap (i + 1) >? size text then Ok (text, [])
  else do a <- substr text 0 i;
       do b <- substr text (wrap (i + 1)) npos;
       Ok (a, b).

(** [splitOnFirst], lines 99-102. *)
Definition splitOnFirst (text : cstring) (c : ascii) : res (cstring * cstring) :=
  let i := find_first_of text c in
  splitAt text i.

(** [splitFirstLine], lines 104-106. *)
Definition splitFirstLine (text : cstring) : res (cstring * cstring) :=
  splitOnFirst text "010"%char.

(** The loop of lines 118-121:
    [while (isWhiteSpace(c)) { c = rem[--end]; if (end == 0 || end >= rem.size()) return ""; }] *)
Fixpoint trailing_loop (fuel : nat) (rem : cstring) (end_ : Z) (c : ascii)
  : res loop_exit :=
  if isWhiteSpace c then
    match fuel with
    | O => OutOfFuel
    | S fuel' =>
        let end_ := wrap (end_ - 1) in
        let c := at_ rem end_ in
        if (end_ =? 0) || (end_ >=? size rem) then Ok (Return [])
        else trailing_loop fuel' rem end_ c
    end
  else Ok (Fallthrough end_).

(** [stripWhitespace], lines 108-124. *)
Definition stripWhitespace (str : cstring) : res cstring :=
  let start := 0 in
  let c := at_ str start in
  do e <- leading_loop (S (length str)) str start c;
  match e with
  | Return s => Ok s
  | Fallthrough start =>
      do rem <- substr str start npos;
      let end_ := wrap (size rem - 1) in
      let c := at_ rem end_ in
      do e <- trailing_loop (S (length rem)) rem end_ c;
      match e with
      | Return s => Ok s
      | Fallthrough end_ => substr rem 0 (wrap (end_ + 1))
      end
  end.

End Reads.

End Text.

(** * The vector and matrix library (glm), over the real numbers

    The repository calls glm for its mathematics.  The definitions below
    follow glm's implementation of each function the program uses: matrices
    are stored by columns, [m[i]] is column [i], and [translate] and [scale]
    multiply their matrix argument on the right. *)

Module Glm.

Local Open Scope R_scope.

Record vec2 : Type := V2 { x2 : R; y2 : R }.
Record vec3 : Type := V3 { x3 : R; y3 : R; z3 : R }.
Record vec4 : Type := V4 { x4 : R; y4 : R; z4 : R; w4 : R }.

(** [glm::fquat], written [qua(w, x, y, z)]. *)
Record quat : Type := Quat { qw : R; qx : R; qy : R; qz : R }.

(** [glm::mat4]: four columns. *)
Record mat4 : Type := Mat4 { col0 : vec4; col1 : vec4; col2 : vec4; col3 : vec4 }.

Definition add3 (a b : vec3) : vec3 :=
  V3 (x3 a + x3 b) (y3 a + y3 b) (z3 a + z3 b).
Definition sub3 (a b : vec3) : vec3 :=
  V3 (x3 a - x3 b) (y3 a - y3 b) (z3 a - z3 b).
Definition neg3 (a : vec3) : vec3 := V3 (- x3 a) (- y3 a) (- z3 a).
(** [s * v] and [v * s]. *)
Definition smul3 (s : R) (v : vec3) : vec3 := V3 (s * x3 v) (s * y3 v) (s * z3 v).
Definition muls3 (v : vec3) (s : R) : vec3 := V3 (x3 v * s) (y3 v * s) (z3 v * s).

Definition add4 (a b : vec4) : vec4 :=
  V4 (x4 a + x4 b) (y4 a + y4 b) (z4 a + z4 b) (w4 a + w4 b).
Definition muls4 (v : vec4) (s : R) : vec4 :=
  V4 (x4 v * s) (y4 v * s) (z4 v * s) (w4 v * s).

(** The conversions [vec3(v4)] and [vec4(v3, w)]. *)
Definition vec3_of_vec4 (v : vec4) : vec3 := V3 (x4 v) (y4 v) (z4 v).
Definition vec4_of_vec3 (v : vec3) (w : R) : vec4 := V4 (x3 v) (y3 v) (z3 v) w.

(** [glm::cross]. *)
Definition cross (a b : vec3) : vec3 :=
  V3 (y3 a * z3 b - y3 b * z3 a)
     (z3 a * x3 b - z3 b * x3 a)
     (x3 a * y3 b - x3 b * y3 a).

(** [glm::identity<glm::mat4>()]. *)
Definition identity : mat4 :=
  Mat4 (V4 1 0 0 0) (V4 0 1 0 0) (V4 0 0 1 0) (V4 0 0 0 1).

(** [m * v]: the combination of the columns of [m] weighted by [v]. *)
Definition mul_mv (m : mat4) (v : vec4) : vec4 :=
  add4 (add4 (muls4 (col0 m) (x4 v)) (muls4 (col1 m) (y4 v)))
       (add4 (muls4 (col2 m) (z4 v)) (muls4 (col3 m) (w4 v))).

(** [m1 * m2]: column [j] of the product is [m1] applied to column [j] of
    [m2]. *)
Definition mul_mm (m1 m2 : mat4) : mat4 :=
  let column (b : vec4) :=
    add4 (add4 (add4 (muls4 (col0 m1) (x4 b)) (muls4 (col1 m1) (y4 b)))
               (muls4 (col2 m1) (z4 b)))
         (muls4 (col3 m1) (w4 b)) in
  Mat4 (column (col0 m2)) (column (col1 m2)) (column (col2 m2)) (column (col3 m2)).

(** [glm::scale(m, v)]: the first three columns of [m], scaled. *)
Definition scale (m : mat4) (v : vec3) : mat4 :=
  Mat4 (muls4 (col0 m) (x3 v)) (muls4 (col1 m) (y3 v)) (muls4 (col2 m) (z3 v))
       (col3 m).

(** [glm::translate(m, v)]:
    [Result = m; Result[3] = m[0] * v[0] + m[1] * v[1] + m[2] * v[2] + m[3]]. *)
Definition translate (m : mat4) (v : vec3) : mat4 :=
  Mat4 (col0 m) (col1 m) (col2 m)
       (add4 (add4 (add4 (muls4 (col0 m) (x3 v)) (muls4 (col1 m) (y3 v)))
                   (muls4 (col2 m) (z3 v)))
             (col3 m)).

(** [glm::toMat4(q)]: the rotation matrix of a quaternion ([mat3_cast]
    extended by the unit row and column). *)
Definition toMat4 (q : quat) : mat4 :=
  let qxx := qx q * qx q in
  let qyy := qy q * qy q in
  let qzz := qz q * qz q in
  let qxz := qx q * qz q in
  let qxy := qx q * qy q in
  let qyz := qy q * qz q in
  let qwx := qw q * qx q in
  let qwy := qw q * qy q in
  let qwz := qw q * qz q in
  Mat4 (V4 (1 - 2 * (qyy + qzz)) (2 * (qxy + qwz)) (2 * (qxz - qwy)) 0)
       (V4 (2 * (qxy - qwz)) (1 - 2 * (qxx + qzz)) (2 * (qyz + qwx)) 0)
       (V4 (2 * (qxz + qwy)) (2 * (qyz - qwx)) (1 - 2 * (qxx + qyy)) 0)
       (V4 0 0 0 1).

(** [glm::conjugate], [glm::dot] and [glm::inverse] on quaternions. *)
Definition conjugate (q : quat) : quat := Quat (qw q) (- qx q) (- qy q) (- qz q).
Definition dot (a b : quat) : R :=
  (qx a * qx b + qy a * qy b) + (qz a * qz b + qw a * qw b).
Definition qdiv (q : quat) (s : R) : quat :=
  Quat (qw q / s) (qx q / s) (qy q / s) (qz q / s).
Definition inverse (q : quat) : quat := qdiv (conjugate q) (dot q q).

(** [p * q] on quaternions (the body of [operator*=]). *)
Definition mul_qq (p q : quat) : quat :=
  Quat (qw p * qw q - qx p * qx q - qy p * qy q - qz p * qz q)
       (qw p * qx q + qx p * qw q + qy p * qz q - qz p * qy q)
       (qw p * qy q + qy p * qw q + qz p * qx q - qx p * qz q)
       (qw p * qz q + qz p * qw q + qx p * qy q - qy p * qx q).

(** [q * v] for a [vec3]:
    [uv = cross(u, v); uuv = cross(u, uv); v + ((uv * q.w) + uuv) * 2]. *)
Definition mul_qv3 (q : quat) (v : vec3) : vec3 :=
  let QuatVector := V3 (qx q) (qy q) (qz q) in
  let uv := cross QuatVector v in
  let uuv := cross QuatVector uv in
  add3 v (muls3 (add3 (muls3 uv (qw q)) uuv) 2).

(** [glm::rotate(q, v)] for a [vec4]: [q * v], which rotates the first three
    components and keeps the fourth. *)
Definition rotate (q : quat) (v : vec4) : vec4 :=
  vec4_of_vec3 (mul_qv3 q (vec3_of_vec4 v)) (w4 v).

(** [glm::radians] and [glm::angleAxis]. *)
Definition radians (degrees : R) : R := degrees * (PI / 180).
Definition angleAxis (angle : R) (v : vec3) : quat :=
  let a := angle in
  let s := sin (a * 0.5) in
  Quat (cos (a * 0.5)) (x3 v * s) (y3 v * s) (z3 v * s).

(** [glm::perspective(fovy, aspect, zNear, zFar)] (right-handed, depth in
    [-1, 1], the library's default). *)
Definition perspective (fovy aspect zNear zFar : R) : mat4 :=
  let tanHalfFovy := tan (fovy / 2) in
  Mat4 (V4 (1 / (aspect * tanHalfFovy)) 0 0 0)
       (V4 0 (1 / tanHalfFovy) 0 0)
       (V4 0 0 (- (zFar + zNear) / (zFar - zNear)) (- 1))
       (V4 0 0 (- (2 * zFar * zNear) / (zFar - zNear)) 0).

(** The matrices that the specification names: [translate(p)], [scale(s)]
    and [rotate(r)] as matrices of their own, written out entry by entry. *)
Definition translation_matrix (p : vec3) : mat4 :=
  Mat4 (V4 1 0 0 0) (V4 0 1 0 0) (V4 0 0 1 0) (V4 (x3 p) (y3 p) (z3 p) 1).
Definition scaling_matrix (s : vec3) : mat4 :=
  Mat4 (V4 (x3 s) 0 0 0) (V4 0 (y3 s) 0 0) (V4 0 0 (z3 s) 0) (V4 0 0 0 1).
Definition rotation_matrix (r : quat) : mat4 := toMat4 r.

End Glm.

(** * The windowing and GPU-driver collaborators

    The program talks to GLFW and OpenGL.  Their state is modelled as far as
    the program can observe or set it: the vertex-array and buffer objects,
    the number of event polls so far, and the log of every call made, in
    order.  What the outside world decides (which keys are held, when the
    window is closed, where a uniform lives) enters as a parameter. *)

Module Platform.

Import Text Glm.

Local Open Scope Z_scope.

(** ** Constants of the OpenGL and GLFW headers *)

Definition GL_LINES : Z := 0x0001.
Definition GL_LINE_STRIP : Z := 0x0003.
Definition GL_TRIANGLES : Z := 0x0004.
Definition GL_TRIANGLE_STRIP : Z := 0x0005.
Definition GL_TRIANGLE_FAN : Z := 0x0006.
Definition GL_UNSIGNED_INT : Z := 0x1405.
Definition GL_FLOAT : Z := 0x1406.
Definition GL_DEPTH_BUFFER_BIT : Z := 0x00000100.
Definition GL_STENCIL_BUFFER_BIT : Z := 0x00000400.
Definition GL_COLOR_BUFFER_BIT : Z := 0x00004000.
Definition GL_ARRAY_BUFFER : Z := 0x8892.
Definition GL_ELEMENT_ARRAY_BUFFER : Z := 0x8893.
Definition GL_STATIC_DRAW : Z := 0x88E4.
Definition GL_FRAGMENT_SHADER : Z := 0x8B30.
Definition GL_VERTEX_SHADER : Z := 0x8B31.
Definition GL_GEOMETRY_SHADER : Z := 0x8DD9.
Definition GL_TESS_EVALUATION_SHADER : Z := 0x8E87.
Definition GL_TESS_CONTROL_SHADER : Z := 0x8E88.
Definition GL_COMPUTE_SHADER : Z := 0x91B9.
Definition GL_COMPILE_STATUS : Z := 0x8B81.
Definition GL_INFO_LOG_LENGTH : Z := 0x8B84.

Definition GLFW_KEY_A : Z := 65.
Definition GLFW_KEY_D : Z := 68.
Definition GLFW_KEY_E : Z := 69.
Definition GLFW_KEY_Q : Z := 81.
Definition GLFW_KEY_S : Z := 83.
Definition GLFW_KEY_W : Z := 87.
Definition GLFW_KEY_RIGHT : Z := 262.
Definition GLFW_KEY_LEFT : Z := 263.
Definition GLFW_KEY_DOWN : Z := 264.
Definition GLFW_KEY_UP : Z := 265.

(** ** Driver objects *)

(** What a buffer holds: floats or 32-bit words, in memory order. *)
Inductive payload : Type :=
| Floats (fs : list R)
| Words (ws : list Z).

Record buffer : Type := Buffer { buf_size : Z; buf_data : payload; buf_usage : Z }.

(** The format of one vertex attribute of a vertex-array object. *)
Record attrib : Type := Attrib {
  a_binding : Z;
  a_size : Z;
  a_type : Z;
  a_normalized : bool;
  a_relativeoffset : Z;
  a_enabled : bool
}.

(** One vertex-buffer binding point of a vertex-array object. *)
Record binding : Type := Binding { b_buffer : Z; b_offset : Z; b_stride : Z }.

Record vertex_array : Type := VertexArray {
  attribs : gmap Z attrib;
  bindings : gmap Z binding;
  element_buffer : Z
}.

(** The state of a freshly created attribute, binding point and vertex
    array, as OpenGL defines it. *)
Definition initial_attrib (index : Z) : attrib := Attrib index 4 GL_FLOAT false 0 false.
Definition initial_binding : binding := Binding 0 0 16.
Definition initial_vertex_array : vertex_array := VertexArray ∅ ∅ 0.

Definition attrib_of (va : vertex_array) (index : Z) : attrib :=
  default (initial_attrib index) (attribs va !! index).
Definition binding_of (va : vertex_array) (index : Z) : binding :=
  default initial_binding (bindings va !! index).

Record shader : Type := Shader { sh_type : Z; sh_source : cstring; sh_compiled : bool }.

(** ** The log of calls *)

Module Call.
Inductive t : Type :=
| WindowShouldClose
| PollEvents
| GetKey (key : Z)
| SwapBuffers
| Clear (mask : Z)
| CreateVertexArrays (n : Z)
| CreateBuffers (n : Z)
| BindBuffer (target buf : Z)
| NamedBufferData (buf size : Z) (data : payload) (usage : Z)
| VertexArrayAttribBinding (vao attribindex bindingindex : Z)
| VertexArrayAttribFormat (vao attribindex size type : Z) (normalized : bool)
    (relativeoffset : Z)
| VertexArrayVertexBuffer (vao bindingindex buf offset stride : Z)
| VertexArrayElementBuffer (vao buf : Z)
| EnableVertexArrayAttrib (vao index : Z)
| BindVertexArray (vao : Z)
| UseProgram (program : Z)
| GetUniformLocation (program : Z) (name : cstring)
| Uniform4fv (location count : Z) (value : vec4)
| UniformMatrix4fv (location count : Z) (transpose : bool) (value : mat4)
| DrawElements (mode count type indices : Z)
| CreateShader (type : Z)
| ShaderSource (sh : Z) (source : cstring)
| CompileShader (sh : Z)
| GetShaderiv (sh pname : Z)
| GetShaderInfoLog (sh : Z).
End Call.

Record state : Type := State {
  vaos : gmap Z vertex_array;
  buffers : gmap Z buffer;
  shaders : gmap Z shader;
  bound_buffer : gmap Z Z;
  polls : nat;
  log : list Call.t
}.

Definition emit (c : Call.t) (st : state) : state :=
  State (vaos st) (buffers st) (shaders st) (bound_buffer st) (polls st) (log st ++ [c]).
Definition set_vaos (v : gmap Z vertex_array) (st : state) : state :=
  State v (buffers st) (shaders st) (bound_buffer st) (polls st) (log st).
Definition set_buffers (b : gmap Z buffer) (st : state) : state :=
  State (vaos st) b (shaders st) (bound_buffer st) (polls st) (log st).
Definition set_shaders (s : gmap Z shader) (st : state) : state :=
  State (vaos st) (buffers st) s (bound_buffer st) (polls st) (log st).
Definition set_bound_buffer (b : gmap Z Z) (st : state) : state :=
  State (vaos st) (buffers st) (shaders st) b (polls st) (log st).
Definition set_polls (n : nat) (st : state) : state :=
  State (vaos st) (buffers st) (shaders st) (bound_buffer st) n (log st).

(** A sequence of calls that change nothing but the log. *)
Definition emit_all (cs : list Call.t) (st : state) : state :=
  fold_left (fun s c => emit c s) cs st.

(** An operation on a named vertex array: an unknown name is an OpenGL
    error and changes nothing. *)
Definition on_vao (vao : Z) (f : vertex_array -> vertex_array) (st : state) : state :=
  match vaos st !! vao with
  | Some va => set_vaos (<[vao := f va]> (vaos st)) st
  | None => st
  end.

Definition on_attrib (index : Z) (f : attrib -> attrib) (va : vertex_array)
  : vertex_array :=
  VertexArray (<[index := f (attrib_of va index)]> (attribs va)) (bindings va)
              (element_buffer va).

(** What the five vertex-array calls of [createMesh] do to the object. *)
Definition set_attrib_binding (attribindex bindingindex : Z) : vertex_array -> vertex_array :=
  on_attrib attribindex (fun a =>
    Attrib bindingindex (a_size a) (a_type a) (a_normalized a) (a_relativeoffset a)
           (a_enabled a)).

Definition set_attrib_format (attribindex size type : Z) (normalized : bool)
    (relativeoffset : Z) : vertex_array -> vertex_array :=
  on_attrib attribindex (fun a =>
    Attrib (a_binding a) size type normalized relativeoffset (a_enabled a)).

Definition set_vertex_buffer (bindingindex buf offset stride : Z) (va : vertex_array)
  : vertex_array :=
  VertexArray (attribs va) (<[bindingindex := Binding buf offset stride]> (bindings va))
              (element_buffer va).

Definition set_element_buffer (buf : Z) (va : vertex_array) : vertex_array :=
  VertexArray (attribs va) (bindings va) buf.

Definition enable_attrib (index : Z) : vertex_array -> vertex_array :=
  on_attrib index (fun a =>
    Attrib (a_binding a) (a_size a) (a_type a) (a_normalized a) (a_relativeoffset a) true).

Section Collaborators.

(** The outside world: the keys held after each event poll, whether the
    window has been asked to close after each poll, where the linked
    programs keep their uniforms, and which sources the driver's compiler
    accepts. *)
Variable key_input : nat -> Z -> Z.
Variable close_requested : nat -> bool.
Variable uniform_location : Z -> cstring -> Z.
Variable glsl_compiles : Z -> cstring -> bool.

(** ** GLFW *)

Definition glfwWindowShouldClose (st : state) : bool * state :=
  (close_requested (polls st), emit Call.WindowShouldClose st).

Definition glfwPollEvents (st : state) : state :=
  emit Call.PollEvents (set_polls (S (polls st)) st).

Definition glfwGetKey (key : Z) (st : state) : Z * state :=
  (key_input (polls st) key, emit (Call.GetKey key) st).

Definition glfwSwapBuffers (st : state) : state := emit Call.SwapBuffers st.

(** ** OpenGL *)

Definition glClear (mask : Z) (st : state) : state := emit (Call.Clear mask) st.

(** [glCreateVertexArrays(1, &name)] and [glCreateBuffers(2, names)]: the
    driver hands out names that are not in use and are not zero. *)
Definition glCreateVertexArrays1 (st : state) : Z * state :=
  let name := fresh ({[0]} ∪ dom (vaos st)) in
  (name, emit (Call.CreateVertexArrays 1)
              (set_vaos (<[name := initial_vertex_array]> (vaos st)) st)).

Definition empty_buffer : buffer := Buffer 0 (Words []) GL_STATIC_DRAW.

Definition glCreateBuffers2 (st : state) : (Z * Z) * state :=
  let n1 := fresh ({[0]} ∪ dom (buffers st)) in
  let b1 := <[n1 := empty_buffer]> (buffers st) in
  let n2 := fresh ({[0]} ∪ dom b1) in
  ((n1, n2), emit (Call.CreateBuffers 2) (set_buffers (<[n2 := empty_buffer]> b1) st)).

Definition glBindBuffer (target buf : Z) (st : state) : state :=
  emit (Call.BindBuffer target buf)
       (set_bound_buffer (<[target := buf]> (bound_buffer st)) st).

Definition glNamedBufferData (buf size : Z) (data : payload) (usage : Z) (st : state)
  : state :=
  emit (Call.NamedBufferData buf size data usage)
       (match buffers st !! buf with
        | Some _ => set_buffers (<[buf := Buffer size data usage]> (buffers st)) st
        | None => st
        end).

Definition glVertexArrayAttribBinding (vao attribindex bindingindex : Z) (st : state)
  : state :=
  emit (Call.VertexArrayAttribBinding vao attribindex bindingindex)
       (on_vao vao (set_attrib_binding attribindex bindingindex) st).

Definition glVertexArrayAttribFormat (vao attribindex size type : Z)
    (normalized : bool) (relativeoffset : Z) (st : state) : state :=
  emit (Call.VertexArrayAttribFormat vao attribindex size type normalized relativeoffset)
       (on_vao vao (set_attrib_format attribindex size type normalized relativeoffset) st).

Definition glVertexArrayVertexBuffer (vao bindingindex buf offset stride : Z)
    (st : state) : state :=
  emit (Call.VertexArrayVertexBuffer vao bindingindex buf offset stride)
       (on_vao vao (set_vertex_buffer bindingindex buf offset stride) st).

Definition glVertexArrayElementBuffer (vao buf : Z) (st : state) : state :=
  emit (Call.VertexArrayElementBuffer vao buf) (on_vao vao (set_element_buffer buf) st).

Definition glEnableVertexArrayAttrib (vao index : Z) (st : state) : state :=
  emit (Call.EnableVertexArrayAttrib vao index) (on_vao vao (enable_attrib index) st).

Definition glBindVertexArray (vao : Z) (st : state) : state :=
  emit (Call.BindVertexArray vao) st.

Definition glUseProgram (program : Z) (st : state) : state :=
  emit (Call.UseProgram program) st.

Definition glGetUniformLocation (program : Z) (name : cstring) (st : state)
  : Z * state :=
  (uniform_location program name, emit (Call.GetUniformLocation program name) st).

(** The two uploads take a [const GLfloat*] and read the value through
    it during the call. *)
Definition glUniform4fv (location count : Z) (value : pointer vec4) (st : state)
  : res state :=
  do v <- read value;
  Ok (emit (Call.Uniform4fv location count v) st).

Definition glUniformMatrix4fv (location count : Z) (transpose : bool)
    (value : pointer mat4) (st : state) : res state :=
  do v <- read value;
  Ok (emit (Call.UniformMatrix4fv location count transpose v) st).

Definition glDrawElements (mode count type indices : Z) (st : state) : state :=
  emit (Call.DrawElements mode count type indices) st.

Definition glCreateShader (type : Z) (st : state) : Z * state :=
  let name := fresh ({[0]} ∪ dom (shaders st)) in
  (name, emit (Call.CreateShader type)
              (set_shaders (<[name := Shader type [] false]> (shaders st)) st)).

Definition glShaderSource (sh : Z) (source : cstring) (st : state) : state :=
  emit (Call.ShaderSource sh source)
       (match shaders st !! sh with
        | Some s => set_shaders (<[sh := Shader (sh_type s) source false]> (shaders st)) st
        | None => st
        end).

Definition glCompileShader (sh : Z) (st : state) : state :=
  emit (Call.CompileShader sh)
       (match shaders st !! sh with
        | Some s =>
            set_shaders (<[sh := Shader (sh_type s) (sh_source s)
                                   (glsl_compiles (sh_type s) (sh_source s))]>
                           (shaders st)) st
        | None => st
        end).

(** [glGetShaderiv(sh, GL_COMPILE_STATUS, &i)]. *)
Definition glGetShaderiv_COMPILE_STATUS (sh : Z) (st : state) : Z * state :=
  (match shaders st !! sh with
   | Some s => if sh_compiled s then 1 else 0
   | None => 0
   end,
   emit (Call.GetShaderiv sh GL_COMPILE_STATUS) st).

End Collaborators.

End Platform.

(** * The program (game.cpp) *)

Module Game.

Import Text Glm Platform.

Local Open Scope Z_scope.

(** ** Data model, lines 17-49 and 196-216 *)

Record Vertex : Type := mkVertex {
  position : vec4;
  color : vec4;
  textureCoords : vec2;
  normals : vec4
}.

Inductive PrimitiveFormat : Type :=
| Triangles
| TriangleFan
| TriangleStrip
| Lines
| LineStrip.

(** [static_cast<GLenum>(fmt)]: the enumerators are the OpenGL constants. *)
Definition GLenum_of (fmt : PrimitiveFormat) : Z :=
  match fmt with
  | Triangles => GL_TRIANGLES
  | TriangleFan => GL_TRIANGLE_FAN
  | TriangleStrip => GL_TRIANGLE_STRIP
  | Lines => GL_LINES
  | LineStrip => GL_LINE_STRIP
  end.

(** A pointer is an address; [null] is address zero, where nothing lives. *)
Definition addr : Type := N.
Definition null : addr := 0%N.

Record Mesh : Type := mkMesh {
  vertices : list Vertex;
  indices : list Z;
  primitiveFormat : PrimitiveFormat;
  vao : Z;
  vbo : Z;
  ibo : Z
}.

Record ShaderProgram : Type := mkShaderProgram { handle : Z }.

Record Material : Type := mkMaterial {
  shader : addr;
  textures : list addr;
  mat_color : vec4
}.

Record MeshRenderer : Type := mkMeshRenderer { mesh : addr; material : addr }.

Record Transform : Type := mkTransform {
  t_position : vec3;
  t_rotation : quat;
  t_scale : vec3
}.

Record GameObject : Type := mkGameObject {
  meshRenderer : MeshRenderer;
  transform : Transform
}.

Record Camera : Type := mkCamera { cam_position : vec3; lookDirection : quat }.

(** The heap: one store for each type of object the program allocates. *)
Record Heap : Type := mkHeap {
  meshes : gmap addr Mesh;
  materials : gmap addr Material;
  programs : gmap addr ShaderProgram;
  objects : gmap addr GameObject
}.

Definition set_meshes (m : gmap addr Mesh) (h : Heap) : Heap :=
  mkHeap m (materials h) (programs h) (objects h).
Definition set_materials (m : gmap addr Material) (h : Heap) : Heap :=
  mkHeap (meshes h) m (programs h) (objects h).
Definition set_objects (o : gmap addr GameObject) (h : Heap) : Heap :=
  mkHeap (meshes h) (materials h) (programs h) o.

(** [new T]: an address that is not null and holds no object yet. *)
Definition new {T : Type} (store : gmap addr T) : addr :=
  fresh ({[null]} ∪ dom store).

(** The contents of a vertex buffer: each vertex is its fourteen floats, in
    declaration order. *)
Definition floats_of_Vertex (v : Vertex) : list R :=
  [x4 (position v); y4 (position v); z4 (position v); w4 (position v);
   x4 (color v); y4 (color v); z4 (color v); w4 (color v);
   x2 (textureCoords v); y2 (textureCoords v);
   x4 (normals v); y4 (normals v); z4 (normals v); w4 (normals v)].

Section Program.

Variable oob : ascii.
Variable readFile : cstring -> cstring.
Variable key_input : nat -> Z -> Z.
Variable close_requested : nat -> bool.
Variable uniform_location : Z -> cstring -> Z.
Variable glsl_compiles : Z -> cstring -> bool.

(** ** Shader sources, lines 63-73 and 126-162 *)

(** [sTypeFromName], lines 63-73. *)
Definition sTypeFromName (name : cstring) : res Z :=
  let ln := s2lower name in
  if Text.eqb ln (lit "vertex") then Ok GL_VERTEX_SHADER
  else if Text.eqb ln (lit "fragment") then Ok GL_FRAGMENT_SHADER
  else if Text.eqb ln (lit "compute") then Ok GL_COMPUTE_SHADER
  else if Text.eqb ln (lit "geometry") then Ok GL_GEOMETRY_SHADER
  else if Text.eqb ln (lit "tess-control") then Ok GL_TESS_CONTROL_SHADER
  else if Text.eqb ln (lit "tess-evaluation") then Ok GL_TESS_EVALUATION_SHADER
  else Throw (runtime_error (lit "Unknown shader type " ++ name)).

(** Lines 141-161 of [createShader]: hand the body to the driver, compile
    it, and fail if the driver rejects it.  On that path the source prints
    the driver's log before it throws; the outcome is the exception. *)
Definition compileStage (path : cstring) (stype : Z) (src : cstring) (st : state)
  : res (Z * state) :=
  let (sh, st) := glCreateShader stype st in
  let ssrc_czs := c_str src in
  let st := glShaderSource sh ssrc_czs st in
  let st := glCompileShader glsl_compiles sh st in
  let (i, st) := glGetShaderiv_COMPILE_STATUS sh st in
  if i =? 0 then Throw (runtime_error (lit "Failed to compile shader " ++ path))
  else Ok (sh, st).

(** [createShader], lines 126-162. *)
Definition createShader (path : cstring) (st : state) : res (Z * state) :=
  do srcuf <- lStripNewlines oob (readFile path);
  do ls <- splitFirstLine srcuf;
  let (l, src) := ls : cstring * cstring in
  if negb (starts_with l (lit "#type ")) then
    Throw (runtime_error (lit "Failed to read shader " ++ path))
  else
    do rest <- substr l 6 npos;
    do type <- stripWhitespace oob rest;
    do stype <- sTypeFromName type;
    compileStage path stype src st.

(** ** Game objects and model matrices, lines 218-240 *)

(** The default member initialisers of [Transform], lines 207-211. *)
Definition default_Transform : Transform :=
  mkTransform (V3 0 0 0) (Quat 1 0 0 0) (V3 1 1 1).

(** [createGameObject], lines 218-224. *)
Definition createGameObject (mesh material : addr) (h : Heap) : addr * Heap :=
  let go := new (objects h) in
  (go, set_objects (<[go := mkGameObject (mkMeshRenderer mesh material)
                               default_Transform]> (objects h)) h).

(** [rotate_m4], lines 226-228. *)
Definition rotate_m4 (mat : mat4) (q : quat) : mat4 := mul_mm (toMat4 q) mat.

(** [createModelMatrix], lines 230-232. *)
Definition createModelMatrix (transform : Transform) : mat4 :=
  translate (rotate_m4 (scale identity (t_scale transform)) (t_rotation transform))
            (t_position transform).

(** ** Meshes, lines 242-274 *)

(** [createMesh], lines 242-274. *)
Definition createMesh (vertices : list Vertex) (indices : list Z)
    (fmt : PrimitiveFormat) (h : Heap) (st : state) : addr * Heap * state :=
  let mesh := new (meshes h) in
  let (vao, st) := glCreateVertexArrays1 st in
  let '((vbo, ibo), st) := glCreateBuffers2 st in
  let st := glBindBuffer GL_ARRAY_BUFFER vbo st in
  let st := glBindBuffer GL_ELEMENT_ARRAY_BUFFER ibo st in
  let st := glNamedBufferData vbo (wrap (size_of_list vertices * sizeof_Vertex))
              (Floats (concat (map floats_of_Vertex vertices))) GL_STATIC_DRAW st in
  let st := glNamedBufferData ibo (wrap (size_of_list indices * sizeof_uint32_t))
              (Words indices) GL_STATIC_DRAW st in
  let st := glVertexArrayAttribBinding vao 0 0 st in
  let st := glVertexArrayAttribBinding vao 1 0 st in
  let st := glVertexArrayAttribBinding vao 2 0 st in
  let st := glVertexArrayAttribBinding vao 3 0 st in
  let st := glVertexArrayAttribFormat vao 0 4 GL_FLOAT false 0 st in
  let st := glVertexArrayAttribFormat vao 1 4 GL_FLOAT false (4 * sizeof_float) st in
  let st := glVertexArrayAttribFormat vao 2 2 GL_FLOAT false (8 * sizeof_float) st in
  let st := glVertexArrayAttribFormat vao 3 4 GL_FLOAT false (10 * sizeof_float) st in
  let st := glVertexArrayVertexBuffer vao 0 vbo 0 sizeof_Vertex st in
  let st := glVertexArrayElementBuffer vao ibo st in
  let st := glEnableVertexArrayAttrib vao 0 st in
  let st := glEnableVertexArrayAttrib vao 1 st in
  let st := glEnableVertexArrayAttrib vao 2 st in
  let st := glEnableVertexArrayAttrib vao 3 st in
  (mesh,
   set_meshes (<[mesh := mkMesh vertices indices fmt vao vbo ibo]> (meshes h)) h,
   st).

(** ** The camera, lines 276-285 and 311-329 *)

(** [pMatrix], line 276. *)
Definition pMatrix : mat4 := perspective (radians 90) 1 0.1 100.

(** [calcVPMatrix], lines 283-285. *)
Definition calcVPMatrix (camera : Camera) : mat4 :=
  mul_mm pMatrix (translate (toMat4 (lookDirection camera)) (neg3 (cam_position camera))).

(** [if (glfwGetKey(win, key)) camera = f(camera);] *)
Definition on_key (key : Z) (f : Camera -> Camera) (w : Camera * state)
  : Camera * state :=
  let (camera, st) := w in
  let (held, st) := glfwGetKey key_input key st in
  (if held =? 0 then camera else f camera, st).

(** [camera->position += d], [camera->position -= d] and
    [camera->lookDirection *= q].  The sums and products are those of the
    real numbers.  The program computes them in [float] and rounds each:
    there a step is not undone exactly by the opposite step, and a product
    of quaternions of length one has length one up to rounding only. *)
Definition move (d : vec3) (camera : Camera) : Camera :=
  mkCamera (add3 (cam_position camera) d) (lookDirection camera).
Definition move_back (d : vec3) (camera : Camera) : Camera :=
  mkCamera (sub3 (cam_position camera) d) (lookDirection camera).
Definition turn (q : quat) (camera : Camera) : Camera :=
  mkCamera (cam_position camera) (mul_qq (lookDirection camera) q).

(** [updateCamera], lines 311-329. *)
Definition updateCamera (camera : Camera) (st : state) : Camera * state :=
  let cameraForward :=
    vec3_of_vec4 (rotate (inverse (lookDirection camera)) (V4 0 0 (-1) 1)) in
  let cameraRight :=
    vec3_of_vec4 (rotate (inverse (lookDirection camera)) (V4 1 0 0 1)) in
  let cameraUp :=
    vec3_of_vec4 (rotate (inverse (lookDirection camera)) (V4 0 1 0 1)) in
  let w := (camera, st) in
  let w := on_key GLFW_KEY_W (move (smul3 0.05 cameraForward)) w in
  let w := on_key GLFW_KEY_A
             (move_back (smul3 0.05 (V3 (x3 cameraRight) 0 (z3 cameraRight)))) w in
  let w := on_key GLFW_KEY_S (move_back (smul3 0.05 cameraForward)) w in
  let w := on_key GLFW_KEY_D (move (smul3 0.05 cameraRight)) w in
  let w := on_key GLFW_KEY_Q (move (smul3 0.05 cameraUp)) w in
  let w := on_key GLFW_KEY_E (move_back (smul3 0.05 cameraUp)) w in
  let w := on_key GLFW_KEY_LEFT (turn (angleAxis (radians (-0.5)) (V3 0 1 0))) w in
  let w := on_key GLFW_KEY_RIGHT (turn (angleAxis (radians 0.5) (V3 0 1 0))) w in
  let w := on_key GLFW_KEY_UP (turn (angleAxis (radians (-0.5)) cameraRight)) w in
  let w := on_key GLFW_KEY_DOWN (turn (angleAxis (radians 0.5) cameraRight)) w in
  w.

(** ** Drawing, lines 287-309 and 344-348 *)

(** [glm::value_ptr(m)] and [&m]: a pointer into [m]. *)
Definition value_ptr {T : Type} (m : T) : pointer T := Into m.

(** The end of the full expression that created a temporary destroys the
    temporary: a pointer into it that is kept in a variable dangles from
    there on. *)
Definition temporary_destroyed {T : Type} (p : pointer T) : pointer T := Dangling.

(** [applyMaterial], lines 287-290.  The pointer of line 289 is
    [&mat->color], into the material, which is alive. *)
Definition applyMaterial (mat : addr) (h : Heap) (st : state) : res state :=
  do m <- deref (materials h !! mat);
  do sp <- deref (programs h !! shader m);
  let st := glUseProgram (handle sp) st in
  let (loc, st) := glGetUniformLocation uniform_location (handle sp) (lit "uColor") st in
  glUniform4fv loc 1 (value_ptr (mat_color m)) st.

(** [applyTransform], lines 292-295.  Line 293 keeps in [m] the
    [value_ptr] of the matrix that [createModelMatrix] returns, a temporary
    that is destroyed at the end of that declaration; line 294 hands [m] to
    the driver. *)
Definition applyTransform (go : addr) (h : Heap) (st : state) : res state :=
  do g <- deref (objects h !! go);
  let m := temporary_destroyed (value_ptr (createModelMatrix (transform g))) in
  do mt <- deref (materials h !! material (meshRenderer g));
  do sp <- deref (programs h !! shader mt);
  let (loc, st) := glGetUniformLocation uniform_location (handle sp) (lit "uModel") st in
  glUniformMatrix4fv loc 1 false m st.

(** [applyCamera], lines 297-300: as [applyTransform], with the temporary
    that [calcVPMatrix] returns. *)
Definition applyCamera (camera : Camera) (go : addr) (h : Heap) (st : state)
  : res state :=
  let m := temporary_destroyed (value_ptr (calcVPMatrix camera)) in
  do g <- deref (objects h !! go);
  do mt <- deref (materials h !! material (meshRenderer g));
  do sp <- deref (programs h !! shader mt);
  let (loc, st) :=
    glGetUniformLocation uniform_location (handle sp) (lit "uViewProjection") st in
  glUniformMatrix4fv loc 1 false m st.

(** [renderGameObject], lines 302-309. *)
Definition renderGameObject (camera : Camera) (go : addr) (h : Heap) (st : state)
  : res state :=
  do g <- deref (objects h !! go);
  do m <- deref (meshes h !! mesh (meshRenderer g));
  let st := glBindVertexArray (vao m) st in
  do st <- applyMaterial (material (meshRenderer g)) h st;
  do st <- applyTransform go h st;
  do st <- applyCamera camera go h st;
  Ok (glDrawElements (GLenum_of (primitiveFormat m))
                     (to_GLsizei (size_of_list (indices m))) GL_UNSIGNED_INT 0 st).

(** [renderGameObjects], lines 344-348. *)
Fixpoint renderGameObjects (camera : Camera) (objs : list addr) (h : Heap) (st : state)
  : res state :=
  match objs with
  | [] => Ok st
  | go :: rest =>
      do st <- renderGameObject camera go h st;
      renderGameObjects camera rest h st
  end.

(** ** Cloning, lines 331-342 *)

(** [clone], lines 331-334. *)
Definition clone (go : addr) (h : Heap) : res (addr * Heap) :=
  do g <- deref (objects h !! go);
  let go2 := new (objects h) in
  Ok (go2, set_objects (<[go2 := g]> (objects h)) h).

(** The loop of lines 338-340: [for (int i = 0; i < count; i++) gos[i] = clone(prefab);] *)
Fixpoint clone_loop (fuel : nat) (prefab : addr) (count : Z) (i : Z)
    (gos : list addr) (h : Heap) : res (list addr * Heap) :=
  if wrap i <? count then
    match fuel with
    | O => OutOfFuel
    | S fuel' =>
        do c <- clone prefab h;
        let (go2, h) := c : addr * Heap in
        let gos := <[Z.to_nat i := go2]> gos in
        if i =? INT_MAX then Undefined
        else clone_loop fuel' prefab count (i + 1) gos h
    end
  else Ok (gos, h).

(** [createGameObjects], lines 336-342. *)
Definition createGameObjects (prefab : addr) (count : nat) (h : Heap)
  : res (list addr * Heap) :=
  let gos := replicate count null in
  clone_loop count prefab (Z.of_nat count) 0 gos h.

(** Assignments and reads through pointers, as [main] makes them on the
    clones and on the shared material (lines 472 and 490-504):
    [go->transform = t], [mat->color = c], [go->transform] and
    [go->meshRenderer.material->color]. *)
Definition write_transform (go : addr) (t : Transform) (h : Heap) : res Heap :=
  do g <- deref (objects h !! go);
  Ok (set_objects (<[go := mkGameObject (meshRenderer g) t]> (objects h)) h).

Definition write_color (mat : addr) (c : vec4) (h : Heap) : res Heap :=
  do m <- deref (materials h !! mat);
  Ok (set_materials (<[mat := mkMaterial (shader m) (textures m) c]> (materials h)) h).

Definition read_transform (go : addr) (h : Heap) : res Transform :=
  do g <- deref (objects h !! go);
  Ok (transform g).

Definition read_color (go : addr) (h : Heap) : res vec4 :=
  do g <- deref (objects h !! go);
  do m <- deref (materials h !! material (meshRenderer g));
  Ok (mat_color m).

(** ** The render loop, lines 513-526 *)

(** One pass through the body of the loop. *)
Definition frame (objs : list addr) (h : Heap) (camera : Camera) (st : state)
  : res (Camera * state) :=
  let st := glfwPollEvents st in
  let (camera, st) := updateCamera camera st in
  let st := glClear (Z.lor (Z.lor GL_COLOR_BUFFER_BIT GL_DEPTH_BUFFER_BIT)
                           GL_STENCIL_BUFFER_BIT) st in
  do st <- renderGameObjects camera objs h st;
  Ok (camera, glfwSwapBuffers st).

(** [while (!glfwWindowShouldClose(win)) { ... }] *)
Fixpoint renderLoop (fuel : nat) (objs : list addr) (h : Heap) (camera : Camera)
    (st : state) : res (Camera * state) :=
  match fuel with
  | O => OutOfFuel
  | S fuel' =>
      let (closing, st) := glfwWindowShouldClose close_requested st in
      if closing then Ok (camera, st)
      else
        do w <- frame objs h camera st;
        let (camera, st) := w : Camera * state in
        renderLoop fuel' objs h camera st
  end.

End Program.

End Game.

(** * The vocabulary of the specification

    Definitions written from the specification's wording, against which the
    program above is compared. *)

Module Spec.

Import Text Glm Platform Game.

Local Open Scope Z_scope.

(** ** Splitting text *)

(** The characters other than the separator [c]. *)
Definition differs (c : ascii) : ascii -> bool := fun x => negb (Ascii.eqb x c).

(** ** Shader headers *)

Definition newline : ascii := "010".

(** Whitespace: the space, the tab, the newline and the carriage return. *)
Definition whitespace : list ascii := [" "; "009"; "010"; "013"]%char.
Definition blank (c : ascii) : bool := existsb (Ascii.eqb c) whitespace.
Definition blanks (s : cstring) : Prop := Forall (fun c => In c whitespace) s.

(** Stripping leading whitespace and newlines. *)
Definition blank_strip (s : cstring) : cstring := dropWhile blank s.

(** The first line of a text, and everything after that line. *)
Definition first_line (s : cstring) : cstring := takeWhile (differs newline) s.
Definition after_first_line (s : cstring) : cstring :=
  tl (dropWhile (differs newline) s).

(** Trimming the whitespace that surrounds a name. *)
Definition trim (s : cstring) : cstring :=
  rev (dropWhile blank (rev (dropWhile blank s))).

Inductive stage : Type :=
| vertex
| fragment
| compute
| geometry
| tess_control
| tess_evaluation.

Definition stage_name (g : stage) : cstring :=
  match g with
  | vertex => lit "vertex"
  | fragment => lit "fragment"
  | compute => lit "compute"
  | geometry => lit "geometry"
  | tess_control => lit "tess-control"
  | tess_evaluation => lit "tess-evaluation"
  end.

Definition stage_type (g : stage) : Z :=
  match g with
  | vertex => GL_VERTEX_SHADER
  | fragment => GL_FRAGMENT_SHADER
  | compute => GL_COMPUTE_SHADER
  | geometry => GL_GEOMETRY_SHADER
  | tess_control => GL_TESS_CONTROL_SHADER
  | tess_evaluation => GL_TESS_EVALUATION_SHADER
  end.

(** [X] names the stage [g]: trimmed, and compared without regard to the
    case of its letters. *)
Definition names_stage (X : cstring) (g : stage) : Prop :=
  map tolower (trim X) = stage_name g.

(** The line [l] is the header [#type X] of stage [g]. *)
Definition header_of (l : cstring) (g : stage) : Prop :=
  exists X : cstring, l = lit "#type " ++ X /\ names_stage X g.

(** [text] is a shader source of stage [g] with the body [body]: after
    leading whitespace, its first line is [#type X], where [X] is the name
    of [g] in any letter case with whitespace around it, and [body] is
    everything after that line. *)
Definition shader_source (text : cstring) (g : stage) (body : cstring) : Prop :=
  exists lead pad name trail : cstring,
    blanks lead /\ blanks pad /\ blanks trail /\
    ~ In newline pad /\ ~ In newline trail /\
    map tolower name = stage_name g /\
    (text = lead ++ lit "#type " ++ pad ++ name ++ trail ++ newline :: body \/
     (text = lead ++ lit "#type " ++ pad ++ name ++ trail /\ body = [])).

(** [src] is [body] up to its first zero byte, and all of it when it has
    none. *)
Definition cut_at_zero (body src : cstring) : Prop :=
  (~ In NUL body /\ src = body) \/
  (exists rest, body = src ++ NUL :: rest /\ ~ In NUL src).

(** The two header errors, as the exceptions the program raises. *)
Definition malformed_header (path : cstring) : exn :=
  runtime_error (lit "Failed to read shader " ++ path).
Definition unknown_type (name : cstring) : exn :=
  runtime_error (lit "Unknown shader type " ++ name).

(** ** Meshes *)

(** The vertex layout of the data model: four float attributes read from
    binding point 0, at the byte offsets of the members of [Vertex], and
    one vertex every [stride] bytes of the vertex buffer. *)
Definition Vertex_attribs : gmap Z attrib :=
  list_to_map [(0, Attrib 0 4 GL_FLOAT false 0 true);
               (1, Attrib 0 4 GL_FLOAT false 16 true);
               (2, Attrib 0 2 GL_FLOAT false 32 true);
               (3, Attrib 0 4 GL_FLOAT false 40 true)].

Definition Vertex_layout (stride vbo ibo : Z) : vertex_array :=
  VertexArray Vertex_attribs {[0 := Binding vbo 0 stride]} ibo.

(** The invariant of a mesh: every index is below the number of vertices. *)
Definition indices_valid (m : Mesh) : Prop :=
  Forall (fun i => i < size_of_list (vertices m)) (indices m).

(** ** The camera *)

(** The keys that move or turn the camera. *)
Definition camera_keys : list Z :=
  [GLFW_KEY_W; GLFW_KEY_A; GLFW_KEY_S; GLFW_KEY_D; GLFW_KEY_Q; GLFW_KEY_E;
   GLFW_KEY_LEFT; GLFW_KEY_RIGHT; GLFW_KEY_UP; GLFW_KEY_DOWN].

(** The basis of the camera: the world axes rotated by the inverse of the
    look direction. *)
Definition basis (axis : vec3) (camera : Camera) : vec3 :=
  mul_qv3 (inverse (lookDirection camera)) axis.
Definition forward_of : Camera -> vec3 := basis (V3 0 0 (-1)).
Definition right_of : Camera -> vec3 := basis (V3 1 0 0).
Definition up_of : Camera -> vec3 := basis (V3 0 1 0).

(** A vector with its vertical component zeroed. *)
Definition horizontal (v : vec3) : vec3 := V3 (x3 v) 0 (z3 v).

(** [f] applied when [key] is reported held, that is, not zero. *)
Definition when_held (keys : Z -> Z) (key : Z) (f : Camera -> Camera)
    (camera : Camera) : Camera :=
  if keys key =? 0 then camera else f camera.

(** The camera after one update under the key state [keys]: what each held
    key does, in the order the program asks for the keys. *)
Definition steer (keys : Z -> Z) (camera : Camera) : Camera :=
  let f := forward_of camera in
  let r := right_of camera in
  let u := up_of camera in
  let c := when_held keys GLFW_KEY_W (move (smul3 0.05 f)) camera in
  let c := when_held keys GLFW_KEY_A (move_back (smul3 0.05 (horizontal r))) c in
  let c := when_held keys GLFW_KEY_S (move_back (smul3 0.05 f)) c in
  let c := when_held keys GLFW_KEY_D (move (smul3 0.05 r)) c in
  let c := when_held keys GLFW_KEY_Q (move (smul3 0.05 u)) c in
  let c := when_held keys GLFW_KEY_E (move_back (smul3 0.05 u)) c in
  let c := when_held keys GLFW_KEY_LEFT (turn (angleAxis (radians (-0.5)) (V3 0 1 0))) c in
  let c := when_held keys GLFW_KEY_RIGHT (turn (angleAxis (radians 0.5) (V3 0 1 0))) c in
  let c := when_held keys GLFW_KEY_UP (turn (angleAxis (radians (-0.5)) r)) c in
  let c := when_held keys GLFW_KEY_DOWN (turn (angleAxis (radians 0.5) r)) c in
  c.

(** The step a single movement key makes, as the program has it: 0.05
    along the forward vector for W and against it for S, along the up
    vector for Q and against it for E, against the horizontal part of the
    right vector for A, and along the whole right vector for D. *)
Definition displacement (key : Z) (camera : Camera) : vec3 :=
  if key =? GLFW_KEY_W then smul3 0.05 (forward_of camera)
  else if key =? GLFW_KEY_A then neg3 (smul3 0.05 (horizontal (right_of camera)))
  else if key =? GLFW_KEY_S then neg3 (smul3 0.05 (forward_of camera))
  else if key =? GLFW_KEY_D then smul3 0.05 (right_of camera)
  else if key =? GLFW_KEY_Q then smul3 0.05 (up_of camera)
  else if key =? GLFW_KEY_E then neg3 (smul3 0.05 (up_of camera))
  else V3 0 0 0.

Definition movement_keys : list Z :=
  [GLFW_KEY_W; GLFW_KEY_A; GLFW_KEY_S; GLFW_KEY_D; GLFW_KEY_Q; GLFW_KEY_E].

(** The driver state after the ten key queries of one camera update. *)
Definition after_key_queries (st : state) : state :=
  emit_all (map Call.GetKey camera_keys) st.

(** ** The render loop *)

(** What a game object points to, when all its pointers are valid. *)
Definition resolve (h : Heap) (go : addr)
  : option (GameObject * Mesh * Material * ShaderProgram) :=
  g ← objects h !! go;
  m ← meshes h !! mesh (meshRenderer g);
  mt ← materials h !! material (meshRenderer g);
  sp ← programs h !! shader mt;
  Some (g, m, mt, sp).


(** The mask of the colour, depth and stencil buffers. *)
Definition clear_mask : Z := 0x4500.

(** The calls of one iteration that draws no object: poll the events, ask
    for the ten keys, clear, present. *)
Definition idle_frame_calls : list Call.t :=
  [Call.PollEvents] ++ map Call.GetKey camera_keys
  ++ [Call.Clear clear_mask; Call.SwapBuffers].

(** The calls of a loop that runs [n] such iterations and then sees the
    close request. *)
Fixpoint idle_loop_calls (n : nat) : list Call.t :=
  match n with
  | O => [Call.WindowShouldClose]
  | S n' => [Call.WindowShouldClose] ++ idle_frame_calls ++ idle_loop_calls n'
  end.

Section Frames.

Variable key_input : nat -> Z -> Z.

(** The camera after [n] iterations that start after [p] polls. *)
Fixpoint loop_camera (n : nat) (p : nat) (camera : Camera) : Camera :=
  match n with
  | O => camera
  | S n' => loop_camera n' (S p) (steer (key_input (S p)) camera)
  end.

End Frames.

End Spec.

(** * Fixtures: the inputs the repository itself provides *)

Module Fixtures.

Import Text Glm Platform Game.

Local Open Scope Z_scope.

(** The head of [test.glsl]. *)
Definition test_glsl : cstring := lit "#type fragment
#version 430 core

uniform vec4 uColor;
".

(** A file system that holds [test.glsl] and nothing else. *)
Definition files (path : cstring) : cstring :=
  if Text.eqb path (lit "test.glsl") then test_glsl else [].

(** A driver that accepts every source, and a driver state before any
    call. *)
Definition accepts : Z -> cstring -> bool := fun _ _ => true.
Definition no_calls : state := State ∅ ∅ ∅ ∅ 0 [].

(** A program keeps all its uniforms at location 0; no key is held; the
    window is closed at once. *)
Definition location_zero : Z -> cstring -> Z := fun _ _ => 0.
Definition no_keys : nat -> Z -> Z := fun _ _ => 0.
Definition only_key (key : Z) : nat -> Z -> Z :=
  fun _ k => if k =? key then 1 else 0.
Definition close_after (n : nat) : nat -> bool := fun p => (n <=? p)%nat.

Definition empty_heap : Heap := mkHeap ∅ ∅ ∅ ∅.

(** The cube of [main], lines 438-468. *)
Definition corner (x y z : R) : Vertex :=
  mkVertex (V4 x y z 1) (V4 0 0 0 1) (V2 0 0) (V4 0 0 0 1).

Definition cube_vertices : list Vertex :=
  [corner 0 0 0; corner 1 0 0; corner 1 1 0; corner 0 1 0;
   corner 0 0 (-1); corner 1 0 (-1); corner 1 1 (-1); corner 0 1 (-1)].

Definition cube_indices : list Z :=
  [0; 2; 3; 0; 1; 2;
   4; 7; 6; 4; 6; 5;
   1; 5; 6; 1; 6; 2;
   4; 3; 7; 4; 0; 3;
   4; 1; 0; 4; 5; 1;
   3; 6; 7; 3; 2; 6].

(** The camera of [main], line 507, and one that is rolled about the view
    axis, so that its right vector has a vertical component. *)
Definition start_camera : Camera := mkCamera (V3 0 0 0) (Quat 1 0 0 0).
Definition rolled_camera : Camera := mkCamera (V3 0 0 0) (Quat 0.6 0 0 0.8).

(** A transform that is moved and scaled but not rotated. *)
Definition moved_and_scaled : Transform :=
  mkTransform (V3 1 0 0) (Quat 1 0 0 0) (V3 2 2 2).

(** The scene of [main] before cloning: the cube mesh, the red material
    with its program, and the prefab, each at address 1 of its store. *)
Definition cube_mesh : Mesh := mkMesh cube_vertices cube_indices Triangles 1 1 2.
Definition red : Material := mkMaterial 1%N (replicate 32 null) (V4 1 0 0 0.5).
Definition prefab : GameObject := mkGameObject (mkMeshRenderer 1%N 1%N) default_Transform.
Definition scene : Heap :=
  mkHeap {[1%N := cube_mesh]} {[1%N := red]} {[1%N := mkShaderProgram 3]}
         {[1%N := prefab]}.

End Fixtures.

(** * Shader programs (game.cpp, lines 164-194) *)

Module Linker.

Import Text Platform Game.

Local Open Scope Z_scope.

Definition GL_LINK_STATUS : Z := 0x8B82.

(** A program object: the shaders attached to it, in the order of
    attachment, and whether the last link succeeded. *)
Record program : Type := Program { attached : list Z; linked : bool }.

(** The calls on program objects, logged like the calls of [Platform]. *)
Module LinkCall.
Inductive t : Type :=
| CreateProgram
| AttachShader (program sh : Z)
| LinkProgram (program : Z)
| GetProgramiv (program pname : Z)
| DeleteShader (sh : Z).
End LinkCall.

(** The driver state with its program objects: the state of [Platform],
    the programs, the shaders flagged for deletion, and the log of the
    calls on programs. *)
Record state : Type := State {
  driver : Platform.state;
  gl_programs : gmap Z program;
  flagged : gset Z;
  link_log : list LinkCall.t
}.

Definition set_programs (p : gmap addr ShaderProgram) (h : Heap) : Heap :=
  mkHeap (meshes h) (materials h) p (objects h).

Section Driver.

Variable oob : ascii.
Variable readFile : cstring -> cstring.
Variable glsl_compiles : Z -> cstring -> bool.

(** Whether the driver's linker accepts a set of shader objects. *)
Variable glsl_links : list Platform.shader -> bool.

(** [glCreateProgram()]: programs and shaders share one space of names. *)
Definition glCreateProgram (ls : state) : Z * state :=
  let name := fresh ({[0]} ∪ dom (gl_programs ls) ∪ dom (shaders (driver ls))) in
  (name, State (driver ls) (<[name := Program [] false]> (gl_programs ls)) (flagged ls)
               (link_log ls ++ [LinkCall.CreateProgram])).

(** [glAttachShader(pr, sh)]: an unknown program or shader, or a shader
    that is attached already, is an OpenGL error and changes nothing. *)
Definition glAttachShader (pr sh : Z) (ls : state) : state :=
  State (driver ls)
        (match gl_programs ls !! pr, shaders (driver ls) !! sh with
         | Some p, Some _ =>
             if bool_decide (sh ∈ attached p) then gl_programs ls
             else <[pr := Program (attached p ++ [sh]) (linked p)]> (gl_programs ls)
         | _, _ => gl_programs ls
         end)
        (flagged ls)
        (link_log ls ++ [LinkCall.AttachShader pr sh]).

(** [glLinkProgram(pr)]. *)
Definition glLinkProgram (pr : Z) (ls : state) : state :=
  State (driver ls)
        (match gl_programs ls !! pr with
         | Some p =>
             <[pr := Program (attached p)
                       (glsl_links (omap (fun sh => shaders (driver ls) !! sh)
                                         (attached p)))]>
               (gl_programs ls)
         | None => gl_programs ls
         end)
        (flagged ls)
        (link_log ls ++ [LinkCall.LinkProgram pr]).

(** [glGetProgramiv(pr, GL_LINK_STATUS, &i)]. *)
Definition glGetProgramiv_LINK_STATUS (pr : Z) (ls : state) : Z * state :=
  (match gl_programs ls !! pr with
   | Some p => if linked p then 1 else 0
   | None => 0
   end,
   State (driver ls) (gl_programs ls) (flagged ls)
         (link_log ls ++ [LinkCall.GetProgramiv pr GL_LINK_STATUS])).

(** [glDeleteShader(sh)]: a shader that exists is flagged for deletion. *)
Definition glDeleteShader (sh : Z) (ls : state) : state :=
  State (driver ls) (gl_programs ls)
        (match shaders (driver ls) !! sh with
         | Some _ => {[sh]} ∪ flagged ls
         | None => flagged ls
         end)
        (link_log ls ++ [LinkCall.DeleteShader sh]).

(** The loop of lines 166-168:
    [for (std::string p : files) shaders.push_back(createShader(p));] *)
Fixpoint compile_files (files : list cstring) (shaders : list Z) (st : Platform.state)
  : res (list Z * Platform.state) :=
  match files with
  | [] => Ok (shaders, st)
  | p :: rest =>
      do r <- createShader oob readFile glsl_compiles p st;
      let (sh, st) := r : Z * Platform.state in
      compile_files rest (shaders ++ [sh]) st
  end.

(** [createShaderProgram], lines 164-194. *)
Definition createShaderProgram (files : list cstring) (h : Heap) (ls : state)
  : res (addr * Heap * state) :=
  do r <- compile_files files [] (driver ls);
  let (shaders, st) := r : list Z * Platform.state in
  let ls := State st (gl_programs ls) (flagged ls) (link_log ls) in
  let (pr, ls) := glCreateProgram ls in
  let ls := fold_left (fun ls s => glAttachShader pr s ls) shaders ls in
  let ls := glLinkProgram pr ls in
  let (i, ls) := glGetProgramiv_LINK_STATUS pr ls in
  if i =? 0 then Throw (runtime_error (lit "Failed to link program"))
  else
    let ls := fold_left (fun ls s => glDeleteShader s ls) shaders ls in
    let sp := new (programs h) in
    Ok (sp, set_programs (<[sp := mkShaderProgram pr]> (programs h)) h, ls).

End Driver.

End Linker.

(** * The diagnostics callback (game.cpp, lines 350-395) *)

Module Diagnostics.

Import Text.

Local Open Scope Z_scope.

Definition GL_DEBUG_SOURCE_API : Z := 0x8246.
Definition GL_DEBUG_SOURCE_WINDOW_SYSTEM : Z := 0x8247.
Definition GL_DEBUG_SOURCE_SHADER_COMPILER : Z := 0x8248.
Definition GL_DEBUG_SOURCE_THIRD_PARTY : Z := 0x8249.
Definition GL_DEBUG_SOURCE_APPLICATION : Z := 0x824A.
Definition GL_DEBUG_SOURCE_OTHER : Z := 0x824B.
Definition GL_DEBUG_TYPE_ERROR : Z := 0x824C.
Definition GL_DEBUG_TYPE_DEPRECATED_BEHAVIOR : Z := 0x824D.
Definition GL_DEBUG_TYPE_UNDEFINED_BEHAVIOR : Z := 0x824E.
Definition GL_DEBUG_TYPE_PORTABILITY : Z := 0x824F.
Definition GL_DEBUG_TYPE_PERFORMANCE : Z := 0x8250.
Definition GL_DEBUG_TYPE_OTHER : Z := 0x8251.
Definition GL_DEBUG_TYPE_MARKER : Z := 0x8268.
Definition GL_DEBUG_TYPE_PUSH_GROUP : Z := 0x8269.
Definition GL_DEBUG_TYPE_POP_GROUP : Z := 0x826A.
Definition GL_DEBUG_SEVERITY_NOTIFICATION : Z := 0x826B.
Definition GL_DEBUG_SEVERITY_HIGH : Z := 0x9146.
Definition GL_DEBUG_SEVERITY_MEDIUM : Z := 0x9147.
Definition GL_DEBUG_SEVERITY_LOW : Z := 0x9148.

(** [std::cout << id] for an [unsigned int]: its decimal digits. *)
Definition decimal (id : Z) : cstring :=
  list_ascii_of_string (DecimalString.NilEmpty.string_of_uint (N.to_uint (Z.to_N id))).

(** [std::endl]. *)
Definition endl : cstring := ["010"%char].

(** The three [switch] statements, lines 364-393; a value that matches no
    case prints nothing. *)
Definition source_label (source : Z) : cstring :=
  if source =? GL_DEBUG_SOURCE_API then lit "Source: API"
  else if source =? GL_DEBUG_SOURCE_WINDOW_SYSTEM then lit "Source: Window System"
  else if source =? GL_DEBUG_SOURCE_SHADER_COMPILER then lit "Source: Shader Compiler"
  else if source =? GL_DEBUG_SOURCE_THIRD_PARTY then lit "Source: Third Party"
  else if source =? GL_DEBUG_SOURCE_APPLICATION then lit "Source: Application"
  else if source =? GL_DEBUG_SOURCE_OTHER then lit "Source: Other"
  else [].

Definition type_label (type : Z) : cstring :=
  if type =? GL_DEBUG_TYPE_ERROR then lit "Type: Error"
  else if type =? GL_DEBUG_TYPE_DEPRECATED_BEHAVIOR then lit "Type: Deprecated Behaviour"
  else if type =? GL_DEBUG_TYPE_UNDEFINED_BEHAVIOR then lit "Type: Undefined Behaviour"
  else if type =? GL_DEBUG_TYPE_PORTABILITY then lit "Type: Portability"
  else if type =? GL_DEBUG_TYPE_PERFORMANCE then lit "Type: Performance"
  else if type =? GL_DEBUG_TYPE_MARKER then lit "Type: Marker"
  else if type =? GL_DEBUG_TYPE_PUSH_GROUP then lit "Type: Push Group"
  else if type =? GL_DEBUG_TYPE_POP_GROUP then lit "Type: Pop Group"
  else if type =? GL_DEBUG_TYPE_OTHER then lit "Type: Other"
  else [].

Definition severity_label (severity : Z) : cstring :=
  if severity =? GL_DEBUG_SEVERITY_HIGH then lit "Severity: high"
  else if severity =? GL_DEBUG_SEVERITY_MEDIUM then lit "Severity: medium"
  else if severity =? GL_DEBUG_SEVERITY_LOW then lit "Severity: low"
  else if severity =? GL_DEBUG_SEVERITY_NOTIFICATION then lit "Severity: notification"
  else [].

(** [glDebugOutput], lines 350-395: the text it writes to [std::cout].
    The length and the user parameter are not read. *)
Definition glDebugOutput (source type id severity : Z) (message : cstring) : cstring :=
  if (id =? 131169) || (id =? 131185) || (id =? 131218) || (id =? 131204) then []
  else
    lit "---------------" ++ endl
    ++ lit "Debug message (" ++ decimal id ++ lit "): " ++ message ++ endl
    ++ source_label source ++ endl
    ++ type_label type ++ endl
    ++ severity_label severity ++ endl
    ++ endl.

End Diagnostics.

(** * More vocabulary for stating properties *)

Module Notions.

Import Text Glm Platform Game Spec.

Local Open Scope Z_scope.

(** The keys that turn the camera: about the world's vertical axis, and
    about the camera's right vector. *)
Definition yaw_keys : list Z := [GLFW_KEY_LEFT; GLFW_KEY_RIGHT].
Definition pitch_keys : list Z := [GLFW_KEY_UP; GLFW_KEY_DOWN].

(** A quaternion of length one. *)
Definition unit (q : quat) : Prop := dot q q = 1%R.

(** The ids that the diagnostics callback drops. *)
Definition ignored_ids : list Z := [131169; 131185; 131218; 131204].

(** A file whose first non-blank line is the header of some stage. *)
Definition has_header (text : cstring) : Prop :=
  exists g, header_of (first_line (blank_strip text)) g.

(** The look direction after the arrow keys of one update: each held key
    multiplies its rotation on the right, the pitch keys about the axis
    [r]. *)
Definition turned (keys : Z -> Z) (key : Z) (a q : quat) : quat :=
  if keys key =? 0 then q else mul_qq q a.

Definition look_after (keys : Z -> Z) (r : vec3) (q : quat) : quat :=
  turned keys GLFW_KEY_DOWN (angleAxis (radians 0.5) r)
    (turned keys GLFW_KEY_UP (angleAxis (radians (-0.5)) r)
       (turned keys GLFW_KEY_RIGHT (angleAxis (radians 0.5) (V3 0 1 0))
          (turned keys GLFW_KEY_LEFT (angleAxis (radians (-0.5)) (V3 0 1 0)) q))).

(** The right vector that belongs to a look direction. *)
Definition right_vector (q : quat) : vec3 := mul_qv3 (inverse q) (V3 1 0 0).

(** Half of half a degree, the half angle of every turn. *)
Definition half_step : R := (radians 0.5 * 0.5)%R.

(** A key state in which exactly the two keys [k1] and [k2] are held. *)
Definition two_keys (k1 k2 : Z) : nat -> Z -> Z :=
  fun _ k => if (k =? k1) || (k =? k2) then 1 else 0.

(** A driver state without programs, and a linker that accepts every set
    of shaders. *)
Definition no_programs : Linker.state := Linker.State Fixtures.no_calls ∅ ∅ [].
Definition links : list Platform.shader -> bool := fun _ => true.

End Notions.

(** * Facts about the text utilities *)

Module TextFacts.

Import Text Spec.

Local Open Scope Z_scope.

Lemma wrap_small (z : Z) : 0 <= z < size_modulus -> wrap z = z.
Proof. intros H. unfold wrap. now apply Z.mod_small. Qed.

Lemma wrap_small_int (z : Z) : 0 <= z <= INT_MAX -> wrap z = z.
Proof.
  intros H. apply wrap_small. change INT_MAX with 2147483647 in H.
  change size_modulus with 18446744073709551616. lia.
Qed.

Lemma npos_value : npos = 18446744073709551615.
Proof. reflexivity. Qed.

Lemma size_modulus_value : size_modulus = 18446744073709551616.
Proof. reflexivity. Qed.

Lemma size_nonneg (s : cstring) : 0 <= size s.
Proof. unfold size. lia. Qed.

Lemma size_app (a b : cstring) : size (a ++ b) = size a + size b.
Proof. unfold size. rewrite length_app. lia. Qed.

Lemma size_cons (x : ascii) (s : cstring) : size (x :: s) = size s + 1.
Proof. unfold size. simpl length. lia. Qed.

Create Rewrite HintDb size.
#[export] Hint Rewrite size_app size_cons : size.

Lemma eqb_eq (a b : cstring) : Text.eqb a b = true <-> a = b.
Proof.
  revert b. induction a as [|x a IH]; intros [|y b]; simpl; try easy.
  rewrite andb_true_iff, Ascii.eqb_eq, IH. split.
  - intros [-> ->]. reflexivity.
  - intros E. inversion E. auto.
Qed.

Lemma take_drop_while {A : Type} (p : A -> bool) (l : list A) :
  takeWhile p l ++ dropWhile p l = l.
Proof.
  induction l as [|x l IH]; simpl; [reflexivity|].
  destruct (p x); simpl; [now rewrite IH | reflexivity].
Qed.

Lemma takeWhile_all {A : Type} (p : A -> bool) (l : list A) :
  Forall (fun x => p x = true) (takeWhile p l).
Proof.
  induction l as [|x l IH]; simpl; [constructor|].
  destruct (p x) eqn:E; constructor; assumption.
Qed.

Lemma dropWhile_head {A : Type} (p : A -> bool) (l : list A) :
  dropWhile p l = [] \/ exists y l', dropWhile p l = y :: l' /\ p y = false.
Proof.
  induction l as [|x l IH]; simpl; [now left|].
  destruct (p x) eqn:E; [exact IH|]. right. eauto.
Qed.

Lemma dropWhile_nil_all {A : Type} (p : A -> bool) (l : list A) :
  dropWhile p l = [] -> Forall (fun x => p x = true) l.
Proof.
  induction l as [|x l IH]; simpl; [constructor|].
  destruct (p x) eqn:E; [|discriminate]. intros H. constructor; auto.
Qed.

Lemma dropWhile_stop {A : Type} (p : A -> bool) (x : A) (l : list A) :
  p x = false -> dropWhile p (x :: l) = x :: l.
Proof. intros H. simpl. now rewrite H. Qed.

Lemma dropWhile_app_all {A : Type} (p : A -> bool) (l1 l2 : list A) :
  Forall (fun x => p x = true) l1 -> dropWhile p (l1 ++ l2) = dropWhile p l2.
Proof.
  induction 1 as [|x l1 Hx _ IH]; simpl; [reflexivity|]. now rewrite Hx.
Qed.

Lemma dropWhile_all {A : Type} (p : A -> bool) (l : list A) :
  Forall (fun x => p x = true) l -> dropWhile p l = [].
Proof.
  intros H. rewrite <- (app_nil_r l). now rewrite dropWhile_app_all.
Qed.

Lemma dropWhile_ext {A : Type} (p q : A -> bool) (l : list A) :
  (forall x, p x = q x) -> dropWhile p l = dropWhile q l.
Proof.
  intros H. induction l as [|x l IH]; simpl; [reflexivity|].
  rewrite H. destruct (q x); [exact IH | reflexivity].
Qed.

(** ** Whitespace *)

(** The characters that [isWhiteSpace] accepts are the whitespace
    characters. *)
Lemma blank_In (c : ascii) : blank c = true <-> In c whitespace.
Proof.
  unfold blank. rewrite existsb_exists. split.
  - intros (x & Hx & E). apply Ascii.eqb_eq in E. now subst.
  - intros H. exists c. split; [exact H | apply Ascii.eqb_refl].
Qed.

Lemma isWhiteSpace_blank (c : ascii) : isWhiteSpace c = blank c.
Proof.
  unfold isWhiteSpace, blank, whitespace. cbn [existsb].
  destruct (Ascii.eqb c " "), (Ascii.eqb c "010"), (Ascii.eqb c "013"),
    (Ascii.eqb c "009"); reflexivity.
Qed.

Lemma blank_strip_unfold (s : cstring) : blank_strip s = dropWhile isWhiteSpace s.
Proof. unfold blank_strip. apply dropWhile_ext. intros c. now rewrite isWhiteSpace_blank. Qed.

Lemma trim_unfold (s : cstring) :
  trim s = rev (dropWhile isWhiteSpace (rev (dropWhile isWhiteSpace s))).
Proof.
  unfold trim.
  rewrite (dropWhile_ext blank isWhiteSpace s)
    by (intros c; now rewrite isWhiteSpace_blank).
  now rewrite (dropWhile_ext blank isWhiteSpace (rev (dropWhile isWhiteSpace s)))
    by (intros c; now rewrite isWhiteSpace_blank).
Qed.

(** ** [substr] *)

Lemma substr_tail (s : cstring) (pos : Z) :
  0 <= pos <= size s -> size s < npos ->
  substr s pos npos = Ok (skipn (Z.to_nat pos) s).
Proof.
  intros Hp Hs. unfold substr.
  destruct (pos >? size s) eqn:E; [lia|].
  f_equal. apply firstn_all2. rewrite length_skipn. unfold size in *. lia.
Qed.

Lemma substr_head (s : cstring) (n : Z) :
  0 <= n <= size s -> substr s 0 n = Ok (firstn (Z.to_nat n) s).
Proof.
  intros Hn. unfold substr. pose proof (size_nonneg s).
  destruct (0 >? size s) eqn:E; [lia|].
  simpl skipn. do 2 f_equal. lia.
Qed.

(** ** [find_first_of] and [splitOnFirst] *)

Lemma find_from_spec (s : cstring) (c : ascii) (i : Z) :
  find_from s c i =
  match dropWhile (differs c) s with
  | [] => npos
  | _ :: _ => i + size (takeWhile (differs c) s)
  end.
Proof.
  revert i. induction s as [|x s IH]; intros i; simpl; [reflexivity|].
  unfold differs at 1 3. destruct (Ascii.eqb x c) eqn:E; simpl.
  - unfold size. simpl. lia.
  - rewrite IH. destruct (dropWhile (differs c) s); [reflexivity|].
    rewrite size_cons. lia.
Qed.

Lemma takeWhile_differs_notin (c : ascii) (s : cstring) :
  ~ In c (takeWhile (differs c) s).
Proof.
  intros H. pose proof (takeWhile_all (differs c) s) as F.
  rewrite Forall_forall in F. specialize (F c (proj2 (list_elem_of_In _ _) H)).
  unfold differs in F. now rewrite Ascii.eqb_refl in F.
Qed.

Lemma dropWhile_differs_head (c : ascii) (s : cstring) :
  match dropWhile (differs c) s with
  | [] => ~ In c s
  | x :: _ => x = c
  end.
Proof.
  induction s as [|x s IH]; simpl; [tauto|].
  unfold differs at 1. destruct (Ascii.eqb x c) eqn:E; simpl.
  - now apply Ascii.eqb_eq.
  - destruct (dropWhile (differs c) s); [|exact IH].
    intros [->|H]; [|tauto]. now rewrite Ascii.eqb_refl in E.
Qed.

(** [splitOnFirst] cuts the text at the first separator. *)
Lemma splitOnFirst_cut (text : cstring) (c : ascii) :
  size text < npos ->
  splitOnFirst text c =
  Ok (takeWhile (differs c) text, tl (dropWhile (differs c) text)).
Proof.
  intros Hs. unfold splitOnFirst, find_first_of. rewrite find_from_spec.
  pose proof (take_drop_while (differs c) text) as Htd.
  pose proof (size_nonneg (takeWhile (differs c) text)) as Hk.
  rewrite npos_value in Hs.
  destruct (dropWhile (differs c) text) as [|x b] eqn:Ed.
  - rewrite app_nil_r in Htd. rewrite Htd. reflexivity.
  - set (pre := takeWhile (differs c) text) in *.
    assert (Hsz : size text = size pre + size b + 1).
    { rewrite <- Htd. autorewrite with size. lia. }
    pose proof (size_nonneg b) as Hb.
    unfold splitAt. rewrite Z.add_0_l.
    destruct (size pre =? 0) eqn:E0.
    + assert (pre = []) as Hpre.
      { destruct pre; [reflexivity|]. rewrite size_cons in E0.
        pose proof (size_nonneg pre). lia. }
      rewrite Hpre in *. simpl in Htd. subst text.
      rewrite substr_tail.
      * reflexivity.
      * rewrite size_cons. lia.
      * rewrite npos_value. lia.
    + assert ((size pre =? npos) = false) as -> by (rewrite npos_value; lia).
      rewrite wrap_small by (rewrite size_modulus_value; lia).
      assert (Hfirst : firstn (Z.to_nat (size pre)) text = pre).
      { rewrite <- Htd. unfold size. rewrite Nat2Z.id.
        rewrite firstn_app, firstn_all, Nat.sub_diag. simpl. apply app_nil_r. }
      assert (Hskip : skipn (Z.to_nat (size pre + 1)) text = b).
      { rewrite <- Htd. unfold size.
        replace (Z.to_nat (Z.of_nat (length pre) + 1)) with (length pre + 1)%nat by lia.
        rewrite skipn_app, skipn_all2 by lia.
        replace (length pre + 1 - length pre)%nat with 1%nat by lia. reflexivity. }
      destruct (size pre + 1 =? size text) eqn:E1.
      * rewrite substr_head by lia. simpl. rewrite Hfirst.
        assert (b = []) as ->; [|reflexivity].
        destruct b; [reflexivity|]. rewrite size_cons in Hsz.
        pose proof (size_nonneg b). lia.
      * destruct (size pre + 1 >? size text) eqn:E2; [lia|].
        rewrite substr_head by lia. simpl. rewrite Hfirst.
        rewrite substr_tail by (rewrite ?npos_value; lia). simpl.
        rewrite Hskip. reflexivity.
Qed.

(** ** Reading characters *)

Lemma at_middle (oob : ascii) (pre suf : cstring) (x : ascii) :
  at_ oob (pre ++ x :: suf) (size pre) = x.
Proof.
  unfold at_. pose proof (size_nonneg pre). pose proof (size_nonneg suf).
  autorewrite with size.
  destruct (0 <=? size pre) eqn:E1; [|lia].
  destruct (size pre <? size pre + (size suf + 1)) eqn:E2; [|lia]. simpl.
  unfold size. rewrite Nat2Z.id. apply nth_middle.
Qed.

Lemma at_end (oob : ascii) (s : cstring) : at_ oob s (size s) = NUL.
Proof.
  unfold at_. destruct (size s <? size s) eqn:E; [lia|].
  rewrite andb_false_r. now rewrite Z.eqb_refl.
Qed.

Lemma NUL_not_white : isWhiteSpace NUL = false.
Proof. reflexivity. Qed.

(** ** The loop that skips leading whitespace *)

(** From index [size pre] of [pre ++ suf] the loop either runs off the end,
    when [suf] is whitespace throughout, or stops at the first character of
    [suf] that is not whitespace. *)
Lemma leading_loop_spec (oob : ascii) (suf pre : cstring) (fuel : nat) :
  size (pre ++ suf) < size_modulus ->
  (length suf < fuel)%nat ->
  exists e,
    leading_loop oob fuel (pre ++ suf) (size pre) (at_ oob (pre ++ suf) (size pre)) = Ok e /\
    ((e = Return [] /\ dropWhile isWhiteSpace suf = []) \/
     (exists j, e = Fallthrough j /\ 0 <= j <= size (pre ++ suf) /\
                skipn (Z.to_nat j) (pre ++ suf) = dropWhile isWhiteSpace suf)).
Proof.
  revert pre fuel. induction suf as [|x suf IH]; intros pre fuel Hs Hf.
  - rewrite app_nil_r in *. rewrite at_end.
    destruct fuel; simpl;
      (eexists; split; [reflexivity|]; right; exists (size pre);
       pose proof (size_nonneg pre); repeat split; try lia;
       unfold size; rewrite Nat2Z.id; apply skipn_all).
  - rewrite at_middle. destruct (isWhiteSpace x) eqn:Ex.
    + destruct fuel as [|fuel]; [simpl in Hf; lia|].
      cbn [leading_loop]. rewrite Ex.
      pose proof (size_nonneg pre). pose proof (size_nonneg suf).
      autorewrite with size in Hs.
      rewrite wrap_small by lia.
      destruct (size pre + 1 >=? size (pre ++ x :: suf)) eqn:Ege.
      * autorewrite with size in Ege.
        assert (suf = []) as ->.
        { destruct suf; [reflexivity|]. rewrite size_cons in Ege.
          pose proof (size_nonneg suf). lia. }
        eexists; split; [reflexivity|]. left. split; [reflexivity|].
        simpl. now rewrite Ex.
      * specialize (IH (pre ++ [x]) fuel).
        rewrite <- app_assoc in IH. simpl in IH.
        replace (size (pre ++ [x])) with (size pre + 1) in IH
          by (autorewrite with size; unfold size; simpl; lia).
        destruct IH as (e & He & Hcase).
        { autorewrite with size. lia. }
        { simpl in Hf. lia. }
        exists e. split; [exact He|]. simpl. rewrite Ex. exact Hcase.
    + assert (leading_loop oob fuel (pre ++ x :: suf) (size pre) x
              = Ok (Fallthrough (size pre))) as ->.
      { destruct fuel; simpl; now rewrite Ex. }
      eexists; split; [reflexivity|]. right. exists (size pre).
      pose proof (size_nonneg pre). pose proof (size_nonneg suf).
      autorewrite with size. repeat split; try lia.
      unfold size. rewrite Nat2Z.id.
      rewrite skipn_app, skipn_all, Nat.sub_diag. simpl. now rewrite Ex.
Qed.

Lemma leading_loop_whole (oob : ascii) (text : cstring) :
  size text < size_modulus ->
  exists e,
    leading_loop oob (S (length text)) text 0 (at_ oob text 0) = Ok e /\
    ((e = Return [] /\ dropWhile isWhiteSpace text = []) \/
     (exists j, e = Fallthrough j /\ 0 <= j <= size text /\
                skipn (Z.to_nat j) text = dropWhile isWhiteSpace text)).
Proof.
  intros Hs. apply (leading_loop_spec oob text [] (S (length text))); simpl; [exact Hs | lia].
Qed.

(** [lStripNewlines] drops the leading whitespace. *)
Lemma lStripNewlines_spec (oob : ascii) (text : cstring) :
  size text < npos ->
  lStripNewlines oob text = Ok (blank_strip text).
Proof.
  intros Hs. rewrite npos_value in Hs. rewrite blank_strip_unfold. unfold lStripNewlines.
  destruct (leading_loop_whole oob text) as (e & -> & [[-> Hd] | (j & -> & Hj & Hd)]).
  - rewrite size_modulus_value. lia.
  - simpl. now rewrite Hd.
  - simpl. rewrite substr_tail by (rewrite ?npos_value; lia). now rewrite Hd.
Qed.

(** ** The loop that skips trailing whitespace *)

Lemma at_inside (oob : ascii) (s : cstring) (i : Z) :
  0 <= i < size s -> at_ oob s i = nth (Z.to_nat i) s NUL.
Proof.
  intros H. unfold at_.
  destruct (0 <=? i) eqn:E1; [|lia]. destruct (i <? size s) eqn:E2; [|lia].
  reflexivity.
Qed.

Lemma all_white_nth (w : cstring) (k : nat) :
  Forall (fun c => isWhiteSpace c = true) w -> (k < length w)%nat ->
  isWhiteSpace (nth k w NUL) = true.
Proof.
  intros F Hk. rewrite Forall_forall in F. apply F.
  apply list_elem_of_In. now apply nth_In.
Qed.

(** In [p ++ y :: w], where [y] is not whitespace and [w] is, the loop
    started [k] characters into [w] walks back to [y]; it stops there,
    unless [y] is the first character of the string and the loop has moved
    at all, in which case the function returns the empty string. *)
Lemma trailing_loop_spec (oob : ascii) (p w : cstring) (y : ascii) (k fuel : nat) :
  size (p ++ y :: w) < size_modulus ->
  isWhiteSpace y = false ->
  Forall (fun c => isWhiteSpace c = true) w ->
  (k <= length w)%nat -> (k <= fuel)%nat ->
  trailing_loop oob fuel (p ++ y :: w) (size p + Z.of_nat k)
                (at_ oob (p ++ y :: w) (size p + Z.of_nat k))
  = Ok (match p, k with
        | [], S _ => Return []
        | _, _ => Fallthrough (size p)
        end).
Proof.
  intros Hs Hy Hw. revert fuel. induction k as [|k IH]; intros fuel Hk Hf.
  - rewrite Z.add_0_r, at_middle.
    destruct fuel; simpl; rewrite Hy; now destruct p.
  - pose proof (size_nonneg p) as Hp. pose proof (size_nonneg w) as Hw0.
    autorewrite with size in Hs.
    assert (Hc : at_ oob (p ++ y :: w) (size p + Z.of_nat (S k)) = nth k w NUL).
    { rewrite at_inside by (autorewrite with size; unfold size in *; lia).
      unfold size.
      replace (Z.to_nat (Z.of_nat (length p) + Z.of_nat (S k)))
        with (length p + S k)%nat by lia.
      rewrite app_nth2 by lia.
      replace (length p + S k - length p)%nat with (S k) by lia. reflexivity. }
    rewrite Hc. destruct fuel as [|fuel]; [lia|].
    cbn [trailing_loop]. rewrite all_white_nth by (assumption || lia).
    replace (size p + Z.of_nat (S k) - 1) with (size p + Z.of_nat k) by lia.
    rewrite wrap_small by (unfold size in *; lia).
    destruct (size p + Z.of_nat k =? 0) eqn:E0.
    + simpl. assert (p = []) as ->; [|reflexivity].
      destruct p; [reflexivity|]. rewrite size_cons in E0.
      pose proof (size_nonneg p). lia.
    + destruct (size p + Z.of_nat k >=? size (p ++ y :: w)) eqn:E1.
      { autorewrite with size in E1. unfold size in *. lia. }
      simpl. rewrite IH by lia.
      destruct p; [|reflexivity]. destruct k; [|reflexivity].
      unfold size in E0. simpl in E0. lia.
Qed.

(** A string that starts with a character that is not whitespace splits
    into its trimmed part, which ends in such a character, and trailing
    whitespace. *)
Lemma trailing_split (x : ascii) (r : cstring) :
  isWhiteSpace x = false ->
  exists p y w,
    x :: r = p ++ y :: w /\
    rev (dropWhile isWhiteSpace (rev (x :: r))) = p ++ [y] /\
    isWhiteSpace y = false /\
    Forall (fun c => isWhiteSpace c = true) w.
Proof.
  intros Hx.
  pose proof (take_drop_while isWhiteSpace (rev (x :: r))) as Htd.
  destruct (dropWhile_head isWhiteSpace (rev (x :: r))) as [Hn | (y & l' & Hd & Hy)].
  - apply dropWhile_nil_all in Hn. rewrite Forall_forall in Hn.
    specialize (Hn x). rewrite Hx in Hn. exfalso.
    assert (false = true); [|discriminate]. apply Hn.
    apply list_elem_of_In, in_rev. rewrite rev_involutive. now left.
  - exists (rev l'), y, (rev (takeWhile isWhiteSpace (rev (x :: r)))).
    rewrite Hd in *. repeat split.
    + apply (f_equal (@rev ascii)) in Htd.
      rewrite rev_involutive, rev_app_distr in Htd.
      etransitivity; [symmetry; exact Htd|].
      cbn [rev]. rewrite <- app_assoc. reflexivity.
    + assumption.
    + apply Forall_rev, takeWhile_all.
Qed.

(** [stripWhitespace] returns, and what it returns is the trimmed string,
    except that a trimmed string of one character that was followed by
    whitespace comes back empty. *)
Lemma stripWhitespace_spec (oob : ascii) (str : cstring) :
  size str < npos ->
  exists r,
    stripWhitespace oob str = Ok r /\
    (r = trim str \/ (r = [] /\ length (trim str) = 1%nat)).
Proof.
  intros Hs. pose proof Hs as Hs'. rewrite npos_value in Hs'.
  rewrite ?trim_unfold. unfold stripWhitespace.
  destruct (leading_loop_whole oob str) as (e & -> & [[-> Hd] | (j & -> & Hj & Hd)]).
  { rewrite size_modulus_value. lia. }
  { exists []. split; [reflexivity|]. left. now rewrite Hd. }
  cbn [bind]. rewrite substr_tail by (assumption || lia). cbn [bind].
  rewrite Hd.
  assert (Hrem : size (dropWhile isWhiteSpace str) <= size str).
  { rewrite <- (take_drop_while isWhiteSpace str) at 2. autorewrite with size.
    pose proof (size_nonneg (takeWhile isWhiteSpace str)). lia. }
  destruct (dropWhile_head isWhiteSpace str) as [Hdw | (x & r & Hdw & Hx)];
    rewrite Hdw in *.
  - exists []. split; [|now left].
    change (wrap (size [] - 1)) with npos.
    change (at_ oob [] npos) with oob.
    simpl. destruct (isWhiteSpace oob); reflexivity.
  - destruct (trailing_split x r Hx) as (p & y & w & Heq & Htrim & Hy & Hw).
    rewrite Htrim. rewrite Heq in *.
    pose proof (size_nonneg p) as Hp. pose proof (size_nonneg w) as Hw0.
    autorewrite with size in Hrem.
    replace (wrap (size (p ++ y :: w) - 1)) with (size p + Z.of_nat (length w)).
    2:{ autorewrite with size. rewrite wrap_small; unfold size in *; try lia.
        rewrite size_modulus_value. lia. }
    rewrite trailing_loop_spec; try assumption; try lia.
    2:{ autorewrite with size. rewrite size_modulus_value. lia. }
    2:{ rewrite length_app. simpl. lia. }
    assert (Hfirst : substr (p ++ y :: w) 0 (wrap (size p + 1)) = Ok (p ++ [y])).
    { rewrite wrap_small by (rewrite size_modulus_value; lia).
      rewrite substr_head by (autorewrite with size; lia). f_equal.
      unfold size. replace (Z.to_nat (Z.of_nat (length p) + 1)) with (length p + 1)%nat by lia.
      rewrite firstn_app, firstn_all2 by lia.
      replace (length p + 1 - length p)%nat with 1%nat by lia. reflexivity. }
    destruct p as [|c p].
    + destruct w as [|c w].
      * exists [y]. split; [|now left]. simpl length. cbn [bind]. exact Hfirst.
      * exists []. split; [reflexivity|]. right. split; reflexivity.
    + exists ((c :: p) ++ [y]). split; [|now left]. cbn [bind].
      destruct (length w); exact Hfirst.
Qed.

(** The functions on small inputs. *)
Example lStripNewlines_blank_lines :
  lStripNewlines "000" (lit "
   #type vertex") = Ok (lit "#type vertex").
Proof. reflexivity. Qed.

Example stripWhitespace_padded :
  stripWhitespace "000" (lit "  tess-control  ") = Ok (lit "tess-control").
Proof. reflexivity. Qed.

Example stripWhitespace_empty (oob : ascii) : stripWhitespace oob [] = Ok [].
Proof.
  unfold stripWhitespace. simpl.
  change (at_ oob [] (wrap (size [] - 1))) with oob.
  destruct (isWhiteSpace oob); reflexivity.
Qed.

(** A single character followed by whitespace is lost: the loop of lines
    118-121 returns as soon as the index reaches zero. *)
Example stripWhitespace_one_character :
  stripWhitespace "000" (lit "v ") = Ok [] /\ trim (lit "v ") = lit "v".
Proof. split; reflexivity. Qed.

Example splitOnFirst_middle :
  splitOnFirst (lit "a=b=c") "="%char = Ok (lit "a", lit "b=c").
Proof. reflexivity. Qed.

Example splitOnFirst_leading :
  splitOnFirst (lit "=b") "="%char = Ok ([], lit "b").
Proof. reflexivity. Qed.

Example splitOnFirst_trailing :
  splitOnFirst (lit "a=") "="%char = Ok (lit "a", []).
Proof. reflexivity. Qed.

Example splitOnFirst_absent :
  splitOnFirst (lit "abc") "="%char = Ok (lit "abc", []).
Proof. reflexivity. Qed.

(** [splitAt] at index 0 of the empty string lets [substr] throw;
    [splitOnFirst] never asks for that. *)
Example splitAt_empty : splitAt [] 0 = Throw out_of_range.
Proof. reflexivity. Qed.

Lemma splitFirstLine_spec (text : cstring) :
  size text < npos ->
  splitFirstLine text = Ok (first_line text, after_first_line text).
Proof. intros Hs. unfold splitFirstLine. now rewrite splitOnFirst_cut. Qed.

Lemma blank_strip_size (text : cstring) : size (blank_strip text) <= size text.
Proof.
  rewrite ?blank_strip_unfold. rewrite <- (take_drop_while isWhiteSpace text) at 2.
  autorewrite with size. pose proof (size_nonneg (takeWhile isWhiteSpace text)). lia.
Qed.

Lemma first_line_size (text : cstring) : size (first_line text) <= size text.
Proof.
  unfold first_line. rewrite <- (take_drop_while (differs newline) text) at 2.
  autorewrite with size.
  pose proof (size_nonneg (dropWhile (differs newline) text)). lia.
Qed.

Lemma starts_with_spec (s p : cstring) :
  starts_with s p = true <-> exists X, s = p ++ X.
Proof.
  revert s. induction p as [|y p IH]; intros s; simpl.
  - split; [intros _; now exists s | reflexivity].
  - destruct s as [|x s].
    + split; [discriminate | intros [X HX]; discriminate].
    + rewrite andb_true_iff, Ascii.eqb_eq, IH. split.
      * intros [-> [X ->]]. now exists X.
      * intros [X HX]. inversion HX. eauto.
Qed.

(** C10: for every text and separator [c], [splitOnFirst] returns a pair
    [(a, b)]; when [c] occurs in the text, [a] is free of [c] and
    [a ++ c ++ b] is the text, the separator itself being consumed; when
    [c] does not occur, the pair is the text and the empty string. *)
Theorem splitOnFirst_correct (text : cstring) (c : ascii) :
  size text < npos ->
  exists a b,
    splitOnFirst text c = Ok (a, b) /\
    (In c text -> ~ In c a /\ a ++ c :: b = text) /\
    (~ In c text -> a = text /\ b = []).
Proof.
  intros Hs. rewrite splitOnFirst_cut by exact Hs.
  exists (takeWhile (differs c) text), (tl (dropWhile (differs c) text)).
  split; [reflexivity|].
  pose proof (take_drop_while (differs c) text) as Htd.
  pose proof (dropWhile_differs_head c text) as Hh.
  pose proof (takeWhile_differs_notin c text) as Hn.
  destruct (dropWhile (differs c) text) as [|x b]; simpl.
  - rewrite app_nil_r in Htd. split; [tauto | auto].
  - subst x. split; [auto|]. intros Hc. exfalso. apply Hc.
    rewrite <- Htd. apply in_or_app. right. now left.
Qed.

Lemma splitOnFirst_correct_witness :
  size (lit "uColor=red=1") < npos /\
  exists a b,
    splitOnFirst (lit "uColor=red=1") "="%char = Ok (a, b) /\
    (In "="%char (lit "uColor=red=1") ->
     ~ In "="%char a /\ a ++ "="%char :: b = lit "uColor=red=1") /\
    (~ In "="%char (lit "uColor=red=1") -> a = lit "uColor=red=1" /\ b = []).
Proof.
  split; [reflexivity|]. apply (splitOnFirst_correct (lit "uColor=red=1") "="%char).
  reflexivity.
Defined.

End TextFacts.

(** * Facts about shader sources *)

Module ShaderFacts.

Import Text Platform Game Spec TextFacts.

Local Open Scope Z_scope.

Lemma stage_name_long (g : stage) : (6 <= length (stage_name g))%nat.
Proof. destruct g; simpl; lia. Qed.

(** The six stage types are distinct constants. *)
Lemma stage_type_injective (g g' : stage) : stage_type g = stage_type g' -> g = g'.
Proof. destruct g, g'; intros H; try reflexivity; discriminate H. Qed.

Lemma sTypeFromName_cases (name : cstring) :
  (exists g, map tolower name = stage_name g /\
             sTypeFromName name = Ok (stage_type g)) \/
  ((forall g, map tolower name <> stage_name g) /\
   sTypeFromName name = Throw (unknown_type name)).
Proof.
  unfold sTypeFromName, s2lower.
  destruct (Text.eqb (map tolower name) (lit "vertex")) eqn:E1.
  { left. exists vertex. apply eqb_eq in E1. auto. }
  destruct (Text.eqb (map tolower name) (lit "fragment")) eqn:E2.
  { left. exists fragment. apply eqb_eq in E2. auto. }
  destruct (Text.eqb (map tolower name) (lit "compute")) eqn:E3.
  { left. exists compute. apply eqb_eq in E3. auto. }
  destruct (Text.eqb (map tolower name) (lit "geometry")) eqn:E4.
  { left. exists geometry. apply eqb_eq in E4. auto. }
  destruct (Text.eqb (map tolower name) (lit "tess-control")) eqn:E5.
  { left. exists tess_control. apply eqb_eq in E5. auto. }
  destruct (Text.eqb (map tolower name) (lit "tess-evaluation")) eqn:E6.
  { left. exists tess_evaluation. apply eqb_eq in E6. auto. }
  right. split; [|reflexivity].
  intros g Hg. apply eqb_eq in Hg.
  destruct g; cbn [stage_name] in Hg; congruence.
Qed.

Lemma sTypeFromName_known (name : cstring) (g : stage) :
  map tolower name = stage_name g -> sTypeFromName name = Ok (stage_type g).
Proof.
  intros Hg. destruct (sTypeFromName_cases name) as [(g' & Hg' & ->) | [Hno _]].
  - assert (g' = g) as ->; [|reflexivity].
    rewrite Hg in Hg'. destruct g, g'; simpl in Hg'; congruence.
  - now destruct (Hno g).
Qed.

Lemma fresh_name {T : Type} (m : gmap Z T) :
  fresh ({[0]} ∪ dom m) <> 0 /\ m !! fresh ({[0]} ∪ dom m) = None.
Proof.
  pose proof (is_fresh ({[0]} ∪ dom m)) as H. split.
  - set_solver.
  - apply not_elem_of_dom. set_solver.
Qed.

(** What the compile step leaves behind when it returns. *)
Lemma compileStage_spec (glsl_compiles : Z -> cstring -> bool) (path : cstring)
    (stype : Z) (src : cstring) (st : Platform.state) :
  compileStage glsl_compiles path stype src st =
  if glsl_compiles stype (c_str src) then
    Ok (fresh ({[0]} ∪ dom (shaders st)),
        emit_all [Call.CreateShader stype;
                  Call.ShaderSource (fresh ({[0]} ∪ dom (shaders st))) (c_str src);
                  Call.CompileShader (fresh ({[0]} ∪ dom (shaders st)));
                  Call.GetShaderiv (fresh ({[0]} ∪ dom (shaders st))) GL_COMPILE_STATUS]
          (set_shaders (<[fresh ({[0]} ∪ dom (shaders st)) :=
                            Shader stype (c_str src) true]> (shaders st)) st))
  else Throw (runtime_error (lit "Failed to compile shader " ++ path)).
Proof.
  unfold compileStage, glCreateShader.
  set (sh := fresh ({[0]} ∪ dom (shaders st))).
  unfold glShaderSource. cbn [shaders emit set_shaders].
  rewrite lookup_insert_eq. cbn [sh_type].
  unfold glCompileShader. cbn [shaders emit set_shaders].
  rewrite lookup_insert_eq. cbn [sh_type sh_source].
  unfold glGetShaderiv_COMPILE_STATUS. cbn [shaders emit set_shaders].
  rewrite lookup_insert_eq. cbn [sh_compiled].
  destruct (glsl_compiles stype (c_str src)); [|reflexivity].
  cbn [Z.eqb]. rewrite !insert_insert_eq. reflexivity.
Qed.

(** ** Headers, as text *)

Lemma blanks_blank (s : cstring) : blanks s <-> Forall (fun c => blank c = true) s.
Proof.
  unfold blanks. split; intros H; eapply Forall_impl; try exact H;
    intros c Hc; now apply blank_In.
Qed.

Lemma blank_tolower (c : ascii) : In c whitespace -> tolower c = c.
Proof. intros [<- | [<- | [<- | [<- | []]]]]; reflexivity. Qed.

Lemma stage_name_not_blank (g : stage) :
  Forall (fun c => blank c = false) (stage_name g).
Proof. destruct g; repeat (constructor; [reflexivity|]); constructor. Qed.

(** A name of a stage, in whatever letter case, holds no whitespace. *)
Lemma name_not_blank (name : cstring) (g : stage) :
  map tolower name = stage_name g -> Forall (fun c => blank c = false) name.
Proof.
  intros H. pose proof (stage_name_not_blank g) as F. rewrite <- H in F. clear H.
  induction name as [|a name IH]; [constructor|].
  cbn [map] in F. apply Forall_cons in F. destruct F as [Ha F].
  constructor; [|exact (IH F)].
  destruct (blank a) eqn:E; [|reflexivity].
  apply blank_In in E. rewrite (blank_tolower a E) in Ha.
  apply blank_In in E. congruence.
Qed.

Lemma notin_differs (c : ascii) (s : cstring) :
  ~ In c s -> Forall (fun x => differs c x = true) s.
Proof.
  induction s as [|x s IH]; intros H; constructor.
  - unfold differs. apply negb_true_iff. apply Ascii.eqb_neq.
    intros ->. apply H. now left.
  - apply IH. intros Hin. apply H. now right.
Qed.

Lemma takeWhile_app_stop {A : Type} (p : A -> bool) (a b : list A) :
  Forall (fun x => p x = true) a ->
  (b = [] \/ exists y b', b = y :: b' /\ p y = false) ->
  takeWhile p (a ++ b) = a /\ dropWhile p (a ++ b) = b.
Proof.
  intros Ha Hb. induction Ha as [|x a Hx _ IH].
  - cbn [app]. destruct Hb as [-> | (y & b' & -> & Hy)]; [split; reflexivity|].
    simpl. rewrite Hy. split; reflexivity.
  - cbn [app takeWhile dropWhile]. rewrite Hx. destruct IH as [-> ->].
    split; reflexivity.
Qed.

(** Trimming takes the whitespace off both ends of a text that holds none
    inside. *)
Lemma trim_core (pad name trail : cstring) :
  blanks pad -> blanks trail -> Forall (fun c => blank c = false) name ->
  trim (pad ++ name ++ trail) = name.
Proof.
  intros Hp Ht Hn. apply blanks_blank in Hp. apply blanks_blank in Ht.
  unfold trim. rewrite dropWhile_app_all by exact Hp.
  destruct name as [|x name].
  - cbn [app]. rewrite (dropWhile_all blank trail Ht). reflexivity.
  - pose proof Hn as Hn'. apply Forall_cons in Hn'. destruct Hn' as [Hx _].
    change ((x :: name) ++ trail) with (x :: (name ++ trail)).
    rewrite dropWhile_stop by exact Hx.
    change (x :: (name ++ trail)) with ((x :: name) ++ trail).
    rewrite rev_app_distr.
    rewrite dropWhile_app_all by (apply List.Forall_rev; exact Ht).
    pose proof (List.Forall_rev Hn) as Hr.
    destruct (rev (x :: name)) as [|y l] eqn:E.
    + apply (f_equal (@length ascii)) in E. rewrite length_rev in E. discriminate E.
    + apply Forall_cons in Hr. destruct Hr as [Hy _].
      rewrite dropWhile_stop by exact Hy. rewrite <- E. apply rev_involutive.
Qed.

(** Every text is its whitespace, what trimming leaves, and whitespace
    again. *)
Lemma trim_split (X : cstring) :
  X = takeWhile blank X ++ trim X ++ rev (takeWhile blank (rev (dropWhile blank X))).
Proof.
  unfold trim. rewrite <- rev_app_distr, take_drop_while, rev_involutive.
  symmetry. apply take_drop_while.
Qed.

(** The two ways of saying that a text starts with the header of a stage:
    as what the text is made of, and as the first line of what is left of
    it without its leading whitespace. *)
Lemma shader_source_header (text : cstring) (g : stage) (body : cstring) :
  shader_source text g body ->
  header_of (first_line (blank_strip text)) g /\
  after_first_line (blank_strip text) = body.
Proof.
  intros (lead & pad & name & trail & Hlead & Hpad & Htrail & Hnp & Hnt & Hname & Htext).
  set (line := lit "#type " ++ pad ++ name ++ trail).
  assert (Hstrip : forall tail, blank_strip (lead ++ line ++ tail) = line ++ tail).
  { intros tail. unfold blank_strip.
    rewrite dropWhile_app_all by (now apply blanks_blank). reflexivity. }
  assert (Hline : Forall (fun x => differs newline x = true) line).
  { apply notin_differs. unfold line. rewrite !in_app_iff.
    intros [H | [H | [H | H]]].
    - simpl in H. intuition discriminate.
    - now apply Hnp.
    - pose proof (name_not_blank name g Hname) as F.
      rewrite Forall_forall in F. specialize (F newline (proj2 (list_elem_of_In _ _) H)).
      discriminate F.
    - now apply Hnt. }
  assert (HX : names_stage (pad ++ name ++ trail) g).
  { unfold names_stage. rewrite trim_core; auto. now apply (name_not_blank name g). }
  assert (Hhead : header_of line g).
  { exists (pad ++ name ++ trail). split; [reflexivity | exact HX]. }
  destruct Htext as [Htext | [Htext ->]].
  - assert (text = lead ++ line ++ newline :: body) as ->.
    { rewrite Htext. unfold line. now rewrite <- !app_assoc. }
    rewrite Hstrip. unfold first_line, after_first_line.
    destruct (takeWhile_app_stop (differs newline) line (newline :: body) Hline)
      as [-> ->].
    { right. exists newline, body. split; reflexivity. }
    split; [exact Hhead | reflexivity].
  - assert (text = lead ++ line ++ []) as ->.
    { rewrite Htext. unfold line. now rewrite <- !app_assoc, app_nil_r. }
    rewrite Hstrip. unfold first_line, after_first_line.
    destruct (takeWhile_app_stop (differs newline) line [] Hline) as [-> ->].
    { now left. }
    split; [exact Hhead | reflexivity].
Qed.

Lemma header_shader_source (text : cstring) (g : stage) :
  header_of (first_line (blank_strip text)) g ->
  shader_source text g (after_first_line (blank_strip text)).
Proof.
  intros (X & Hl & Hg). unfold names_stage in Hg.
  pose proof (takeWhile_differs_notin newline (blank_strip text)) as Hnl.
  fold (first_line (blank_strip text)) in Hnl. rewrite Hl in Hnl.
  pose proof (trim_split X) as HX.
  set (pad := takeWhile blank X) in *.
  set (trail := rev (takeWhile blank (rev (dropWhile blank X)))) in *.
  assert (Hnp : ~ In newline pad).
  { intros H. apply Hnl. rewrite HX, !in_app_iff. auto. }
  assert (Hnt : ~ In newline trail).
  { intros H. apply Hnl. rewrite HX, !in_app_iff. auto. }
  exists (takeWhile blank text), pad, (trim X), trail.
  split; [apply blanks_blank, takeWhile_all|].
  split; [apply blanks_blank, takeWhile_all|].
  split; [apply blanks_blank, List.Forall_rev, takeWhile_all|].
  split; [exact Hnp|]. split; [exact Hnt|]. split; [exact Hg|].
  pose proof (take_drop_while blank text) as Htext.
  fold (blank_strip text) in Htext.
  pose proof (take_drop_while (differs newline) (blank_strip text)) as Hs.
  fold (first_line (blank_strip text)) in Hs. rewrite Hl in Hs.
  pose proof (dropWhile_differs_head newline (blank_strip text)) as Hd.
  unfold after_first_line.
  destruct (dropWhile (differs newline) (blank_strip text)) as [|x rest].
  - right. split; [|reflexivity].
    rewrite <- Htext at 1. rewrite <- Hs, app_nil_r. rewrite HX at 1.
    now rewrite <- ?app_assoc.
  - left. subst x. cbn [tl].
    rewrite <- Htext at 1. rewrite <- Hs. rewrite HX at 1.
    now rewrite <- ?app_assoc.
Qed.

(** ** The body, as the driver sees it *)

Lemma c_str_whole (s : cstring) : ~ In NUL s -> c_str s = s.
Proof.
  unfold c_str. induction s as [|x s IH]; intros H; simpl; [reflexivity|].
  destruct (Ascii.eqb x NUL) eqn:E.
  - apply Ascii.eqb_eq in E. subst x. exfalso. apply H. now left.
  - simpl. rewrite IH; [reflexivity|]. intros Hin. apply H. now right.
Qed.

Lemma c_str_stops (a b : cstring) : c_str (a ++ NUL :: b) = c_str a.
Proof.
  unfold c_str. induction a as [|x a IH]; simpl; [reflexivity|].
  destruct (Ascii.eqb x NUL); simpl; [reflexivity | now rewrite IH].
Qed.

Lemma cut_at_zero_c_str (body src : cstring) : cut_at_zero body src -> c_str body = src.
Proof.
  intros [[Hno ->] | (rest & -> & Hno)].
  - now apply c_str_whole.
  - rewrite c_str_stops. now apply c_str_whole.
Qed.

Lemma c_str_cut_at_zero (body : cstring) : cut_at_zero body (c_str body).
Proof.
  unfold c_str. induction body as [|x body IH].
  - left. split; [intros [] | reflexivity].
  - simpl. destruct (Ascii.eqb x NUL) eqn:E; simpl.
    + apply Ascii.eqb_eq in E. subst x. right. exists body. split; [reflexivity|].
      intros [].
    + apply Ascii.eqb_neq in E.
      destruct IH as [[Hno Heq] | (rest & Heq & Hno)].
      * left. rewrite Heq. split; [|reflexivity]. intros [H | H]; [now apply E|].
        now apply Hno.
      * right. exists rest. split; [now rewrite Heq at 1|].
        intros [H | H]; [now apply E | now apply Hno].
Qed.

Section Header.

Variable oob : ascii.
Variable readFile : cstring -> cstring.
Variable glsl_compiles : Z -> cstring -> bool.

(** What [createShader] does once the first line is known to start with
    [#type ]. *)
Lemma createShader_typed (path X : cstring) (st : state) :
  size (readFile path) < npos ->
  first_line (blank_strip (readFile path)) = lit "#type " ++ X ->
  exists r,
    (r = trim X \/ (r = [] /\ length (trim X) = 1%nat)) /\
    createShader oob readFile glsl_compiles path st =
    (do stype <- sTypeFromName r;
     compileStage glsl_compiles path stype
                  (after_first_line (blank_strip (readFile path))) st).
Proof.
  intros Hs Hl.
  pose proof (blank_strip_size (readFile path)) as Hb.
  pose proof (first_line_size (blank_strip (readFile path))) as Hf.
  assert (HX : size X < npos).
  { rewrite Hl in Hf. autorewrite with size in Hf.
    pose proof (size_nonneg (lit "#type ")). lia. }
  destruct (stripWhitespace_spec oob X HX) as (r & Hr & Hcase).
  exists r. split; [exact Hcase|].
  unfold createShader. rewrite lStripNewlines_spec by exact Hs. cbn [bind].
  rewrite splitFirstLine_spec by lia. cbn [bind]. rewrite Hl.
  assert (starts_with (lit "#type " ++ X) (lit "#type ") = true) as ->.
  { apply starts_with_spec. now exists X. }
  cbn [negb].
  rewrite substr_tail.
  - change (drop (Z.to_nat 6) (lit "#type " ++ X)) with X. cbn [bind].
    rewrite Hr. reflexivity.
  - autorewrite with size. change (size (lit "#type ")) with 6.
    pose proof (size_nonneg X). lia.
  - rewrite Hl in Hf. lia.
Qed.

(** [createShader] either finds the header of a stage on the first line
    and goes on to compile the rest for that stage, or finds none and
    throws one of the two header errors. *)
Lemma createShader_cases (path : cstring) (st : state) :
  size (readFile path) < npos ->
  (exists g,
     header_of (first_line (blank_strip (readFile path))) g /\
     createShader oob readFile glsl_compiles path st =
     compileStage glsl_compiles path (stage_type g)
                  (after_first_line (blank_strip (readFile path))) st) \/
  ((forall g, ~ header_of (first_line (blank_strip (readFile path))) g) /\
   (createShader oob readFile glsl_compiles path st = Throw (malformed_header path) \/
    exists name,
      createShader oob readFile glsl_compiles path st = Throw (unknown_type name))).
Proof.
  intros Hs.
  destruct (starts_with (first_line (blank_strip (readFile path))) (lit "#type "))
    eqn:Esw.
  - apply starts_with_spec in Esw. destruct Esw as [X Hl].
    destruct (createShader_typed path X st Hs Hl) as (r & Hr & Hrun).
    destruct (sTypeFromName_cases r) as [(g & Hg & Hty) | [Hno Hty]].
    + left. exists g. rewrite Hrun, Hty. cbn [bind]. split; [|reflexivity].
      exists X. split; [exact Hl|]. unfold names_stage.
      destruct Hr as [-> | [-> _]]; [exact Hg|]. destruct g; discriminate Hg.
    + right. rewrite Hrun, Hty. cbn [bind]. split; [|right; now exists r].
      intros g (X' & Hl' & Hg'). unfold names_stage in Hg'.
      rewrite Hl in Hl'. apply app_inv_head in Hl'. subst X'.
      destruct Hr as [-> | [-> Hone]]; [now apply (Hno g)|].
      pose proof (stage_name_long g) as Hlong.
      rewrite <- Hg', length_map, Hone in Hlong. lia.
  - right. assert (Hrun : createShader oob readFile glsl_compiles path st =
                          Throw (malformed_header path)).
    { unfold createShader. rewrite lStripNewlines_spec by exact Hs. cbn [bind].
      pose proof (blank_strip_size (readFile path)).
      rewrite splitFirstLine_spec by lia. cbn [bind]. now rewrite Esw. }
    split; [|now left].
    intros g (X & Hl & _).
    assert (starts_with (first_line (blank_strip (readFile path))) (lit "#type ") = true)
      as Ht by (apply starts_with_spec; now exists X).
    congruence.
Qed.

(** C4: a source that has, after leading whitespace, the first line
    [#type X], with [X] the name of one of the six stages in any letter
    case and with whitespace around it, is handed to the driver with the
    type of that stage and with what follows the line as its body, up to
    the first zero byte when there is one: [createShader] returns the new
    compiled shader, or throws the compile error when the driver rejects
    the body.  With any other first line, that of the empty file included,
    [createShader] raises the malformed-header or the unknown-type error
    and returns no shader. *)
Theorem createShader_header (path : cstring) (st : state) :
  size (readFile path) < npos ->
  (forall g body src,
     shader_source (readFile path) g body ->
     cut_at_zero body src ->
     match createShader oob readFile glsl_compiles path st with
     | Ok (sh, st') =>
         glsl_compiles (stage_type g) src = true /\
         sh <> 0 /\ shaders st !! sh = None /\
         shaders st' = <[sh := Shader (stage_type g) src true]> (shaders st) /\
         log st' = log st ++ [Call.CreateShader (stage_type g); Call.ShaderSource sh src;
                              Call.CompileShader sh;
                              Call.GetShaderiv sh GL_COMPILE_STATUS]
     | Throw e =>
         glsl_compiles (stage_type g) src = false /\
         e = runtime_error (lit "Failed to compile shader " ++ path)
     | _ => False
     end) /\
  ((forall g body, ~ shader_source (readFile path) g body) ->
   createShader oob readFile glsl_compiles path st = Throw (malformed_header path) \/
   exists name,
     createShader oob readFile glsl_compiles path st = Throw (unknown_type name)).
Proof.
  intros Hs. destruct (createShader_cases path st Hs) as [(g' & Hh & Hrun) | [Hno Hrun]].
  - split.
    + intros g body src Hsrc Hcut.
      destruct (shader_source_header _ g body Hsrc) as [(X & Hl & Hg) Hbody].
      destruct Hh as (X' & Hl' & Hg').
      rewrite Hl in Hl'. apply app_inv_head in Hl'. subst X'.
      unfold names_stage in Hg, Hg'. rewrite Hg in Hg'.
      assert (g' = g) as -> by (destruct g, g'; simpl in Hg'; congruence).
      rewrite Hrun, Hbody, compileStage_spec, (cut_at_zero_c_str body src Hcut).
      destruct (glsl_compiles (stage_type g) src); [|split; reflexivity].
      destruct (fresh_name (shaders st)) as [Hne Hnone].
      split; [reflexivity|]. split; [exact Hne|]. split; [exact Hnone|].
      split; [reflexivity|]. cbn. now rewrite <- !app_assoc.
    + intros Hnone. exfalso.
      apply (Hnone g' (after_first_line (blank_strip (readFile path)))).
      now apply header_shader_source.
  - split; [|intros _; exact Hrun].
    intros g body src Hsrc _. exfalso.
    destruct (shader_source_header _ g body Hsrc) as [Hh _]. now apply (Hno g).
Qed.

End Header.

(** [createShader] on the repository's own [test.glsl], and on some other
    first lines. *)
Example createShader_test_glsl :
  createShader "000" Fixtures.files Fixtures.accepts (lit "test.glsl") Fixtures.no_calls =
  compileStage Fixtures.accepts (lit "test.glsl") GL_FRAGMENT_SHADER
    (lit "#version 430 core

uniform vec4 uColor;
") Fixtures.no_calls.
Proof. reflexivity. Qed.

Example createShader_mixed_case :
  match createShader "000"
          (fun _ => lit "  #type   Tess-Evaluation " ++ ["013"; "010"]%char ++ lit "void main() {}")
          Fixtures.accepts (lit "t.glsl") Fixtures.no_calls with
  | Ok (sh, st) =>
      log st = [Call.CreateShader GL_TESS_EVALUATION_SHADER;
                Call.ShaderSource sh (lit "void main() {}");
                Call.CompileShader sh;
                Call.GetShaderiv sh GL_COMPILE_STATUS]
  | _ => False
  end.
Proof. vm_compute. reflexivity. Qed.

Example createShader_tab_after_type :
  createShader "000" (fun _ => lit "#type" ++ ["009"%char] ++ lit "vertex")
               Fixtures.accepts (lit "t.glsl") Fixtures.no_calls
  = Throw (malformed_header (lit "t.glsl")).
Proof. reflexivity. Qed.

Example createShader_unknown_name :
  createShader "000" (fun _ => lit "#type pixel") Fixtures.accepts (lit "t.glsl")
               Fixtures.no_calls
  = Throw (unknown_type (lit "pixel")).
Proof. reflexivity. Qed.

Example createShader_empty_file :
  createShader "000" (fun _ => []) Fixtures.accepts (lit "t.glsl") Fixtures.no_calls
  = Throw (malformed_header (lit "t.glsl")).
Proof. reflexivity. Qed.

Example createShader_rejected_by_driver :
  createShader "000" Fixtures.files (fun _ _ => false) (lit "test.glsl") Fixtures.no_calls
  = Throw (runtime_error (lit "Failed to compile shader test.glsl")).
Proof. vm_compute. reflexivity. Qed.

(** The repository's [test.glsl] is a source of the fragment stage. *)
Example test_glsl_fragment_source :
  shader_source Fixtures.test_glsl fragment
    (lit "#version 430 core

uniform vec4 uColor;
").
Proof.
  exists [], [], (lit "fragment"), [].
  split; [constructor|]. split; [constructor|]. split; [constructor|].
  split; [intros []|]. split; [intros []|]. split; [reflexivity|].
  left. reflexivity.
Qed.

(** C4, on a file with a zero byte in its body: the file has the header
    of the vertex stage, and what follows the header line is [A], a zero
    byte and [B]; the shader that [createShader] returns has the source
    [A], which is not everything after the line. *)
Lemma createShader_body_cut_at_zero_byte :
  shader_source (lit "#type vertex" ++ [newline] ++ lit "A" ++ [NUL] ++ lit "B") vertex
                (lit "A" ++ NUL :: lit "B") /\
  exists sh st' o,
    createShader "000"
      (fun _ => lit "#type vertex" ++ [newline] ++ lit "A" ++ [NUL] ++ lit "B")
      Fixtures.accepts (lit "t.glsl") Fixtures.no_calls = Ok (sh, st') /\
    shaders st' !! sh = Some o /\
    sh_type o = GL_VERTEX_SHADER /\
    sh_source o = lit "A" /\
    sh_source o <> lit "A" ++ NUL :: lit "B".
Proof.
  split.
  - exists [], [], (lit "vertex"), [].
    split; [constructor|]. split; [constructor|]. split; [constructor|].
    split; [intros []|]. split; [intros []|]. split; [reflexivity|].
    left. reflexivity.
  - eexists _, _, _. split; [vm_compute; reflexivity|].
    split; [vm_compute; reflexivity|].
    split; [reflexivity|]. split; [reflexivity|]. discriminate.
Qed.

Lemma createShader_header_witness :
  size (Fixtures.files (lit "test.glsl")) < npos /\
  ((forall g body src,
      shader_source (Fixtures.files (lit "test.glsl")) g body ->
      cut_at_zero body src ->
      match createShader "000" Fixtures.files Fixtures.accepts (lit "test.glsl")
                         Fixtures.no_calls with
      | Ok (sh, st') =>
          Fixtures.accepts (stage_type g) src = true /\
          sh <> 0 /\ shaders Fixtures.no_calls !! sh = None /\
          shaders st' = <[sh := Shader (stage_type g) src true]>
                          (shaders Fixtures.no_calls) /\
          log st' = log Fixtures.no_calls ++
                    [Call.CreateShader (stage_type g); Call.ShaderSource sh src;
                     Call.CompileShader sh; Call.GetShaderiv sh GL_COMPILE_STATUS]
      | Throw e =>
          Fixtures.accepts (stage_type g) src = false /\
          e = runtime_error (lit "Failed to compile shader " ++ lit "test.glsl")
      | _ => False
      end) /\
   ((forall g body, ~ shader_source (Fixtures.files (lit "test.glsl")) g body) ->
    createShader "000" Fixtures.files Fixtures.accepts (lit "test.glsl")
                 Fixtures.no_calls = Throw (malformed_header (lit "test.glsl")) \/
    exists name,
      createShader "000" Fixtures.files Fixtures.accepts (lit "test.glsl")
                   Fixtures.no_calls = Throw (unknown_type name))).
Proof.
  split; [reflexivity|].
  apply (createShader_header "000" Fixtures.files Fixtures.accepts (lit "test.glsl")
           Fixtures.no_calls).
  reflexivity.
Defined.

End ShaderFacts.

(** * Facts about matrices *)

Module GlmFacts.

Import Glm.

Local Open Scope R_scope.

(** Two vectors or matrices are equal when their entries are. *)
Lemma V3_eq (a b c a' b' c' : R) :
  a = a' -> b = b' -> c = c' -> V3 a b c = V3 a' b' c'.
Proof. now intros -> -> ->. Qed.

Lemma V4_eq (a b c d a' b' c' d' : R) :
  a = a' -> b = b' -> c = c' -> d = d' -> V4 a b c d = V4 a' b' c' d'.
Proof. now intros -> -> -> ->. Qed.

Lemma Quat_eq (a b c d a' b' c' d' : R) :
  a = a' -> b = b' -> c = c' -> d = d' -> Quat a b c d = Quat a' b' c' d'.
Proof. now intros -> -> -> ->. Qed.

Lemma Mat4_eq (a b c d a' b' c' d' : vec4) :
  a = a' -> b = b' -> c = c' -> d = d' -> Mat4 a b c d = Mat4 a' b' c' d'.
Proof. now intros -> -> -> ->. Qed.

Ltac entries :=
  cbv [mul_mm mul_mv translate scale toMat4 identity translation_matrix
       scaling_matrix rotation_matrix add4 muls4 add3 sub3 neg3 smul3 muls3
       mul_qq mul_qv3 cross conjugate dot qdiv inverse rotate
       vec3_of_vec4 vec4_of_vec3
       col0 col1 col2 col3 x4 y4 z4 w4 x3 y3 z3 qw qx qy qz];
  repeat (apply Mat4_eq || apply V4_eq || apply V3_eq || apply Quat_eq).

Ltac entrywise := entries; ring.

(** [glm::translate] and [glm::scale] multiply on the right. *)
Lemma translate_right (m : mat4) (v : vec3) :
  translate m v = mul_mm m (translation_matrix v).
Proof. destruct m as [[] [] [] []], v. entrywise. Qed.

Lemma scale_right (m : mat4) (v : vec3) :
  scale m v = mul_mm m (scaling_matrix v).
Proof. destruct m as [[] [] [] []], v. entrywise. Qed.

Lemma mul_mm_identity_l (m : mat4) : mul_mm identity m = m.
Proof. destruct m as [[] [] [] []]. entrywise. Qed.

Lemma mul_mm_identity_r (m : mat4) : mul_mm m identity = m.
Proof. destruct m as [[] [] [] []]. entrywise. Qed.

Lemma mul_mm_assoc (a b c : mat4) : mul_mm (mul_mm a b) c = mul_mm a (mul_mm b c).
Proof.
  destruct a as [[] [] [] []], b as [[] [] [] []], c as [[] [] [] []]. entrywise.
Qed.

(** Applying a product is applying its factors from right to left. *)
Lemma mul_mm_apply (a b : mat4) (v : vec4) :
  mul_mv (mul_mm a b) v = mul_mv a (mul_mv b v).
Proof. destruct a as [[] [] [] []], b as [[] [] [] []], v. entrywise. Qed.

Lemma translate_identity (v : vec3) : translate identity v = translation_matrix v.
Proof. rewrite translate_right. apply mul_mm_identity_l. Qed.

Lemma scale_identity (v : vec3) : scale identity v = scaling_matrix v.
Proof. rewrite scale_right. apply mul_mm_identity_l. Qed.

(** Translating moves a point and leaves a direction alone; scaling
    multiplies the coordinates. *)
Lemma translation_apply (p : vec3) (v : vec4) :
  mul_mv (translation_matrix p) v =
  V4 (x4 v + x3 p * w4 v) (y4 v + y3 p * w4 v) (z4 v + z3 p * w4 v) (w4 v).
Proof. destruct p, v. entrywise. Qed.

Lemma scaling_apply (s : vec3) (v : vec4) :
  mul_mv (scaling_matrix s) v = V4 (x3 s * x4 v) (y3 s * y4 v) (z3 s * z4 v) (w4 v).
Proof. destruct s, v. entrywise. Qed.

End GlmFacts.

(** * Facts about model and view-projection matrices *)

Module MatrixFacts.

Import Glm Game GlmFacts.

Local Open Scope R_scope.

(** The model matrix is the product rotation, scale, translation, in that
    order from the left. *)
Lemma createModelMatrix_product (t : Transform) :
  createModelMatrix t =
  mul_mm (rotation_matrix (t_rotation t))
         (mul_mm (scaling_matrix (t_scale t)) (translation_matrix (t_position t))).
Proof.
  unfold createModelMatrix, rotate_m4, rotation_matrix.
  rewrite translate_right, scale_identity. apply mul_mm_assoc.
Qed.

(** Applied to a vector, the model matrix translates first, then scales,
    then rotates. *)
Lemma createModelMatrix_apply (t : Transform) (v : vec4) :
  mul_mv (createModelMatrix t) v =
  mul_mv (rotation_matrix (t_rotation t))
         (mul_mv (scaling_matrix (t_scale t))
                 (mul_mv (translation_matrix (t_position t)) v)).
Proof. rewrite createModelMatrix_product. now rewrite !mul_mm_apply. Qed.

(** C1, at a transform that is moved by [(1, 0, 0)] and scaled by 2: the
    order scale, rotate, translate puts the object's origin at
    [(1, 0, 0)], and the model matrix puts it at [(2, 0, 0)], because it
    scales the position too. *)
Theorem createModelMatrix_scales_position :
  mul_mv (translation_matrix (t_position Fixtures.moved_and_scaled))
         (mul_mv (rotation_matrix (t_rotation Fixtures.moved_and_scaled))
                 (mul_mv (scaling_matrix (t_scale Fixtures.moved_and_scaled))
                         (V4 0 0 0 1))) = V4 1 0 0 1 /\
  mul_mv (createModelMatrix Fixtures.moved_and_scaled) (V4 0 0 0 1) = V4 2 0 0 1.
Proof.
  split.
  - cbv [Fixtures.moved_and_scaled t_position t_rotation t_scale]. entrywise.
  - cbv [Fixtures.moved_and_scaled createModelMatrix rotate_m4 t_position t_rotation
         t_scale]. entrywise.
Qed.

(** The projection matrix, entry by entry: the tangent of half of 90
    degrees is 1. *)
Lemma pMatrix_entries :
  pMatrix =
  Mat4 (V4 1 0 0 0) (V4 0 1 0 0)
       (V4 0 0 (- (100 + 0.1) / (100 - 0.1)) (- 1))
       (V4 0 0 (- (2 * 100 * 0.1) / (100 - 0.1)) 0).
Proof.
  unfold pMatrix, perspective, radians.
  replace (90 * (PI / 180) / 2) with (PI / 4) by field.
  rewrite tan_PI4. repeat (apply Mat4_eq || apply V4_eq); lra.
Qed.

(** C7: the view-projection matrix of a camera is the product of the
    projection matrix, the rotation by the look direction and the
    translation by the negated position, where the projection matrix is
    the perspective projection with a 90 degree vertical field of view,
    aspect ratio 1, near plane 0.1 and far plane 100. *)
Theorem calcVPMatrix_product (camera : Camera) :
  calcVPMatrix camera =
  mul_mm (mul_mm pMatrix (rotation_matrix (lookDirection camera)))
         (translation_matrix (neg3 (cam_position camera))) /\
  pMatrix = perspective (radians 90) 1 0.1 100 /\
  pMatrix =
  Mat4 (V4 1 0 0 0) (V4 0 1 0 0)
       (V4 0 0 (- (100 + 0.1) / (100 - 0.1)) (- 1))
       (V4 0 0 (- (2 * 100 * 0.1) / (100 - 0.1)) 0).
Proof.
  split; [|split; [reflexivity | exact pMatrix_entries]].
  unfold calcVPMatrix, rotation_matrix. rewrite translate_right.
  symmetry. apply mul_mm_assoc.
Qed.

End MatrixFacts.

(** * Facts about the camera update *)

Module CameraFacts.

Import Text Glm Platform Game Spec GlmFacts.

Local Open Scope Z_scope.

(** [updateCamera] asks for the ten keys in order and steers the camera by
    the key state of the latest poll. *)
Lemma updateCamera_steer (key_input : nat -> Z -> Z) (camera : Camera) (st : state) :
  updateCamera key_input camera st =
  (steer (key_input (polls st)) camera, after_key_queries st).
Proof. reflexivity. Qed.

Lemma after_key_queries_log (st : state) :
  log (after_key_queries st) = log st ++ map Call.GetKey camera_keys.
Proof.
  unfold after_key_queries. simpl. now rewrite <- !app_assoc.
Qed.

Lemma emit_all_app (a b : list Call.t) (st : state) :
  emit_all (a ++ b) st = emit_all b (emit_all a st).
Proof. apply fold_left_app. Qed.

Lemma emit_all_log (cs : list Call.t) (st : state) :
  log (emit_all cs st) = log st ++ cs.
Proof.
  revert st. induction cs as [|c cs IH]; intros st; simpl.
  - now rewrite app_nil_r.
  - change (fold_left (fun s c => emit c s) cs (emit c st)) with (emit_all cs (emit c st)).
    rewrite IH. simpl. now rewrite <- app_assoc.
Qed.

Lemma emit_all_polls (cs : list Call.t) (st : state) :
  polls (emit_all cs st) = polls st.
Proof.
  revert st. induction cs as [|c cs IH]; intros st; simpl; [reflexivity|].
  change (fold_left (fun s c => emit c s) cs (emit c st)) with (emit_all cs (emit c st)).
  now rewrite IH.
Qed.

Lemma after_key_queries_polls (st : state) : polls (after_key_queries st) = polls st.
Proof. reflexivity. Qed.

Lemma when_held_off (keys : Z -> Z) (key : Z) (f : Camera -> Camera) (c : Camera) :
  keys key = 0 -> when_held keys key f c = c.
Proof. intros H. unfold when_held. now rewrite H. Qed.

Lemma when_held_on (keys : Z -> Z) (key : Z) (f : Camera -> Camera) (c : Camera) :
  keys key <> 0 -> when_held keys key f c = f c.
Proof.
  intros H. unfold when_held. destruct (keys key =? 0) eqn:E; [lia | reflexivity].
Qed.

Lemma steer_idle (keys : Z -> Z) (camera : Camera) :
  (forall k, In k camera_keys -> keys k = 0) -> steer keys camera = camera.
Proof.
  intros H. unfold steer.
  rewrite !when_held_off; try reflexivity; apply H; simpl; tauto.
Qed.

(** C9: when none of the ten movement and rotation keys is reported held,
    [updateCamera] leaves the camera as it was, position and look
    direction both. *)
Theorem updateCamera_idle (key_input : nat -> Z -> Z) (camera : Camera) (st : state) :
  (forall k, In k camera_keys -> key_input (polls st) k = 0) ->
  fst (updateCamera key_input camera st) = camera.
Proof. intros H. rewrite updateCamera_steer. simpl. now apply steer_idle. Qed.

Lemma updateCamera_idle_witness :
  (forall k, In k camera_keys -> Fixtures.no_keys (polls Fixtures.no_calls) k = 0) /\
  fst (updateCamera Fixtures.no_keys Fixtures.start_camera Fixtures.no_calls)
  = Fixtures.start_camera.
Proof.
  split; [reflexivity|].
  apply (updateCamera_idle Fixtures.no_keys Fixtures.start_camera Fixtures.no_calls).
  reflexivity.
Defined.

(** With a single movement key held, the position moves by that key's
    step and the look direction stays. *)
Lemma steer_single_key (keys : Z -> Z) (key : Z) (camera : Camera) :
  In key movement_keys ->
  (forall k, In k camera_keys -> keys k <> 0 <-> k = key) ->
  steer keys camera =
  mkCamera (add3 (cam_position camera) (displacement key camera)) (lookDirection camera).
Proof.
  intros Hkey Honly. unfold steer.
  assert (Hoff : forall k, In k camera_keys -> k <> key -> keys k = 0).
  { intros k Hk Hne. destruct (Z.eq_dec (keys k) 0) as [E|E]; [exact E|].
    apply Honly in E; [contradiction | exact Hk]. }
  assert (Hon : keys key <> 0).
  { apply Honly; [|reflexivity].
    simpl in Hkey. simpl. tauto. }
  destruct camera as [[px py pz] q].
  simpl in Hkey.
  destruct Hkey as [<-|[<-|[<-|[<-|[<-|[<-|[]]]]]]];
    rewrite (when_held_on keys _ _ _ Hon);
    rewrite !when_held_off by (apply Hoff; [simpl; tauto | discriminate]);
    cbv [displacement move move_back cam_position lookDirection Z.eqb Pos.eqb
         GLFW_KEY_W GLFW_KEY_A GLFW_KEY_S GLFW_KEY_D GLFW_KEY_Q GLFW_KEY_E];
    f_equal; destruct (forward_of _), (right_of _), (up_of _);
    cbv [horizontal add3 sub3 neg3 smul3 x3 y3 z3]; apply V3_eq; ring.
Qed.

Local Open Scope R_scope.

Lemma rolled_camera_right :
  right_of Fixtures.rolled_camera = V3 (-0.28) (-0.96) 0.
Proof.
  cbv [right_of basis Fixtures.rolled_camera lookDirection]. entries;
    replace (0 * 0 + 0 * 0 + (0.8 * 0.8 + 0.6 * 0.6)) with 1 by lra; lra.
Qed.

(** C5, at a camera rolled about its view axis: the right vector is
    [(-0.28, -0.96, 0)].  Holding A alone moves the camera by 0.05 times
    the horizontal part of that vector, against it, and the height stays;
    holding D alone moves it by 0.05 times the whole vector, and the height
    changes by [-0.048]. *)
Theorem updateCamera_strafe_right_not_horizontal :
  cam_position (fst (updateCamera (Fixtures.only_key GLFW_KEY_A) Fixtures.rolled_camera
                                  Fixtures.no_calls)) = V3 0.014 0 0 /\
  cam_position (fst (updateCamera (Fixtures.only_key GLFW_KEY_D) Fixtures.rolled_camera
                                  Fixtures.no_calls)) = V3 (-0.014) (-0.048) 0.
Proof.
  rewrite !updateCamera_steer. cbn [fst]. split.
  - rewrite (steer_single_key _ GLFW_KEY_A).
    + cbv [displacement GLFW_KEY_A GLFW_KEY_W Z.eqb Pos.eqb cam_position].
      rewrite rolled_camera_right.
      cbv [Fixtures.rolled_camera horizontal]. entries; lra.
    + simpl. tauto.
    + intros k Hk. simpl in Hk.
      destruct Hk as [<-|[<-|[<-|[<-|[<-|[<-|[<-|[<-|[<-|[<-|[]]]]]]]]]]];
        cbv; split; congruence.
  - rewrite (steer_single_key _ GLFW_KEY_D).
    + cbv [displacement GLFW_KEY_A GLFW_KEY_W GLFW_KEY_S GLFW_KEY_D Z.eqb Pos.eqb
           cam_position].
      rewrite rolled_camera_right.
      cbv [Fixtures.rolled_camera]. entries; lra.
    + simpl. tauto.
    + intros k Hk. simpl in Hk.
      destruct Hk as [<-|[<-|[<-|[<-|[<-|[<-|[<-|[<-|[<-|[<-|[]]]]]]]]]]];
        cbv; split; congruence.
Qed.

End CameraFacts.

(** * Facts about cloning *)

Module CloneFacts.

Import Text Glm Platform Game Spec TextFacts.

Local Open Scope Z_scope.

Lemma new_fresh {T : Type} (store : gmap addr T) :
  store !! new store = None /\ new store <> null.
Proof.
  pose proof (is_fresh ({[null]} ∪ dom store)) as H. fold (new store) in H.
  split.
  - apply not_elem_of_dom. set_solver.
  - set_solver.
Qed.

Lemma clone_spec (go : addr) (g : GameObject) (h : Heap) :
  objects h !! go = Some g ->
  clone go h = Ok (new (objects h), set_objects (<[new (objects h) := g]> (objects h)) h).
Proof. intros H. unfold clone. now rewrite H. Qed.

(** The loop from counter [i] on, with [k] clones still to make: the
    entries below [i] stay, and each entry from [i] on is a fresh address
    holding a copy of the prefab, no address occurring twice. *)
Lemma clone_loop_spec (prefab : addr) (g : GameObject) (count : nat) :
  Z.of_nat count <= INT_MAX ->
  forall (k i : nat) (gos : list addr) (h : Heap) (fuel : nat),
    (i + k = count)%nat -> (k <= fuel)%nat -> length gos = count ->
    objects h !! prefab = Some g ->
    exists gos' h',
      clone_loop fuel prefab (Z.of_nat count) (Z.of_nat i) gos h = Ok (gos', h') /\
      length gos' = count /\
      (forall j, (j < i)%nat -> gos' !! j = gos !! j) /\
      (forall j p, (i <= j)%nat -> gos' !! j = Some p ->
                   objects h !! p = None /\ objects h' !! p = Some g) /\
      (forall j1 j2 p, (i <= j1)%nat -> (i <= j2)%nat ->
                       gos' !! j1 = Some p -> gos' !! j2 = Some p -> j1 = j2) /\
      (forall p x, objects h !! p = Some x -> objects h' !! p = Some x) /\
      meshes h' = meshes h /\ materials h' = materials h /\ programs h' = programs h.
Proof.
  intros Hmax. assert (Hm : INT_MAX = 2147483647) by reflexivity.
  induction k as [|k IH]; intros i gos h fuel Hik Hfuel Hlen Hpre.
  - assert (i = count) as -> by lia.
    assert (clone_loop fuel prefab (Z.of_nat count) (Z.of_nat count) gos h = Ok (gos, h))
      as ->.
    { destruct fuel; simpl; rewrite wrap_small_int by lia;
        now rewrite Z.ltb_irrefl. }
    exists gos, h.
    split; [reflexivity|]. split; [exact Hlen|]. split; [reflexivity|].
    split; [intros j p Hj Hp; apply lookup_lt_Some in Hp; lia|].
    split; [intros j1 j2 p Hj1 Hj2 Hp; apply lookup_lt_Some in Hp; lia|].
    split; [auto|]. auto.
  - destruct fuel as [|fuel]; [lia|].
    cbn [clone_loop]. rewrite wrap_small_int by lia.
    destruct (Z.of_nat i <? Z.of_nat count) eqn:Elt; [|lia].
    rewrite (clone_spec prefab g h Hpre). cbn [bind].
    destruct (Z.of_nat i =? INT_MAX) eqn:Emax; [lia|].
    rewrite Nat2Z.id.
    destruct (new_fresh (objects h)) as [Hfresh Hnull].
    set (p := new (objects h)) in *.
    set (h1 := set_objects (<[p := g]> (objects h)) h).
    assert (Hne : p <> prefab) by (intros ->; congruence).
    replace (Z.of_nat i + 1) with (Z.of_nat (S i)) by lia.
    destruct (IH (S i) (<[i := p]> gos) h1 fuel) as
      (gos' & h' & Hrun & Hlen' & HA & HB & HC & Hold & Hme & Hma & Hpr).
    { lia. } { lia. } { now rewrite length_insert. }
    { simpl. now rewrite lookup_insert_ne. }
    exists gos', h'. split; [exact Hrun|]. split; [exact Hlen'|].
    assert (Hi : gos' !! i = Some p).
    { rewrite HA by lia. apply list_lookup_insert_eq. lia. }
    assert (Hp1 : objects h1 !! p = Some g) by (simpl; apply lookup_insert_eq).
    split; [|split; [|split; [|split; [|auto]]]].
    + intros j Hj. rewrite HA by lia. apply list_lookup_insert_ne. lia.
    + intros j q Hj Hq. destruct (decide (j = i)) as [->|Hji].
      * rewrite Hi in Hq. inversion Hq; subst q. split; [exact Hfresh|].
        now apply Hold.
      * destruct (HB j q) as [Hn Hs]; [lia | assumption |].
        split; [|exact Hs].
        simpl in Hn. apply lookup_insert_None in Hn. tauto.
    + intros j1 j2 q H1 H2 Hq1 Hq2.
      destruct (decide (j1 = i)) as [->|Hj1], (decide (j2 = i)) as [->|Hj2].
      * reflexivity.
      * rewrite Hi in Hq1. inversion Hq1; subst q.
        destruct (HB j2 p) as [Hn _]; [lia | assumption | congruence].
      * rewrite Hi in Hq2. inversion Hq2; subst q.
        destruct (HB j1 p) as [Hn _]; [lia | assumption | congruence].
      * apply (HC j1 j2 q); (lia || assumption).
    + intros q x Hq. apply Hold. simpl. rewrite lookup_insert_ne; [exact Hq|].
      intros ->. congruence.
Qed.

(** C6: cloning a prefab [count] times yields [count] distinct new objects,
    none of them the prefab, each holding its own copy of the prefab's
    transform together with the prefab's mesh and material pointers.
    Writing the transform of one clone leaves the transforms of the other
    clones and of the prefab as they were; writing the colour of the shared
    material is seen through the prefab and through every clone. *)
Theorem createGameObjects_clones (prefab : addr) (count : nat) (h : Heap)
    (g : GameObject) :
  objects h !! prefab = Some g ->
  Z.of_nat count <= INT_MAX ->
  exists gos h',
    createGameObjects prefab count h = Ok (gos, h') /\
    length gos = count /\ NoDup gos /\ ~ In prefab gos /\
    (forall p, In p gos -> objects h' !! p = Some g) /\
    objects h' !! prefab = Some g /\
    (forall p t, In p gos ->
       exists h'',
         write_transform p t h' = Ok h'' /\
         read_transform p h'' = Ok t /\
         (forall q, In q gos -> q <> p -> read_transform q h'' = Ok (transform g)) /\
         read_transform prefab h'' = Ok (transform g)) /\
    (forall m c, materials h !! material (meshRenderer g) = Some m ->
       exists h'',
         write_color (material (meshRenderer g)) c h' = Ok h'' /\
         read_color prefab h'' = Ok c /\
         (forall p, In p gos -> read_color p h'' = Ok c)).
Proof.
  intros Hpre Hmax. unfold createGameObjects.
  destruct (clone_loop_spec prefab g count Hmax count 0%nat (replicate count null) h count)
    as (gos & h' & Hrun & Hlen & _ & HB & HC & Hold & _ & Hma & _);
    [lia | lia | apply length_replicate | exact Hpre |].
  change (Z.of_nat 0) with 0 in Hrun.
  assert (Hclone : forall p, In p gos -> objects h !! p = None /\ objects h' !! p = Some g).
  { intros p Hp. apply list_elem_of_In, list_elem_of_lookup in Hp. destruct Hp as [j Hj].
    apply (HB j p); [lia | exact Hj]. }
  assert (Hnot : ~ In prefab gos).
  { intros Hin. apply Hclone in Hin. destruct Hin. congruence. }
  exists gos, h'. split; [exact Hrun|]. split; [exact Hlen|].
  split; [|split; [exact Hnot|]].
  { apply NoDup_alt. intros j1 j2 p H1 H2. apply (HC j1 j2 p); (lia || assumption). }
  split; [intros p Hp; now apply Hclone|].
  split; [now apply Hold|].
  split.
  - intros p t Hp. destruct (Hclone p Hp) as [_ Hcp].
    unfold write_transform. rewrite Hcp. cbn [deref bind].
    eexists. split; [reflexivity|].
    unfold read_transform. cbn [objects set_objects].
    split; [now rewrite lookup_insert_eq|]. split.
    + intros q Hq Hne. destruct (Hclone q Hq) as [_ Hcq].
      rewrite lookup_insert_ne by congruence. now rewrite Hcq.
    + rewrite lookup_insert_ne by (intros ->; contradiction).
      now rewrite (Hold prefab g Hpre).
  - intros m c Hm. unfold write_color. rewrite Hma, Hm. cbn [deref bind].
    eexists. split; [reflexivity|].
    unfold read_color. cbn [objects materials set_materials].
    split.
    + rewrite (Hold prefab g Hpre). cbn [deref bind].
      now rewrite lookup_insert_eq.
    + intros p Hp. destruct (Hclone p Hp) as [_ ->]. cbn [deref bind].
      now rewrite lookup_insert_eq.
Qed.

Lemma createGameObjects_clones_witness :
  objects Fixtures.scene !! 1%N = Some Fixtures.prefab /\
  Z.of_nat 10 <= INT_MAX /\
  exists gos h',
    createGameObjects 1%N 10 Fixtures.scene = Ok (gos, h') /\
    length gos = 10%nat /\ NoDup gos /\ ~ In 1%N gos /\
    (forall p, In p gos -> objects h' !! p = Some Fixtures.prefab) /\
    objects h' !! 1%N = Some Fixtures.prefab /\
    (forall p t, In p gos ->
       exists h'',
         write_transform p t h' = Ok h'' /\
         read_transform p h'' = Ok t /\
         (forall q, In q gos -> q <> p ->
                    read_transform q h'' = Ok (transform Fixtures.prefab)) /\
         read_transform 1%N h'' = Ok (transform Fixtures.prefab)) /\
    (forall m c,
       materials Fixtures.scene !! material (meshRenderer Fixtures.prefab) = Some m ->
       exists h'',
         write_color (material (meshRenderer Fixtures.prefab)) c h' = Ok h'' /\
         read_color 1%N h'' = Ok c /\
         (forall p, In p gos -> read_color p h'' = Ok c)).
Proof.
  split; [reflexivity|]. split; [discriminate|].
  apply (createGameObjects_clones 1%N 10 Fixtures.scene Fixtures.prefab).
  - reflexivity.
  - discriminate.
Defined.

End CloneFacts.

(** * Facts about mesh construction *)

Module MeshFacts.

Import Text Glm Platform Game Spec.

Local Open Scope Z_scope.

Lemma sizeof_Vertex_value : sizeof_Vertex = 56.
Proof. reflexivity. Qed.

(** The members of [Vertex] lie at the offsets the attribute formats name. *)
Lemma Vertex_member_offsets : fst (member_offsets Vertex_members 0) = [0; 16; 32; 40].
Proof. reflexivity. Qed.

Lemma on_vao_at (vao : Z) (f : vertex_array -> vertex_array) (va : vertex_array)
    (m : gmap Z vertex_array) (st : state) :
  vaos st = <[vao := va]> m -> vaos (on_vao vao f st) = <[vao := f va]> m.
Proof.
  intros H. unfold on_vao. rewrite H, lookup_insert_eq. simpl.
  apply insert_insert_eq.
Qed.

Lemma glNamedBufferData_vaos (buf size : Z) (data : payload) (usage : Z) (st : state) :
  vaos (glNamedBufferData buf size data usage st) = vaos st.
Proof. unfold glNamedBufferData. simpl. now destruct (buffers st !! buf). Qed.

Lemma glBindBuffer_vaos (target buf : Z) (st : state) :
  vaos (glBindBuffer target buf st) = vaos st.
Proof. reflexivity. Qed.

Lemma glCreateVertexArrays1_vaos (st : state) :
  vaos (snd (glCreateVertexArrays1 st)) =
  <[fst (glCreateVertexArrays1 st) := initial_vertex_array]> (vaos st).
Proof. reflexivity. Qed.

Lemma glCreateBuffers2_vaos (st : state) : vaos (snd (glCreateBuffers2 st)) = vaos st.
Proof. reflexivity. Qed.

Section VertexArrayCalls.

Variables (vao : Z) (va : vertex_array) (m : gmap Z vertex_array) (st : state).
Hypothesis Hst : vaos st = <[vao := va]> m.

Lemma glVertexArrayAttribBinding_vaos (attribindex bindingindex : Z) :
  vaos (glVertexArrayAttribBinding vao attribindex bindingindex st) =
  <[vao := set_attrib_binding attribindex bindingindex va]> m.
Proof. unfold glVertexArrayAttribBinding. cbn [vaos emit]. now apply on_vao_at. Qed.

Lemma glVertexArrayAttribFormat_vaos (attribindex size type : Z) (normalized : bool)
    (relativeoffset : Z) :
  vaos (glVertexArrayAttribFormat vao attribindex size type normalized relativeoffset st) =
  <[vao := set_attrib_format attribindex size type normalized relativeoffset va]> m.
Proof. unfold glVertexArrayAttribFormat. cbn [vaos emit]. now apply on_vao_at. Qed.

Lemma glVertexArrayVertexBuffer_vaos (bindingindex buf offset stride : Z) :
  vaos (glVertexArrayVertexBuffer vao bindingindex buf offset stride st) =
  <[vao := set_vertex_buffer bindingindex buf offset stride va]> m.
Proof. unfold glVertexArrayVertexBuffer. cbn [vaos emit]. now apply on_vao_at. Qed.

Lemma glVertexArrayElementBuffer_vaos (buf : Z) :
  vaos (glVertexArrayElementBuffer vao buf st) = <[vao := set_element_buffer buf va]> m.
Proof. unfold glVertexArrayElementBuffer. cbn [vaos emit]. now apply on_vao_at. Qed.

Lemma glEnableVertexArrayAttrib_vaos (index : Z) :
  vaos (glEnableVertexArrayAttrib vao index st) = <[vao := enable_attrib index va]> m.
Proof. unfold glEnableVertexArrayAttrib. cbn [vaos emit]. now apply on_vao_at. Qed.

End VertexArrayCalls.

(** The fourteen vertex-array calls of [createMesh], applied to a new
    vertex array, build the layout of [Vertex]. *)
Lemma Vertex_layout_built (vbo ibo : Z) :
  enable_attrib 3 (enable_attrib 2 (enable_attrib 1 (enable_attrib 0
    (set_element_buffer ibo (set_vertex_buffer 0 vbo 0 sizeof_Vertex
      (set_attrib_format 3 4 GL_FLOAT false (10 * sizeof_float)
        (set_attrib_format 2 2 GL_FLOAT false (8 * sizeof_float)
          (set_attrib_format 1 4 GL_FLOAT false (4 * sizeof_float)
            (set_attrib_format 0 4 GL_FLOAT false 0
              (set_attrib_binding 3 0 (set_attrib_binding 2 0
                (set_attrib_binding 1 0 (set_attrib_binding 0 0
                  initial_vertex_array)))))))))))))
  = Vertex_layout sizeof_Vertex vbo ibo.
Proof. reflexivity. Qed.

(** [createMesh] stores its arguments in a new mesh and leaves the new
    vertex array with the layout of [Vertex], the stride being
    [sizeof(Vertex)]. *)
Lemma createMesh_spec (vertices : list Vertex) (indices : list Z)
    (fmt : PrimitiveFormat) (h : Heap) (st : state) :
  exists vao vbo ibo st',
    createMesh vertices indices fmt h st =
    (new (meshes h),
     set_meshes (<[new (meshes h) := mkMesh vertices indices fmt vao vbo ibo]> (meshes h)) h,
     st') /\
    vaos st' = <[vao := Vertex_layout sizeof_Vertex vbo ibo]> (vaos st).
Proof.
  unfold createMesh.
  pose proof (glCreateVertexArrays1_vaos st) as H1.
  destruct (glCreateVertexArrays1 st) as [vao st1]. cbn [fst snd] in H1.
  pose proof (glCreateBuffers2_vaos st1) as H2.
  destruct (glCreateBuffers2 st1) as [[vbo ibo] st2]. cbn [fst snd] in H2.
  exists vao, vbo, ibo. eexists. split; [reflexivity|].
  rewrite <- Vertex_layout_built.
  apply glEnableVertexArrayAttrib_vaos, glEnableVertexArrayAttrib_vaos,
    glEnableVertexArrayAttrib_vaos, glEnableVertexArrayAttrib_vaos,
    glVertexArrayElementBuffer_vaos, glVertexArrayVertexBuffer_vaos,
    glVertexArrayAttribFormat_vaos, glVertexArrayAttribFormat_vaos,
    glVertexArrayAttribFormat_vaos, glVertexArrayAttribFormat_vaos,
    glVertexArrayAttribBinding_vaos, glVertexArrayAttribBinding_vaos,
    glVertexArrayAttribBinding_vaos, glVertexArrayAttribBinding_vaos.
  rewrite !glNamedBufferData_vaos, !glBindBuffer_vaos, H2. exact H1.
Qed.

(** C2, on the cube of [main]: the stride that [createMesh] registers is
    not 48 bytes, and neither is the size of a [Vertex]. *)
Lemma createMesh_stride_not_48 :
  let '(mesh, h', st') :=
    createMesh Fixtures.cube_vertices Fixtures.cube_indices Triangles
               Fixtures.empty_heap Fixtures.no_calls in
  exists m va,
    meshes h' !! mesh = Some m /\ vaos st' !! vao m = Some va /\
    b_stride (binding_of va 0) <> 48 /\ sizeof_Vertex <> 48.
Proof.
  destruct (createMesh_spec Fixtures.cube_vertices Fixtures.cube_indices Triangles
              Fixtures.empty_heap Fixtures.no_calls)
    as (vao & vbo & ibo & st' & -> & Hv).
  eexists. exists (Vertex_layout sizeof_Vertex vbo ibo).
  split; [apply lookup_insert_eq|]. cbn [Game.vao].
  split; [rewrite Hv; apply lookup_insert_eq|].
  split; discriminate.
Qed.

(** C2, as the program has it: the vertex array that [createMesh] registers
    describes four float attributes, of 4, 4, 2 and 4 components, at the
    byte offsets 0, 16, 32 and 40, which are the offsets of the members of
    [Vertex]; the stride of the vertex buffer is the size of a [Vertex],
    which is 56 bytes. *)
Theorem createMesh_layout (vs : list Vertex) (ixs : list Z) (fmt : PrimitiveFormat)
    (h : Heap) (st : state) :
  let '(mesh, h', st') := createMesh vs ixs fmt h st in
  exists m va,
    meshes h' !! mesh = Some m /\ vaos st' !! vao m = Some va /\
    attrib_of va 0 = Attrib 0 4 GL_FLOAT false 0 true /\
    attrib_of va 1 = Attrib 0 4 GL_FLOAT false 16 true /\
    attrib_of va 2 = Attrib 0 2 GL_FLOAT false 32 true /\
    attrib_of va 3 = Attrib 0 4 GL_FLOAT false 40 true /\
    fst (member_offsets Vertex_members 0) = [0; 16; 32; 40] /\
    binding_of va 0 = Binding (vbo m) 0 sizeof_Vertex /\
    element_buffer va = ibo m /\
    sizeof_Vertex = 56.
Proof.
  destruct (createMesh_spec vs ixs fmt h st) as (vao & vbo & ibo & st' & -> & Hv).
  eexists. exists (Vertex_layout sizeof_Vertex vbo ibo).
  split; [apply lookup_insert_eq|]. cbn [Game.vao Game.vbo Game.ibo].
  split; [rewrite Hv; apply lookup_insert_eq|].
  repeat split.
Qed.

(** C3, on the cube of [main] with the index list [8]: the cube has eight
    vertices, and [createMesh] returns a mesh all the same. *)
Lemma createMesh_accepts_bad_index :
  let '(mesh, h', st') :=
    createMesh Fixtures.cube_vertices [8] Triangles Fixtures.empty_heap
               Fixtures.no_calls in
  exists m, meshes h' !! mesh = Some m /\ ~ indices_valid m.
Proof.
  destruct (createMesh_spec Fixtures.cube_vertices [8] Triangles Fixtures.empty_heap
              Fixtures.no_calls)
    as (vao & vbo & ibo & st' & -> & _).
  eexists. split; [apply lookup_insert_eq|].
  unfold indices_valid. cbn [indices vertices]. intros H.
  inversion H as [|i l Hi Hl]; subst. vm_compute in Hi. discriminate Hi.
Qed.

(** C3, as the program has it: [createMesh] checks nothing.  It returns a
    mesh that holds the vertex and index lists it was given, unchanged, so
    that the mesh satisfies the invariant exactly when the arguments do. *)
Theorem createMesh_keeps_indices (vs : list Vertex) (ixs : list Z)
    (fmt : PrimitiveFormat) (h : Heap) (st : state) :
  let '(mesh, h', st') := createMesh vs ixs fmt h st in
  exists m,
    meshes h' !! mesh = Some m /\
    vertices m = vs /\ indices m = ixs /\ primitiveFormat m = fmt /\
    (indices_valid m <-> Forall (fun i => i < size_of_list vs) ixs).
Proof.
  destruct (createMesh_spec vs ixs fmt h st) as (vao & vbo & ibo & st' & -> & _).
  eexists. split; [apply lookup_insert_eq|].
  unfold indices_valid. cbn [vertices indices primitiveFormat]. tauto.
Qed.

End MeshFacts.

(** * Facts about the render loop *)

Module LoopFacts.

Import Text Glm Platform Game Spec CameraFacts.

Local Open Scope Z_scope.

Lemma resolve_some (h : Heap) (go : addr) (g : GameObject) (m : Mesh) (mt : Material)
    (sp : ShaderProgram) :
  resolve h go = Some (g, m, mt, sp) ->
  objects h !! go = Some g /\
  meshes h !! mesh (meshRenderer g) = Some m /\
  materials h !! material (meshRenderer g) = Some mt /\
  programs h !! shader mt = Some sp.
Proof.
  unfold resolve. intros H.
  destruct (objects h !! go) as [g'|] eqn:Eg; [|discriminate]. simpl in H.
  destruct (meshes h !! mesh (meshRenderer g')) as [m'|] eqn:Em; [|discriminate].
  simpl in H.
  destruct (materials h !! material (meshRenderer g')) as [mt'|] eqn:Emt;
    [|discriminate].
  simpl in H.
  destruct (programs h !! shader mt') as [sp'|] eqn:Esp; [|discriminate].
  simpl in H. injection H as -> -> -> ->.
  split; [reflexivity|]. split; [exact Em|]. split; [exact Emt | exact Esp].
Qed.

Section Loop.

Variable key_input : nat -> Z -> Z.
Variable close_requested : nat -> bool.
Variable uniform_location : Z -> cstring -> Z.

(** [applyMaterial] hands the driver a pointer into the material, which is
    alive: its three calls are made. *)
Lemma applyMaterial_spec (mat : addr) (h : Heap) (st : state) (mt : Material)
    (sp : ShaderProgram) :
  materials h !! mat = Some mt ->
  programs h !! shader mt = Some sp ->
  applyMaterial uniform_location mat h st =
  Ok (emit_all [Call.UseProgram (handle sp);
                Call.GetUniformLocation (handle sp) (lit "uColor");
                Call.Uniform4fv (uniform_location (handle sp) (lit "uColor")) 1
                                (mat_color mt)] st).
Proof.
  intros Hmt Hsp. unfold applyMaterial. rewrite Hmt. cbn [deref bind].
  rewrite Hsp. reflexivity.
Qed.

(** [applyTransform] and [applyCamera] never return: when the pointers of
    the object are valid, the driver is handed a pointer into a matrix that
    has been destroyed. *)
Lemma applyTransform_undefined (go : addr) (h : Heap) (st : state) :
  applyTransform uniform_location go h st = Undefined.
Proof.
  unfold applyTransform.
  destruct (objects h !! go) as [g|]; [|reflexivity]. cbn [deref bind].
  destruct (materials h !! material (meshRenderer g)) as [mt|]; [|reflexivity].
  cbn [deref bind].
  destruct (programs h !! shader mt) as [sp|]; reflexivity.
Qed.

Lemma applyCamera_undefined (camera : Camera) (go : addr) (h : Heap) (st : state) :
  applyCamera uniform_location camera go h st = Undefined.
Proof.
  unfold applyCamera.
  destruct (objects h !! go) as [g|]; [|reflexivity]. cbn [deref bind].
  destruct (materials h !! material (meshRenderer g)) as [mt|]; [|reflexivity].
  cbn [deref bind].
  destruct (programs h !! shader mt) as [sp|]; reflexivity.
Qed.

Lemma renderGameObject_undefined (camera : Camera) (go : addr) (h : Heap) (st : state) :
  renderGameObject uniform_location camera go h st = Undefined.
Proof.
  unfold renderGameObject.
  destruct (objects h !! go) as [g|]; [|reflexivity]. cbn [deref bind].
  destruct (meshes h !! mesh (meshRenderer g)) as [m|]; [|reflexivity].
  cbn [deref bind].
  cbv zeta.
  destruct (materials h !! material (meshRenderer g)) as [mt|] eqn:Emt.
  - destruct (programs h !! shader mt) as [sp|] eqn:Esp.
    + rewrite (applyMaterial_spec _ h _ mt sp Emt Esp). cbn [bind].
      now rewrite applyTransform_undefined.
    + unfold applyMaterial. rewrite Emt. cbn [deref bind]. now rewrite Esp.
  - unfold applyMaterial. now rewrite Emt.
Qed.

Lemma renderGameObjects_cases (camera : Camera) (objs : list addr) (h : Heap)
    (st : state) :
  renderGameObjects uniform_location camera objs h st =
  match objs with
  | [] => Ok st
  | _ :: _ => Undefined
  end.
Proof.
  destruct objs as [|go objs]; [reflexivity|].
  cbn [renderGameObjects]. now rewrite renderGameObject_undefined.
Qed.

(** One iteration polls, steers the camera by the keys held after the
    poll, clears, and presents when there is no object to draw. *)
Lemma frame_cases (objs : list addr) (h : Heap) (camera : Camera) (st : state) :
  frame key_input uniform_location objs h camera st =
  match objs with
  | [] => Ok (steer (key_input (S (polls st))) camera,
              emit_all idle_frame_calls (set_polls (S (polls st)) st))
  | _ :: _ => Undefined
  end.
Proof.
  unfold frame. rewrite updateCamera_steer, renderGameObjects_cases.
  destruct objs; reflexivity.
Qed.

(** C8: on the scene of [main], with its one object, the loop does not
    perform the steps of an iteration as listed.  It binds the vertex array
    of the mesh, activates the program and sets [uColor]; the step that
    sets [uModel] then hands the driver a pointer into a matrix that was
    destroyed at the end of line 293, which is undefined behaviour, and so
    is the step that sets [uViewProjection], which does the same with
    the matrix of line 298; so the drawing of the object and the first
    iteration of the loop are undefined, whatever the camera and the keys,
    and no draw call is issued with a defined meaning. *)
Theorem renderLoop_uniform_pointer_dangles (camera : Camera) (st : state) (fuel : nat) :
  (exists st1,
     applyMaterial uniform_location 1%N Fixtures.scene (glBindVertexArray 1 st) = Ok st1 /\
     log st1 = log st ++ [Call.BindVertexArray 1; Call.UseProgram 3;
                          Call.GetUniformLocation 3 (lit "uColor");
                          Call.Uniform4fv (uniform_location 3 (lit "uColor")) 1
                                          (V4 1 0 0 0.5)] /\
     applyTransform uniform_location 1%N Fixtures.scene st1 = Undefined) /\
  applyCamera uniform_location camera 1%N Fixtures.scene st = Undefined /\
  renderGameObject uniform_location camera 1%N Fixtures.scene st = Undefined /\
  renderLoop key_input (Fixtures.close_after 1) uniform_location (S fuel) [1%N]
             Fixtures.scene camera Fixtures.no_calls = Undefined.
Proof.
  split; [|split; [apply applyCamera_undefined|split]].
  - eexists. split.
    + apply (applyMaterial_spec 1%N Fixtures.scene _ Fixtures.red (mkShaderProgram 3));
        reflexivity.
    + split; [|apply applyTransform_undefined].
      rewrite emit_all_log. cbn [glBindVertexArray log emit handle Fixtures.red mat_color].
      now rewrite <- app_assoc.
  - apply renderGameObject_undefined.
  - cbn [renderLoop glfwWindowShouldClose Fixtures.close_after Fixtures.no_calls polls
         Nat.leb].
    now rewrite frame_cases.
Qed.

End Loop.


End LoopFacts.

(** * Further facts about the text utilities *)

Module TextMore.

Import Text Platform Game Spec Notions TextFacts.

Local Open Scope Z_scope.



(** X2: [splitAt] at an index inside the text drops the character at that
    index and returns what is before and what is after it.  At an index
    that is not inside the text it returns the whole text and an empty
    rest, except at index 0 of the empty text, where [substr] throws. *)
Theorem splitAt_drops_index (text : cstring) (i : Z) :
  0 <= i <= npos -> size text < npos ->
  (i < size text ->
   exists a c b, splitAt text i = Ok (a, b) /\ text = a ++ c :: b /\ size a = i) /\
  (size text <= i ->
   splitAt text i = if i =? 0 then Throw out_of_range else Ok (text, [])).
Proof.
  intros Hi Hs. rewrite npos_value in *. split.
  - intros Hin.
    destruct (lookup_lt_is_Some_2 text (Z.to_nat i)) as [c Hc].
    { unfold size in Hin. lia. }
    pose proof (take_drop_middle text (Z.to_nat i) c Hc) as Hmid.
    exists (take (Z.to_nat i) text), c, (drop (S (Z.to_nat i)) text).
    split; [|split; [now symmetry|]].
    2:{ unfold size in *. rewrite length_take. lia. }
    unfold splitAt. destruct (i =? 0) eqn:E0.
    + assert (i = 0) as -> by lia. rewrite substr_tail by (rewrite ?npos_value; lia).
      reflexivity.
    + destruct (i =? npos) eqn:En; [rewrite npos_value in En; lia|].
      rewrite wrap_small by (rewrite size_modulus_value; lia).
      replace (Z.to_nat (i + 1)) with (S (Z.to_nat i)) by lia.
      destruct (i + 1 =? size text) eqn:E1.
      * rewrite substr_head by lia. cbn [bind].
        rewrite (drop_ge text (S (Z.to_nat i))) by (unfold size in *; lia).
        reflexivity.
      * destruct (i + 1 >? size text) eqn:E2; [lia|].
        rewrite substr_head by lia. cbn [bind].
        rewrite substr_tail by (rewrite ?npos_value; lia). cbn [bind].
        replace (Z.to_nat (i + 1)) with (S (Z.to_nat i)) by lia. reflexivity.
  - intros Hout. unfold splitAt. destruct (i =? 0) eqn:E0.
    + assert (text = []) as ->.
      { destruct text; [reflexivity|]. rewrite size_cons in Hout.
        pose proof (size_nonneg text). lia. }
      reflexivity.
    + destruct (i =? npos) eqn:En; [reflexivity|].
      rewrite npos_value in En.
      rewrite wrap_small by (rewrite size_modulus_value; lia).
      destruct (i + 1 =? size text) eqn:E1; [lia|].
      destruct (i + 1 >? size text) eqn:E2; [reflexivity | lia].
Qed.

Lemma splitAt_drops_index_witness :
  0 <= 5 <= npos /\ size (lit "#type vertex") < npos /\
  (5 < size (lit "#type vertex") ->
   exists a c b,
     splitAt (lit "#type vertex") 5 = Ok (a, b) /\
     lit "#type vertex" = a ++ c :: b /\ size a = 5) /\
  (size (lit "#type vertex") <= 5 ->
   splitAt (lit "#type vertex") 5 = if 5 =? 0 then Throw out_of_range
                                    else Ok (lit "#type vertex", [])).
Proof.
  split; [split; discriminate|]. split; [reflexivity|].
  apply (splitAt_drops_index (lit "#type vertex") 5).
  - split; discriminate.
  - reflexivity.
Defined.

(** X3: [stripWhitespace] returns for every string, whatever byte the
    read before the start of an empty string yields.  The result is the
    string with its surrounding whitespace trimmed, unless the trimmed
    string is a single character, where the result is that string or
    empty. *)
Theorem stripWhitespace_trims (oob : ascii) (str : cstring) :
  size str < npos ->
  exists r,
    stripWhitespace oob str = Ok r /\
    (r = trim str \/ r = []) /\
    (length (trim str) <> 1%nat -> r = trim str).
Proof.
  intros Hs. destruct (stripWhitespace_spec oob str Hs) as (r & Hr & Hcase).
  exists r. split; [exact Hr|]. destruct Hcase as [-> | [-> Hone]].
  - split; auto.
  - split; [now right|]. intros Hne. contradiction.
Qed.

Lemma stripWhitespace_trims_witness :
  size (lit "  fragment  ") < npos /\
  exists r,
    stripWhitespace "000" (lit "  fragment  ") = Ok r /\
    (r = trim (lit "  fragment  ") \/ r = []) /\
    (length (trim (lit "  fragment  ")) <> 1%nat -> r = trim (lit "  fragment  ")).
Proof.
  split; [reflexivity|].
  apply (stripWhitespace_trims "000" (lit "  fragment  ")). reflexivity.
Defined.

(** X4: a single character that is followed by whitespace is lost:
    [stripWhitespace] returns the empty string for it, where trimming
    gives the character.  Without the trailing whitespace the character is
    kept. *)
Theorem stripWhitespace_loses_single_character (oob : ascii) (lead w : cstring)
    (y : ascii) :
  Forall (fun c => isWhiteSpace c = true) lead ->
  isWhiteSpace y = false ->
  Forall (fun c => isWhiteSpace c = true) w ->
  size (lead ++ y :: w) < npos ->
  trim (lead ++ y :: w) = [y] /\
  stripWhitespace oob (lead ++ y :: w) = Ok (match w with [] => [y] | _ :: _ => [] end).
Proof.
  intros Hlead Hy Hw Hs.
  assert (Hdrop : dropWhile isWhiteSpace (lead ++ y :: w) = y :: w).
  { rewrite dropWhile_app_all by exact Hlead. now apply dropWhile_stop. }
  assert (Htrim : trim (lead ++ y :: w) = [y]).
  { rewrite ?trim_unfold. rewrite Hdrop. cbn [rev].
    rewrite dropWhile_app_all by now apply Forall_rev.
    rewrite dropWhile_stop by exact Hy. reflexivity. }
  split; [exact Htrim|].
  pose proof Hs as Hs'. rewrite npos_value in Hs'.
  unfold stripWhitespace.
  destruct (leading_loop_whole oob (lead ++ y :: w))
    as (e & -> & [[_ Hd] | (j & -> & Hj & Hd)]).
  { rewrite size_modulus_value. lia. }
  { rewrite Hdrop in Hd. discriminate. }
  cbn [bind]. rewrite substr_tail by (assumption || lia). cbn [bind].
  rewrite Hd, Hdrop.
  pose proof (size_nonneg lead) as Hl0. pose proof (size_nonneg w) as Hw0.
  autorewrite with size in Hs'.
  replace (wrap (size (y :: w) - 1)) with (size [] + Z.of_nat (length w)).
  2:{ rewrite size_cons. rewrite wrap_small; unfold size in *; simpl; try lia.
      rewrite size_modulus_value. lia. }
  assert (Hloop := trailing_loop_spec oob [] w y (length w) (S (length (y :: w)))).
  cbn [app] in Hloop. rewrite Hloop; try assumption; try (simpl; lia).
  2:{ rewrite size_cons, size_modulus_value. lia. }
  destruct w as [|c w]; reflexivity.
Qed.

Lemma stripWhitespace_loses_single_character_witness :
  Forall (fun c => isWhiteSpace c = true) (lit " ") /\
  isWhiteSpace "v" = false /\
  Forall (fun c => isWhiteSpace c = true) (lit "  ") /\
  size (lit " " ++ "v"%char :: lit "  ") < npos /\
  trim (lit " " ++ "v"%char :: lit "  ") = ["v"%char] /\
  stripWhitespace "000" (lit " " ++ "v"%char :: lit "  ") =
  Ok (match lit "  " with [] => ["v"%char] | _ :: _ => [] end).
Proof.
  assert (H1 : Forall (fun c => isWhiteSpace c = true) (lit " "))
    by (repeat constructor).
  assert (H2 : Forall (fun c => isWhiteSpace c = true) (lit "  "))
    by (repeat constructor).
  split; [exact H1|]. split; [reflexivity|]. split; [exact H2|].
  split; [reflexivity|].
  apply (stripWhitespace_loses_single_character "000" (lit " ") (lit "  ") "v"%char);
    [exact H1 | reflexivity | exact H2 | reflexivity].
Defined.

End TextMore.

(** * Further facts about shaders and shader programs *)

Module ShaderMore.

Import Text Platform Game Spec Notions TextFacts ShaderFacts Linker.

Local Open Scope Z_scope.

(** X5: the compile step of [createShader] either throws the compile
    error, when the driver rejects the body, or returns a shader name that
    is not zero and was not in use, whose object holds the stage type and
    the body and is compiled; it makes four driver calls and touches no
    other shader, vertex array or buffer. *)
Theorem compileStage_outcome (glsl_compiles : Z -> cstring -> bool) (path : cstring)
    (stype : Z) (src : cstring) (st : Platform.state) :
  match compileStage glsl_compiles path stype src st with
  | Ok (sh, st') =>
      glsl_compiles stype (c_str src) = true /\
      sh <> 0 /\ shaders st !! sh = None /\
      shaders st' = <[sh := Shader stype (c_str src) true]> (shaders st) /\
      vaos st' = vaos st /\ buffers st' = buffers st /\ polls st' = polls st /\
      log st' = log st ++ [Call.CreateShader stype; Call.ShaderSource sh (c_str src);
                           Call.CompileShader sh; Call.GetShaderiv sh GL_COMPILE_STATUS]
  | Throw e =>
      glsl_compiles stype (c_str src) = false /\
      e = runtime_error (lit "Failed to compile shader " ++ path)
  | _ => False
  end.
Proof.
  rewrite compileStage_spec.
  destruct (glsl_compiles stype (c_str src)); [|split; reflexivity].
  destruct (fresh_name (shaders st)) as [Hne Hnone].
  split; [reflexivity|]. split; [exact Hne|]. split; [exact Hnone|].
  split; [reflexivity|]. split; [reflexivity|]. split; [reflexivity|].
  split; [reflexivity|].
  cbn. now rewrite <- !app_assoc.
Qed.

(** X6: the body reaches the driver as a C string, so whatever follows a
    zero byte in it is not compiled: a body and the same body cut at a zero
    byte compile to the same outcome. *)
Theorem compileStage_stops_at_zero_byte (glsl_compiles : Z -> cstring -> bool)
    (path : cstring) (stype : Z) (a b : cstring) (st : Platform.state) :
  compileStage glsl_compiles path stype (a ++ NUL :: b) st =
  compileStage glsl_compiles path stype a st.
Proof. rewrite !compileStage_spec. now rewrite c_str_stops. Qed.

Lemma new_fresh_programs (h : Heap) :
  programs h !! new (programs h) = None /\ new (programs h) <> null.
Proof.
  pose proof (is_fresh ({[null]} ∪ dom (programs h))) as H.
  fold (new (programs h)) in H. split.
  - apply not_elem_of_dom. set_solver.
  - set_solver.
Qed.

Section Programs.

Variable oob : ascii.
Variable readFile : cstring -> cstring.
Variable glsl_compiles : Z -> cstring -> bool.
Variable glsl_links : list Platform.shader -> bool.

(** [createShader] returns or throws; when it returns, it is the compile
    step that returned. *)
Lemma createShader_returns (path : cstring) (st : Platform.state) :
  size (readFile path) < npos ->
  (exists e, createShader oob readFile glsl_compiles path st = Throw e) \/
  (exists stype src,
     createShader oob readFile glsl_compiles path st =
     compileStage glsl_compiles path stype src st).
Proof.
  intros Hs.
  destruct (starts_with (first_line (blank_strip (readFile path))) (lit "#type "))
    eqn:Esw.
  - apply starts_with_spec in Esw. destruct Esw as [X Hl].
    destruct (createShader_typed oob readFile glsl_compiles path X st Hs Hl)
      as (r & _ & ->).
    destruct (sTypeFromName_cases r) as [(g & _ & ->) | [_ ->]].
    + right. eauto.
    + left. eauto.
  - left. unfold createShader.
    rewrite lStripNewlines_spec by exact Hs. cbn [bind].
    pose proof (blank_strip_size (readFile path)).
    rewrite splitFirstLine_spec by lia. cbn [bind]. rewrite Esw. eauto.
Qed.

Lemma createShader_bad_header (path : cstring) (st : Platform.state) :
  size (readFile path) < npos ->
  ~ has_header (readFile path) ->
  exists e, createShader oob readFile glsl_compiles path st = Throw e.
Proof.
  intros Hs Hno.
  destruct (starts_with (first_line (blank_strip (readFile path))) (lit "#type "))
    eqn:Esw.
  - apply starts_with_spec in Esw. destruct Esw as [X Hl].
    destruct (createShader_typed oob readFile glsl_compiles path X st Hs Hl)
      as (r & Hr & ->).
    destruct (sTypeFromName_cases r) as [(g & Hg & _) | [_ ->]]; [|eauto].
    exfalso. apply Hno. exists g, X. split; [exact Hl|].
    unfold names_stage. destruct Hr as [-> | [-> _]]; [exact Hg|].
    destruct g; discriminate Hg.
  - unfold createShader.
    rewrite lStripNewlines_spec by exact Hs. cbn [bind].
    pose proof (blank_strip_size (readFile path)).
    rewrite splitFirstLine_spec by lia. cbn [bind]. rewrite Esw. eauto.
Qed.

Lemma compile_files_bad_header (files : list cstring) (f : cstring) :
  In f files ->
  (forall p, In p files -> size (readFile p) < npos) ->
  ~ has_header (readFile f) ->
  forall acc st,
    exists e, compile_files oob readFile glsl_compiles files acc st = Throw e.
Proof.
  intros Hin Hsize Hbad. induction files as [|p files IH]; [destruct Hin|].
  intros acc st. cbn [compile_files].
  destruct Hin as [-> | Hin].
  - destruct (createShader_bad_header f st) as [e ->]; auto.
    + apply Hsize. now left.
    + cbn [bind]. eauto.
  - destruct (createShader_returns p st) as [[e ->] | (stype & src & ->)].
    + apply Hsize. now left.
    + cbn [bind]. eauto.
    + rewrite compileStage_spec.
      destruct (glsl_compiles stype (c_str src)); cbn [bind]; [|eauto].
      apply IH; [exact Hin|]. intros q Hq. apply Hsize. now right.
Qed.

(** X7: when one of the files has no valid [#type] header,
    [createShaderProgram] throws, whatever the other files hold and
    wherever the file stands in the list: no program is returned. *)
Theorem createShaderProgram_bad_header (files : list cstring) (f : cstring)
    (h : Heap) (ls : Linker.state) :
  In f files ->
  (forall p, In p files -> size (readFile p) < npos) ->
  ~ has_header (readFile f) ->
  exists e,
    createShaderProgram oob readFile glsl_compiles glsl_links files h ls = Throw e.
Proof.
  intros Hin Hsize Hbad. unfold createShaderProgram.
  destruct (compile_files_bad_header files f Hin Hsize Hbad [] (driver ls)) as [e ->].
  cbn [bind]. eauto.
Qed.

(** [createShader], when it returns, returns what its compile step
    returned. *)
Lemma createShader_ok (path : cstring) (st : Platform.state) (r : Z * Platform.state) :
  createShader oob readFile glsl_compiles path st = Ok r ->
  exists stype src, compileStage glsl_compiles path stype src st = Ok r.
Proof.
  unfold createShader. intros H.
  destruct (lStripNewlines oob (readFile path)) as [srcuf| | |]; try discriminate H.
  cbn [bind] in H.
  destruct (splitFirstLine srcuf) as [[l src]| | |]; try discriminate H.
  cbn [bind] in H.
  destruct (negb (starts_with l (lit "#type "))); [discriminate H|].
  destruct (substr l 6 npos) as [rest| | |]; try discriminate H. cbn [bind] in H.
  destruct (stripWhitespace oob rest) as [type| | |]; try discriminate H.
  cbn [bind] in H.
  destruct (sTypeFromName type) as [stype| | |]; try discriminate H.
  cbn [bind] in H. eauto.
Qed.

Lemma createShader_new_shader (path : cstring) (st st' : Platform.state) (sh : Z) :
  createShader oob readFile glsl_compiles path st = Ok (sh, st') ->
  sh <> 0 /\ shaders st !! sh = None /\
  exists stype body, shaders st' = <[sh := Shader stype body true]> (shaders st).
Proof.
  intros H. apply createShader_ok in H. destruct H as (stype & src & H).
  rewrite compileStage_spec in H.
  destruct (glsl_compiles stype (c_str src)); [|discriminate H].
  injection H as <- <-. destruct (fresh_name (shaders st)) as [Hne Hnone].
  split; [exact Hne|]. split; [exact Hnone|]. exists stype, (c_str src).
  reflexivity.
Qed.

(** The shaders that the loop over the files collects: one per file, new,
    distinct, compiled; the shaders that existed stay. *)
Lemma compile_files_ok (files : list cstring) :
  forall (acc : list Z) (st : Platform.state) (shs : list Z) (st' : Platform.state),
    compile_files oob readFile glsl_compiles files acc st = Ok (shs, st') ->
    exists fresh_shs,
      shs = acc ++ fresh_shs /\ length fresh_shs = length files /\ NoDup fresh_shs /\
      (forall s, In s fresh_shs ->
         s <> 0 /\ shaders st !! s = None /\
         exists o, shaders st' !! s = Some o /\ sh_compiled o = true) /\
      (forall s o, shaders st !! s = Some o -> shaders st' !! s = Some o).
Proof.
  induction files as [|p files IH]; intros acc st shs st' H; cbn [compile_files] in H.
  - injection H as <- <-. exists []. rewrite app_nil_r.
    split; [reflexivity|]. split; [reflexivity|]. split; [constructor|].
    split; [intros s []|auto].
  - destruct (createShader oob readFile glsl_compiles p st) as [[sh st1]| | |] eqn:Ec;
      try discriminate H.
    cbn [bind] in H.
    destruct (createShader_new_shader p st st1 sh Ec) as (Hne & Hnone & stype & body & Hst1).
    destruct (IH _ _ _ _ H) as (rest & -> & Hlen & Hnd & Hnew & Hold).
    assert (Hsh1 : shaders st1 !! sh = Some (Shader stype body true)).
    { rewrite Hst1. apply lookup_insert_eq. }
    exists (sh :: rest). rewrite <- app_assoc.
    split; [reflexivity|]. split; [simpl; now rewrite Hlen|].
    split.
    { constructor; [|exact Hnd]. intros Hin. apply list_elem_of_In in Hin.
      destruct (Hnew sh Hin) as (_ & Hn & _). congruence. }
    split.
    + intros s [<- | Hin].
      * split; [exact Hne|]. split; [exact Hnone|].
        exists (Shader stype body true). split; [now apply Hold | reflexivity].
      * destruct (Hnew s Hin) as (H0 & Hn & Ho). split; [exact H0|].
        split; [|exact Ho]. rewrite Hst1 in Hn.
        apply lookup_insert_None in Hn. tauto.
    + intros s o Hs. apply Hold. rewrite Hst1.
      rewrite lookup_insert_ne; [exact Hs|]. intros <-. congruence.
Qed.

(** The shader that the loop makes for a file has the stage of the header
    of that file and its body, in the position of the file. *)
Lemma compile_files_sources (files : list cstring) :
  (forall p, In p files -> size (readFile p) < npos) ->
  forall (acc : list Z) (st : Platform.state) (shs : list Z) (st' : Platform.state),
    compile_files oob readFile glsl_compiles files acc st = Ok (shs, st') ->
    exists fresh_shs,
      shs = acc ++ fresh_shs /\
      Forall2 (fun p s =>
                 exists g body src,
                   shader_source (readFile p) g body /\ cut_at_zero body src /\
                   shaders st' !! s = Some (Shader (stage_type g) src true))
              files fresh_shs.
Proof.
  induction files as [|p files IH]; intros Hsize acc st shs st' H;
    cbn [compile_files] in H.
  - injection H as <- <-. exists []. rewrite app_nil_r. split; [reflexivity|constructor].
  - assert (Hp : size (readFile p) < npos) by (apply Hsize; now left).
    destruct (createShader_cases oob readFile glsl_compiles p st Hp)
      as [(g & Hh & Hrun) | [_ [Hrun | [name Hrun]]]];
      rewrite Hrun in H; try discriminate H.
    rewrite compileStage_spec in H.
    destruct (glsl_compiles (stage_type g)
                (c_str (after_first_line (blank_strip (readFile p))))) eqn:Hc;
      [|discriminate H].
    cbn [bind] in H.
    set (sh := fresh ({[0]} ∪ dom (shaders st))) in *.
    match type of H with
    | compile_files _ _ _ _ _ ?x = _ => set (st1 := x) in *
    end.
    assert (Hsh : shaders st1 !! sh =
                  Some (Shader (stage_type g)
                          (c_str (after_first_line (blank_strip (readFile p)))) true)).
    { unfold st1. cbn. apply lookup_insert_eq. }
    destruct (IH (fun q Hq => Hsize q (or_intror Hq)) _ _ _ _ H)
      as (rest & -> & Hall).
    destruct (compile_files_ok files _ _ _ _ H) as (rest' & Heq & _ & _ & _ & Hold).
    exists (sh :: rest). rewrite <- app_assoc. split; [reflexivity|].
    constructor; [|exact Hall].
    exists g, (after_first_line (blank_strip (readFile p))),
      (c_str (after_first_line (blank_strip (readFile p)))).
    split; [now apply header_shader_source|].
    split; [apply c_str_cut_at_zero|]. now apply Hold.
Qed.

Lemma attach_all (pr : Z) (shs : list Z) :
  forall (pre : list Z) (b : bool) (ls : Linker.state),
    gl_programs ls !! pr = Some (Program pre b) ->
    NoDup (pre ++ shs) ->
    (forall s, In s shs -> is_Some (shaders (driver ls) !! s)) ->
    gl_programs (fold_left (fun ls s => glAttachShader pr s ls) shs ls) =
      <[pr := Program (pre ++ shs) b]> (gl_programs ls) /\
    driver (fold_left (fun ls s => glAttachShader pr s ls) shs ls) = driver ls /\
    flagged (fold_left (fun ls s => glAttachShader pr s ls) shs ls) = flagged ls.
Proof.
  induction shs as [|s shs IH]; intros pre b ls Hpr Hnd Hex.
  - rewrite app_nil_r. cbn [fold_left]. split; [|split; reflexivity].
    symmetry. now apply insert_id.
  - cbn [fold_left].
    destruct (Hex s (or_introl eq_refl)) as [o Ho].
    assert (Hnotin : s ∉ pre).
    { apply NoDup_app in Hnd. destruct Hnd as (_ & Hdisj & _).
      intros Hin. apply (Hdisj s Hin). left. }
    assert (Hstep : gl_programs (glAttachShader pr s ls) =
                    <[pr := Program (pre ++ [s]) b]> (gl_programs ls)).
    { unfold glAttachShader. cbn [gl_programs]. rewrite Hpr, Ho.
      cbn [attached linked]. now rewrite bool_decide_eq_false_2. }
    destruct (IH (pre ++ [s]) b (glAttachShader pr s ls)) as (Hp & Hd & Hf).
    + rewrite Hstep. apply lookup_insert_eq.
    + now rewrite <- app_assoc.
    + intros s' Hs'. apply Hex. now right.
    + rewrite Hp, Hd, Hf, Hstep, insert_insert_eq, <- app_assoc.
      split; [reflexivity|]. split; reflexivity.
Qed.

Lemma delete_all (shs : list Z) :
  forall ls : Linker.state,
    gl_programs (fold_left (fun ls s => glDeleteShader s ls) shs ls) = gl_programs ls /\
    driver (fold_left (fun ls s => glDeleteShader s ls) shs ls) = driver ls /\
    (forall s, s ∈ flagged ls ->
               s ∈ flagged (fold_left (fun ls s => glDeleteShader s ls) shs ls)) /\
    (forall s, In s shs -> is_Some (shaders (driver ls) !! s) ->
               s ∈ flagged (fold_left (fun ls s => glDeleteShader s ls) shs ls)).
Proof.
  induction shs as [|s shs IH]; intros ls; cbn [fold_left].
  - split; [reflexivity|]. split; [reflexivity|]. split; [auto|]. intros s [].
  - destruct (IH (glDeleteShader s ls)) as (Hp & Hd & Hmono & Hin).
    rewrite Hp, Hd. split; [reflexivity|]. split; [reflexivity|].
    assert (Hkeep : forall x, x ∈ flagged ls -> x ∈ flagged (glDeleteShader s ls)).
    { intros x Hx. unfold glDeleteShader. cbn [flagged].
      destruct (shaders (driver ls) !! s); [apply elem_of_union_r|]; exact Hx. }
    split; [intros x Hx; apply Hmono, Hkeep, Hx|].
    intros x [<- | Hx] Hex.
    + apply Hmono. unfold glDeleteShader. cbn [flagged].
      destruct Hex as [o ->]. apply elem_of_union_l, elem_of_singleton. reflexivity.
    + apply Hin; [exact Hx | exact Hex].
Qed.

(** X8: with no files at all, [createShaderProgram] still creates and
    links a program; whether it returns is the linker's verdict on the
    empty set of shaders.  If it returns, the program has nothing
    attached. *)
Theorem createShaderProgram_no_files (h : Heap) (ls : Linker.state) :
  match createShaderProgram oob readFile glsl_compiles glsl_links [] h ls with
  | Ok (sp, h', ls') =>
      glsl_links [] = true /\
      exists pr,
        programs h' !! sp = Some (mkShaderProgram pr) /\
        gl_programs ls' !! pr = Some (Program [] true) /\
        driver ls' = driver ls
  | Throw e =>
      glsl_links [] = false /\ e = runtime_error (lit "Failed to link program")
  | _ => False
  end.
Proof.
  unfold createShaderProgram. cbn [compile_files bind fold_left].
  unfold glCreateProgram. cbn [gl_programs driver flagged link_log].
  set (pr := fresh ({[0]} ∪ dom (gl_programs ls) ∪ dom (shaders (driver ls)))).
  unfold glLinkProgram, glGetProgramiv_LINK_STATUS.
  cbn [gl_programs driver flagged link_log].
  rewrite (lookup_insert_eq (gl_programs ls) pr). cbn [attached linked].
  rewrite lookup_insert_eq. cbn [linked].
  change (omap _ []) with (@nil Platform.shader).
  destruct (glsl_links []); cbn [Z.eqb].
  - split; [reflexivity|]. eexists.
    split; [apply lookup_insert_eq|]. split; [apply lookup_insert_eq | reflexivity].
  - split; reflexivity.
Qed.

(** X9: when [createShaderProgram] returns, the new [ShaderProgram] holds
    the name of a linked program to which one shader per file is attached,
    in the order of the files: the shader in the place of a file is
    compiled, has the stage type that the header of that file names and
    the body of that file, up to its first zero byte, as its source, and
    is flagged for deletion; the shaders are distinct and none is the
    program. *)
Theorem createShaderProgram_links_all (files : list cstring) (h : Heap)
    (ls : Linker.state) :
  (forall p, In p files -> size (readFile p) < npos) ->
  match createShaderProgram oob readFile glsl_compiles glsl_links files h ls with
  | Ok (sp, h', ls') =>
      exists pr shs,
        sp <> null /\ programs h !! sp = None /\
        programs h' = <[sp := mkShaderProgram pr]> (programs h) /\
        gl_programs ls' !! pr = Some (Program shs true) /\
        NoDup shs /\ pr <> 0 /\ ~ In pr shs /\
        Forall2 (fun p s =>
                   s ∈ flagged ls' /\
                   exists g body src,
                     shader_source (readFile p) g body /\ cut_at_zero body src /\
                     shaders (driver ls') !! s =
                     Some (Shader (stage_type g) src true))
                files shs
  | _ => True
  end.
Proof.
  intros Hsize. unfold createShaderProgram.
  destruct (compile_files oob readFile glsl_compiles files [] (driver ls))
    as [[shs st]| | |] eqn:Ec; cbn [bind]; try exact I.
  destruct (compile_files_ok files [] (driver ls) shs st Ec)
    as (new_shs & Heq & Hlen & Hnd & Hnew & _).
  cbn [app] in Heq. subst new_shs.
  destruct (compile_files_sources files Hsize [] (driver ls) shs st Ec)
    as (shs' & Heq & Hsrc).
  cbn [app] in Heq. subst shs'.
  unfold glCreateProgram. cbn [gl_programs driver flagged link_log].
  set (pr := fresh ({[0]} ∪ dom (gl_programs ls) ∪ dom (shaders st))).
  assert (Hpr : pr <> 0 /\ gl_programs ls !! pr = None /\ shaders st !! pr = None).
  { pose proof (is_fresh ({[0]} ∪ dom (gl_programs ls) ∪ dom (shaders st))) as Hf.
    fold pr in Hf. rewrite !not_elem_of_union, not_elem_of_singleton in Hf.
    destruct Hf as [[H0 H1] H2].
    split; [exact H0|]. split; apply not_elem_of_dom; assumption. }
  destruct Hpr as (Hpr0 & Hprnew & Hprsh).
  set (ls1 := Linker.State st (<[pr := Program [] false]> (gl_programs ls))
                (flagged ls) (link_log ls ++ [LinkCall.CreateProgram])).
  destruct (attach_all pr shs [] false ls1) as (Hp & Hd & Hf).
  { apply lookup_insert_eq. }
  { exact Hnd. }
  { intros s Hs. destruct (Hnew s Hs) as (_ & _ & o & Ho & _). now exists o. }
  cbn [app] in Hp.
  set (ls2 := fold_left (fun ls s => glAttachShader pr s ls) shs ls1) in *.
  unfold glLinkProgram, glGetProgramiv_LINK_STATUS.
  cbn [gl_programs driver flagged link_log].
  rewrite Hp, (lookup_insert_eq (gl_programs ls1) pr). cbn [attached linked].
  rewrite lookup_insert_eq. cbn [linked].
  destruct (glsl_links (omap (fun sh => shaders (driver ls2) !! sh) shs));
    cbn [Z.eqb]; [|exact I].
  match goal with
  | |- context [fold_left (fun ls s => glDeleteShader s ls) shs ?l] =>
      set (lsl := l) in *
  end.
  destruct (delete_all shs lsl) as (Hdp & Hdd & _ & Hdf).
  assert (Hdl : driver lsl = st).
  { unfold lsl. cbn [driver]. exact Hd. }
  assert (Hflag : forall s, In s shs ->
            s ∈ flagged (fold_left (fun ls s => glDeleteShader s ls) shs lsl)).
  { intros s Hs. destruct (Hnew s Hs) as (_ & _ & o & Ho & _).
    apply Hdf; [exact Hs|]. rewrite Hdl. now exists o. }
  destruct (new_fresh_programs h) as [Hspnew Hspnull].
  exists pr, shs.
  split; [exact Hspnull|]. split; [exact Hspnew|]. split; [reflexivity|].
  split.
  { rewrite Hdp. unfold lsl. cbn [gl_programs]. rewrite insert_insert_eq.
    apply lookup_insert_eq. }
  split; [exact Hnd|]. split; [exact Hpr0|].
  split.
  { intros Hin. destruct (Hnew pr Hin) as (_ & _ & o & Ho & _). congruence. }
  rewrite Hdd, Hdl.
  revert Hflag.
  generalize (fold_left (fun ls s => glDeleteShader s ls) shs lsl).
  intros lsd Hflag.
  clear - Hsrc Hflag. induction Hsrc as [|p s files shs Hps _ IH]; constructor.
  - split; [apply Hflag; now left | exact Hps].
  - apply IH. intros s' Hs'. apply Hflag. now right.
Qed.

End Programs.

Lemma createShaderProgram_bad_header_witness :
  In (lit "absent.glsl") [lit "test.glsl"; lit "absent.glsl"] /\
  (forall p, In p [lit "test.glsl"; lit "absent.glsl"] -> size (Fixtures.files p) < npos) /\
  ~ has_header (Fixtures.files (lit "absent.glsl")) /\
  exists e,
    createShaderProgram "000" Fixtures.files Fixtures.accepts links
      [lit "test.glsl"; lit "absent.glsl"] Fixtures.empty_heap no_programs = Throw e.
Proof.
  assert (H1 : In (lit "absent.glsl") [lit "test.glsl"; lit "absent.glsl"])
    by (right; left; reflexivity).
  assert (H2 : forall p, In p [lit "test.glsl"; lit "absent.glsl"] ->
                         size (Fixtures.files p) < npos).
  { intros p [<- | [<- | []]]; reflexivity. }
  assert (H3 : ~ has_header (Fixtures.files (lit "absent.glsl"))).
  { intros (g & X & HX & _). discriminate HX. }
  split; [exact H1|]. split; [exact H2|]. split; [exact H3|].
  apply (createShaderProgram_bad_header "000" Fixtures.files Fixtures.accepts links
           [lit "test.glsl"; lit "absent.glsl"] (lit "absent.glsl")
           Fixtures.empty_heap no_programs H1 H2 H3).
Defined.

Lemma createShaderProgram_links_all_witness :
  (forall p, In p [lit "test.glsl"; lit "test.glsl"] -> size (Fixtures.files p) < npos) /\
  exists sp h' ls',
    createShaderProgram "000" Fixtures.files Fixtures.accepts links
      [lit "test.glsl"; lit "test.glsl"] Fixtures.empty_heap no_programs =
    Ok (sp, h', ls') /\
    exists pr shs,
      sp <> null /\ programs Fixtures.empty_heap !! sp = None /\
      programs h' = <[sp := mkShaderProgram pr]> (programs Fixtures.empty_heap) /\
      gl_programs ls' !! pr = Some (Program shs true) /\
      NoDup shs /\ pr <> 0 /\ ~ In pr shs /\
      Forall2 (fun p s =>
                 s ∈ flagged ls' /\
                 exists g body src,
                   shader_source (Fixtures.files p) g body /\ cut_at_zero body src /\
                   shaders (driver ls') !! s = Some (Shader (stage_type g) src true))
              [lit "test.glsl"; lit "test.glsl"] shs.
Proof.
  assert (Hsize : forall p, In p [lit "test.glsl"; lit "test.glsl"] ->
                            size (Fixtures.files p) < npos).
  { intros p [<- | [<- | []]]; reflexivity. }
  split; [exact Hsize|].
  pose proof (createShaderProgram_links_all "000" Fixtures.files Fixtures.accepts links
                [lit "test.glsl"; lit "test.glsl"] Fixtures.empty_heap no_programs
                Hsize) as H.
  destruct (createShaderProgram "000" Fixtures.files Fixtures.accepts links
              [lit "test.glsl"; lit "test.glsl"] Fixtures.empty_heap no_programs)
    as [[[sp h'] ls']| | |] eqn:E;
    [|vm_compute in E; discriminate E..].
  exists sp, h', ls'. split; [reflexivity | exact H].
Defined.

End ShaderMore.

(** * Further facts about the matrices *)

Module MatrixMore.

Import Glm Game Spec GlmFacts MatrixFacts.

Local Open Scope R_scope.

(** X10: a transform that is neither rotated nor scaled has the
    translation by its position as its model matrix, so that a vertex [v]
    of its mesh is drawn at [v + position]. *)
Theorem createModelMatrix_unrotated_unscaled (p : vec3) (v : vec4) :
  createModelMatrix (mkTransform p (Quat 1 0 0 0) (V3 1 1 1)) = translation_matrix p /\
  mul_mv (createModelMatrix (mkTransform p (Quat 1 0 0 0) (V3 1 1 1))) v =
  V4 (x4 v + x3 p * w4 v) (y4 v + y3 p * w4 v) (z4 v + z3 p * w4 v) (w4 v).
Proof.
  assert (H : createModelMatrix (mkTransform p (Quat 1 0 0 0) (V3 1 1 1))
              = translation_matrix p).
  { destruct p. cbv [createModelMatrix rotate_m4 t_position t_rotation t_scale].
    entrywise. }
  split; [exact H|]. rewrite H. apply translation_apply.
Qed.

(** X11: the model matrix of a transform is the matrix that scales, then
    rotates, then translates, not by the position, but by the position
    scaled and rotated: an object whose transform has position [p] is
    drawn at [R (S p)]. *)
Theorem createModelMatrix_moves_by_transformed_position (t : Transform) :
  createModelMatrix t =
  mul_mm (translation_matrix
            (vec3_of_vec4
               (mul_mv (mul_mm (rotation_matrix (t_rotation t))
                               (scaling_matrix (t_scale t)))
                       (vec4_of_vec3 (t_position t) 1))))
         (mul_mm (rotation_matrix (t_rotation t)) (scaling_matrix (t_scale t))).
Proof.
  rewrite createModelMatrix_product.
  destruct t as [[px py pz] [w x y z] [sx sy sz]].
  cbv [t_position t_rotation t_scale]. entrywise.
Qed.

(** X12: the model matrix keeps the fourth component of a vector, and on
    a direction, whose fourth component is 0, the position of the
    transform has no effect. *)
Theorem createModelMatrix_affine (t : Transform) (v : vec4) (x y z : R) :
  w4 (mul_mv (createModelMatrix t) v) = w4 v /\
  mul_mv (createModelMatrix t) (V4 x y z 0) =
  mul_mv (mul_mm (rotation_matrix (t_rotation t)) (scaling_matrix (t_scale t)))
         (V4 x y z 0).
Proof.
  rewrite createModelMatrix_product.
  destruct t as [[px py pz] [qw0 qx0 qy0 qz0] [sx sy sz]], v as [vx vy vz vw].
  cbv [t_position t_rotation t_scale]. split.
  - cbv [mul_mm mul_mv toMat4 translation_matrix scaling_matrix rotation_matrix
         add4 muls4 col0 col1 col2 col3 x4 y4 z4 w4 x3 y3 z3 qw qx qy qz]. ring.
  - entrywise.
Qed.

End MatrixMore.

(** * Further facts about the camera update *)

Module CameraMore.

Import Text Glm Platform Game Spec Notions GlmFacts CameraFacts.

Local Open Scope R_scope.

Lemma trig_one (x : R) : sin x * sin x + cos x * cos x = 1.
Proof. pose proof (sin2_cos2 x) as H. unfold Rsqr in H. exact H. Qed.

Lemma back_half_step : radians (-0.5) * 0.5 = - half_step.
Proof. unfold half_step, radians. lra. Qed.

Lemma dot_mul (p q : quat) : dot (mul_qq p q) (mul_qq p q) = dot p p * dot q q.
Proof. destruct p, q. cbv [dot mul_qq qw qx qy qz]. ring. Qed.

Lemma unit_mul (p q : quat) : unit p -> unit q -> unit (mul_qq p q).
Proof. unfold unit. intros Hp Hq. rewrite dot_mul, Hp, Hq. ring. Qed.

Lemma inverse_unit (q : quat) : unit q -> inverse q = conjugate q.
Proof.
  unfold unit, inverse, qdiv. intros ->. destruct q.
  cbv [conjugate qw qx qy qz]. apply Quat_eq; field.
Qed.

Lemma unit_angleAxis (a : R) (v : vec3) :
  x3 v * x3 v + y3 v * y3 v + z3 v * z3 v = 1 -> unit (angleAxis a v).
Proof.
  intros Hv. pose proof (trig_one (a * 0.5)) as Ht. destruct v as [x y z].
  cbv [unit dot angleAxis qw qx qy qz x3 y3 z3] in *. nsatz.
Qed.

(** The parts of [steer]: the movement keys leave the look direction, the
    arrow keys leave the position. *)
Lemma look_move (keys : Z -> Z) (key : Z) (d : vec3) (c : Camera) :
  lookDirection (when_held keys key (move d) c) = lookDirection c.
Proof. unfold when_held. now destruct (keys key =? 0)%Z. Qed.

Lemma look_move_back (keys : Z -> Z) (key : Z) (d : vec3) (c : Camera) :
  lookDirection (when_held keys key (move_back d) c) = lookDirection c.
Proof. unfold when_held. now destruct (keys key =? 0)%Z. Qed.

Lemma look_turn (keys : Z -> Z) (key : Z) (a : quat) (c : Camera) :
  lookDirection (when_held keys key (turn a) c) = turned keys key a (lookDirection c).
Proof. unfold when_held, turned. now destruct (keys key =? 0)%Z. Qed.

Lemma position_turn (keys : Z -> Z) (key : Z) (a : quat) (c : Camera) :
  cam_position (when_held keys key (turn a) c) = cam_position c.
Proof. unfold when_held. now destruct (keys key =? 0)%Z. Qed.

Lemma steer_look (keys : Z -> Z) (c : Camera) :
  lookDirection (steer keys c) =
  look_after keys (right_vector (lookDirection c)) (lookDirection c).
Proof.
  unfold steer, look_after. cbv zeta.
  rewrite !look_turn, !look_move_back, !look_move, !look_move_back, !look_move.
  reflexivity.
Qed.

Lemma turned_off (keys : Z -> Z) (key : Z) (a q : quat) :
  keys key = 0%Z -> turned keys key a q = q.
Proof. intros H. unfold turned. now rewrite H. Qed.

Lemma turned_on (keys : Z -> Z) (key : Z) (a q : quat) :
  keys key <> 0%Z -> turned keys key a q = mul_qq q a.
Proof. intros H. unfold turned. destruct (keys key =? 0)%Z eqn:E; [lia | reflexivity]. Qed.

(** X14: the movement keys never turn the camera: when no arrow key is
    held, the look direction after [updateCamera] is the look direction
    before, whatever the other keys are. *)
Theorem updateCamera_moving_does_not_turn (key_input : nat -> Z -> Z)
    (camera : Camera) (st : state) :
  (forall k, In k (yaw_keys ++ pitch_keys) -> key_input (polls st) k = 0%Z) ->
  lookDirection (fst (updateCamera key_input camera st)) = lookDirection camera.
Proof.
  intros H. rewrite updateCamera_steer. cbn [fst]. rewrite steer_look.
  unfold look_after. rewrite !turned_off; try reflexivity; apply H; simpl; tauto.
Qed.

Lemma updateCamera_moving_does_not_turn_witness :
  (forall k, In k (yaw_keys ++ pitch_keys) ->
             Fixtures.only_key GLFW_KEY_W (polls Fixtures.no_calls) k = 0%Z) /\
  lookDirection (fst (updateCamera (Fixtures.only_key GLFW_KEY_W) Fixtures.rolled_camera
                                   Fixtures.no_calls))
  = lookDirection Fixtures.rolled_camera.
Proof.
  assert (H : forall k, In k (yaw_keys ++ pitch_keys) ->
                        Fixtures.only_key GLFW_KEY_W (polls Fixtures.no_calls) k = 0%Z).
  { intros k Hk. simpl in Hk. destruct Hk as [<-|[<-|[<-|[<-|[]]]]]; reflexivity. }
  split; [exact H|].
  apply (updateCamera_moving_does_not_turn (Fixtures.only_key GLFW_KEY_W)
           Fixtures.rolled_camera Fixtures.no_calls H).
Defined.

(** X15: the arrow keys never move the camera: when no movement key is
    held, the position after [updateCamera] is the position before. *)
Theorem updateCamera_turning_does_not_move (key_input : nat -> Z -> Z)
    (camera : Camera) (st : state) :
  (forall k, In k movement_keys -> key_input (polls st) k = 0%Z) ->
  cam_position (fst (updateCamera key_input camera st)) = cam_position camera.
Proof.
  intros H. rewrite updateCamera_steer. cbn [fst]. unfold steer. cbv zeta.
  rewrite !position_turn.
  rewrite !when_held_off; try reflexivity; apply H; simpl; tauto.
Qed.

Lemma updateCamera_turning_does_not_move_witness :
  (forall k, In k movement_keys ->
             Fixtures.only_key GLFW_KEY_LEFT (polls Fixtures.no_calls) k = 0%Z) /\
  cam_position (fst (updateCamera (Fixtures.only_key GLFW_KEY_LEFT)
                                  Fixtures.start_camera Fixtures.no_calls))
  = cam_position Fixtures.start_camera.
Proof.
  assert (H : forall k, In k movement_keys ->
                        Fixtures.only_key GLFW_KEY_LEFT (polls Fixtures.no_calls) k = 0%Z).
  { intros k Hk. simpl in Hk. destruct Hk as [<-|[<-|[<-|[<-|[<-|[<-|[]]]]]]]; reflexivity. }
  split; [exact H|].
  apply (updateCamera_turning_does_not_move (Fixtures.only_key GLFW_KEY_LEFT)
           Fixtures.start_camera Fixtures.no_calls H).
Defined.

(** X16: with A and D held together and no other movement key, the
    height of the camera changes by 0.05 times the height of its right
    vector: the step of A has no vertical part, the step of D has one. *)
Theorem updateCamera_both_strafe_keys (key_input : nat -> Z -> Z) (camera : Camera)
    (st : state) :
  key_input (polls st) GLFW_KEY_A <> 0%Z ->
  key_input (polls st) GLFW_KEY_D <> 0%Z ->
  (forall k, In k [GLFW_KEY_W; GLFW_KEY_S; GLFW_KEY_Q; GLFW_KEY_E] ->
             key_input (polls st) k = 0%Z) ->
  y3 (cam_position (fst (updateCamera key_input camera st))) =
  y3 (cam_position camera) + 0.05 * y3 (right_of camera).
Proof.
  intros HA HD Hoff. rewrite updateCamera_steer. cbn [fst].
  unfold steer. cbv zeta. rewrite !position_turn.
  rewrite (when_held_off _ GLFW_KEY_E) by (apply Hoff; simpl; tauto).
  rewrite (when_held_off _ GLFW_KEY_Q) by (apply Hoff; simpl; tauto).
  rewrite (when_held_on _ GLFW_KEY_D) by exact HD.
  rewrite (when_held_off _ GLFW_KEY_S) by (apply Hoff; simpl; tauto).
  rewrite (when_held_on _ GLFW_KEY_A) by exact HA.
  rewrite (when_held_off _ GLFW_KEY_W) by (apply Hoff; simpl; tauto).
  destruct camera as [[px py pz] q]. destruct (right_of _) as [rx ry rz].
  cbv [move move_back cam_position lookDirection horizontal add3 sub3 smul3 x3 y3 z3].
  ring.
Qed.

Lemma updateCamera_both_strafe_keys_witness :
  two_keys GLFW_KEY_A GLFW_KEY_D (polls Fixtures.no_calls) GLFW_KEY_A <> 0%Z /\
  two_keys GLFW_KEY_A GLFW_KEY_D (polls Fixtures.no_calls) GLFW_KEY_D <> 0%Z /\
  (forall k, In k [GLFW_KEY_W; GLFW_KEY_S; GLFW_KEY_Q; GLFW_KEY_E] ->
             two_keys GLFW_KEY_A GLFW_KEY_D (polls Fixtures.no_calls) k = 0%Z) /\
  y3 (cam_position (fst (updateCamera (two_keys GLFW_KEY_A GLFW_KEY_D)
                                      Fixtures.rolled_camera Fixtures.no_calls))) =
  y3 (cam_position Fixtures.rolled_camera) + 0.05 * y3 (right_of Fixtures.rolled_camera).
Proof.
  assert (H : forall k, In k [GLFW_KEY_W; GLFW_KEY_S; GLFW_KEY_Q; GLFW_KEY_E] ->
                        two_keys GLFW_KEY_A GLFW_KEY_D (polls Fixtures.no_calls) k = 0%Z).
  { intros k Hk. simpl in Hk. destruct Hk as [<-|[<-|[<-|[<-|[]]]]]; reflexivity. }
  split; [discriminate|]. split; [discriminate|]. split; [exact H|].
  apply (updateCamera_both_strafe_keys (two_keys GLFW_KEY_A GLFW_KEY_D)
           Fixtures.rolled_camera Fixtures.no_calls);
    [discriminate | discriminate | exact H].
Defined.

Lemma half_step_value : half_step = PI / 720.
Proof. unfold half_step, radians. lra. Qed.

Lemma half_step_trig_positive : 0 < sin half_step /\ 0 < cos half_step.
Proof.
  rewrite half_step_value. pose proof PI_RGT_0 as Hpi. split.
  - apply sin_gt_0; lra.
  - apply cos_gt_0; lra.
Qed.

(** X21: a yaw key and a pitch key held together roll the camera: from a
    look direction that is the identity, whose right vector is level, one
    update with LEFT and UP held and RIGHT and DOWN not held leaves the
    right vector with the height [4 (cos h sin h)^2], [h] being a quarter
    of a degree, which is positive. *)
Theorem updateCamera_yaw_with_pitch_rolls (key_input : nat -> Z -> Z) (p : vec3)
    (st : state) :
  key_input (polls st) GLFW_KEY_LEFT <> 0%Z ->
  key_input (polls st) GLFW_KEY_UP <> 0%Z ->
  key_input (polls st) GLFW_KEY_RIGHT = 0%Z ->
  key_input (polls st) GLFW_KEY_DOWN = 0%Z ->
  y3 (right_of (mkCamera p (Quat 1 0 0 0))) = 0 /\
  y3 (right_of (fst (updateCamera key_input (mkCamera p (Quat 1 0 0 0)) st))) =
  4 * (cos half_step * sin half_step) * (cos half_step * sin half_step) /\
  0 < y3 (right_of (fst (updateCamera key_input (mkCamera p (Quat 1 0 0 0)) st))).
Proof.
  intros HL HU HR HD.
  assert (Hr0 : right_vector (Quat 1 0 0 0) = V3 1 0 0).
  { unfold right_vector. rewrite inverse_unit by (cbv [unit dot qw qx qy qz]; ring).
    cbv [mul_qv3 conjugate cross add3 muls3 x3 y3 z3 qw qx qy qz]. apply V3_eq; ring. }
  assert (Hy : y3 (right_of (fst (updateCamera key_input (mkCamera p (Quat 1 0 0 0)) st)))
               = 4 * (cos half_step * sin half_step) * (cos half_step * sin half_step)).
  { rewrite updateCamera_steer. cbn [fst].
    change (right_of (steer (key_input (polls st)) (mkCamera p (Quat 1 0 0 0))))
      with (right_vector (lookDirection (steer (key_input (polls st))
                                               (mkCamera p (Quat 1 0 0 0))))).
    rewrite steer_look. cbn [lookDirection]. unfold look_after.
    rewrite (turned_off _ GLFW_KEY_DOWN) by exact HD.
    rewrite (turned_on _ GLFW_KEY_UP) by exact HU.
    rewrite (turned_off _ GLFW_KEY_RIGHT) by exact HR.
    rewrite (turned_on _ GLFW_KEY_LEFT) by exact HL.
    rewrite Hr0.
    assert (Hunit : unit (mul_qq (mul_qq (Quat 1 0 0 0)
                                         (angleAxis (radians (-0.5)) (V3 0 1 0)))
                                 (angleAxis (radians (-0.5)) (V3 1 0 0)))).
    { apply unit_mul; [apply unit_mul|].
      - cbv [unit dot qw qx qy qz]. ring.
      - apply unit_angleAxis. cbv [x3 y3 z3]. ring.
      - apply unit_angleAxis. cbv [x3 y3 z3]. ring. }
    unfold right_vector. rewrite inverse_unit by exact Hunit.
    unfold angleAxis. rewrite back_half_step, sin_neg, cos_neg.
    pose proof (trig_one half_step) as Ht.
    set (c := cos half_step) in *. set (s := sin half_step) in *.
    cbv [mul_qv3 mul_qq conjugate cross add3 muls3 x3 y3 z3 qw qx qy qz]. nsatz. }
  split.
  - change (right_of (mkCamera p (Quat 1 0 0 0))) with (right_vector (Quat 1 0 0 0)).
    now rewrite Hr0.
  - split; [exact Hy|]. rewrite Hy.
    destruct half_step_trig_positive as [Hs Hc].
    assert (0 < cos half_step * sin half_step) by (apply Rmult_lt_0_compat; assumption).
    nra.
Qed.

Lemma updateCamera_yaw_with_pitch_rolls_witness :
  two_keys GLFW_KEY_LEFT GLFW_KEY_UP (polls Fixtures.no_calls) GLFW_KEY_LEFT <> 0%Z /\
  two_keys GLFW_KEY_LEFT GLFW_KEY_UP (polls Fixtures.no_calls) GLFW_KEY_UP <> 0%Z /\
  two_keys GLFW_KEY_LEFT GLFW_KEY_UP (polls Fixtures.no_calls) GLFW_KEY_RIGHT = 0%Z /\
  two_keys GLFW_KEY_LEFT GLFW_KEY_UP (polls Fixtures.no_calls) GLFW_KEY_DOWN = 0%Z /\
  y3 (right_of (mkCamera (V3 0 0 0) (Quat 1 0 0 0))) = 0 /\
  y3 (right_of (fst (updateCamera (two_keys GLFW_KEY_LEFT GLFW_KEY_UP)
                                  (mkCamera (V3 0 0 0) (Quat 1 0 0 0)) Fixtures.no_calls))) =
  4 * (cos half_step * sin half_step) * (cos half_step * sin half_step) /\
  0 < y3 (right_of (fst (updateCamera (two_keys GLFW_KEY_LEFT GLFW_KEY_UP)
                                      (mkCamera (V3 0 0 0) (Quat 1 0 0 0))
                                      Fixtures.no_calls))).
Proof.
  split; [discriminate|]. split; [discriminate|].
  split; [reflexivity|]. split; [reflexivity|].
  apply (updateCamera_yaw_with_pitch_rolls (two_keys GLFW_KEY_LEFT GLFW_KEY_UP)
           (V3 0 0 0) Fixtures.no_calls);
    [discriminate | discriminate | reflexivity | reflexivity].
Defined.

End CameraMore.

(** * Further facts about game objects *)

Module SceneMore.

Import Text Glm Platform Game Spec Notions TextFacts GlmFacts CloneFacts.

Local Open Scope Z_scope.

(** X22: [createGameObject] returns a pointer that is not null and was
    not in use, to an object with the given mesh and material; the objects
    that existed stay as they were, and the new object has the identity as
    its model matrix. *)
Theorem createGameObject_new (m mt : addr) (h : Heap) :
  let '(go, h') := createGameObject m mt h in
  go <> null /\ objects h !! go = None /\
  (exists g, objects h' !! go = Some g /\
             mesh (meshRenderer g) = m /\ material (meshRenderer g) = mt /\
             createModelMatrix (transform g) = identity) /\
  (forall p g, objects h !! p = Some g -> objects h' !! p = Some g) /\
  meshes h' = meshes h /\ materials h' = materials h /\ programs h' = programs h.
Proof.
  unfold createGameObject. destruct (new_fresh (objects h)) as [Hnone Hnull].
  split; [exact Hnull|]. split; [exact Hnone|]. split.
  - eexists. split; [apply lookup_insert_eq|]. cbn [meshRenderer mesh material transform].
    split; [reflexivity|]. split; [reflexivity|].
    cbv [createModelMatrix rotate_m4 default_Transform t_position t_rotation t_scale].
    entrywise.
  - split; [|auto]. intros p g Hp. cbn [objects set_objects].
    rewrite lookup_insert_ne; [exact Hp|]. intros <-. congruence.
Qed.

(** X23: with a prefab pointer that points to no object,
    [createGameObjects] returns the empty list and the heap unchanged for a
    count of zero, as the loop body never runs, and is undefined for every
    other count. *)
Theorem createGameObjects_dangling_prefab (prefab : addr) (count : nat) (h : Heap) :
  objects h !! prefab = None ->
  createGameObjects prefab count h =
  match count with
  | O => Ok ([], h)
  | S _ => Undefined
  end.
Proof.
  intros Hnone. unfold createGameObjects. destruct count as [|count].
  - reflexivity.
  - cbn [clone_loop]. change (wrap 0) with 0.
    destruct (0 <? Z.of_nat (S count)) eqn:E; [|apply Z.ltb_ge in E; lia].
    unfold clone. now rewrite Hnone.
Qed.

Lemma createGameObjects_dangling_prefab_witness :
  objects Fixtures.scene !! 9%N = None /\
  createGameObjects 9%N 3 Fixtures.scene =
  match 3%nat with
  | O => Ok ([], Fixtures.scene)
  | S _ => Undefined
  end.
Proof.
  split; [reflexivity|].
  apply (createGameObjects_dangling_prefab 9%N 3 Fixtures.scene). reflexivity.
Defined.

(** The loop allocates one object per iteration and nothing else. *)
Lemma clone_loop_alloc (prefab : addr) (g : GameObject) (count : nat) :
  Z.of_nat count <= INT_MAX ->
  forall (k i : nat) (gos : list addr) (h : Heap) (fuel : nat) (gos' : list addr)
         (h' : Heap),
    (i + k = count)%nat -> (k <= fuel)%nat -> length gos = count ->
    objects h !! prefab = Some g ->
    clone_loop fuel prefab (Z.of_nat count) (Z.of_nat i) gos h = Ok (gos', h') ->
    base.size (objects h') = (base.size (objects h) + k)%nat /\
    forall p, is_Some (objects h' !! p) ->
              is_Some (objects h !! p) \/ exists j, (i <= j)%nat /\ gos' !! j = Some p.
Proof.
  intros Hmax. assert (Hm : INT_MAX = 2147483647) by reflexivity.
  induction k as [|k IH]; intros i gos h fuel gos' h' Hik Hfuel Hlen Hpre Hrun.
  - assert (i = count) as -> by lia.
    assert (clone_loop fuel prefab (Z.of_nat count) (Z.of_nat count) gos h = Ok (gos, h))
      as Hstop.
    { destruct fuel; simpl; rewrite wrap_small_int by lia; now rewrite Z.ltb_irrefl. }
    rewrite Hstop in Hrun. injection Hrun as <- <-.
    split; [lia | auto].
  - destruct fuel as [|fuel]; [lia|].
    cbn [clone_loop] in Hrun. rewrite wrap_small_int in Hrun by lia.
    destruct (Z.of_nat i <? Z.of_nat count) eqn:Elt; [|lia].
    rewrite (clone_spec prefab g h Hpre) in Hrun. cbn [bind] in Hrun.
    destruct (Z.of_nat i =? INT_MAX) eqn:Emax; [lia|].
    rewrite Nat2Z.id in Hrun.
    destruct (new_fresh (objects h)) as [Hfresh Hnull].
    set (p := new (objects h)) in *.
    replace (Z.of_nat i + 1) with (Z.of_nat (S i)) in Hrun by lia.
    assert (Hne : p <> prefab) by (intros ->; congruence).
    destruct (IH (S i) (<[i := p]> gos) (set_objects (<[p := g]> (objects h)) h)
                fuel gos' h') as [Hsize Hdom];
      [lia | lia | now rewrite length_insert
       | cbn [objects set_objects]; now rewrite lookup_insert_ne | exact Hrun |].
    cbn [objects set_objects] in Hsize, Hdom.
    rewrite map_size_insert_None in Hsize by exact Hfresh.
    split; [lia|].
    intros q Hq. destruct (Hdom q Hq) as [Hin | (j & Hj & Hgj)].
    + destruct (decide (q = p)) as [->|Hqp].
      * right. exists i. split; [lia|].
        destruct (clone_loop_spec prefab g count Hmax k (S i) (<[i := p]> gos)
                    (set_objects (<[p := g]> (objects h)) h) fuel)
          as (gos2 & h2 & Hrun2 & _ & HA & _);
          [lia | lia | now rewrite length_insert
           | cbn [objects set_objects]; now rewrite lookup_insert_ne |].
        rewrite Hrun in Hrun2. injection Hrun2 as <- <-.
        rewrite HA by lia. apply list_lookup_insert_eq. lia.
      * left. now rewrite lookup_insert_ne in Hin.
    + right. exists j. split; [lia | exact Hgj].
Qed.

(** X24: [createGameObjects] allocates exactly [count] objects: the
    objects of the heap afterwards are those of the heap before and the
    clones, and the other stores are the same. *)
Theorem createGameObjects_allocates (prefab : addr) (count : nat) (h : Heap)
    (g : GameObject) :
  objects h !! prefab = Some g ->
  Z.of_nat count <= INT_MAX ->
  exists gos h',
    createGameObjects prefab count h = Ok (gos, h') /\
    base.size (objects h') = (base.size (objects h) + count)%nat /\
    (forall p, is_Some (objects h' !! p) <-> is_Some (objects h !! p) \/ In p gos) /\
    meshes h' = meshes h /\ materials h' = materials h /\ programs h' = programs h.
Proof.
  intros Hpre Hmax. unfold createGameObjects.
  destruct (clone_loop_spec prefab g count Hmax count 0%nat (replicate count null) h count)
    as (gos & h' & Hrun & Hlen & _ & HB & _ & Hold & Hme & Hma & Hpr);
    [lia | lia | apply length_replicate | exact Hpre |].
  destruct (clone_loop_alloc prefab g count Hmax count 0%nat (replicate count null) h
              count gos h') as [Hsize Hdom];
    [lia | lia | apply length_replicate | exact Hpre | exact Hrun |].
  change (Z.of_nat 0) with 0 in Hrun.
  exists gos, h'. split; [exact Hrun|]. split; [exact Hsize|].
  split; [|auto]. intros p. split.
  - intros Hp. destruct (Hdom p Hp) as [Hin | (j & _ & Hj)]; [now left|].
    right. apply list_elem_of_In, list_elem_of_lookup. eauto.
  - intros [[x Hx] | Hin].
    + exists x. now apply Hold.
    + apply list_elem_of_In, list_elem_of_lookup in Hin. destruct Hin as [j Hj].
      destruct (HB j p) as [_ Hs]; [lia | exact Hj |]. now exists g.
Qed.

Lemma createGameObjects_allocates_witness :
  objects Fixtures.scene !! 1%N = Some Fixtures.prefab /\
  Z.of_nat 10 <= INT_MAX /\
  exists gos h',
    createGameObjects 1%N 10 Fixtures.scene = Ok (gos, h') /\
    base.size (objects h') = (base.size (objects Fixtures.scene) + 10)%nat /\
    (forall p, is_Some (objects h' !! p) <->
               is_Some (objects Fixtures.scene !! p) \/ In p gos) /\
    meshes h' = meshes Fixtures.scene /\ materials h' = materials Fixtures.scene /\
    programs h' = programs Fixtures.scene.
Proof.
  split; [reflexivity|]. split; [discriminate|].
  apply (createGameObjects_allocates 1%N 10 Fixtures.scene Fixtures.prefab).
  - reflexivity.
  - discriminate.
Defined.

End SceneMore.

(** * Further facts about rendering *)

Module RenderMore.

Import Text Glm Platform Game Spec Notions CameraFacts LoopFacts.

Local Open Scope Z_scope.

Section Rendering.

Variable key_input : nat -> Z -> Z.
Variable close_requested : nat -> bool.
Variable uniform_location : Z -> cstring -> Z.


(** X26: with no object to draw, a run of the loop that sees the close
    request after [n] iterations returns, and it has made, for each
    iteration and in this order, the close query, the poll of the events,
    the ten key queries of the camera update, the clear of the colour,
    depth and stencil buffers and the presentation of the frame, and then
    the close query that ends it; the camera is steered once an
    iteration, by the keys held after that iteration's poll. *)
Theorem renderLoop_without_objects (h : Heap) (n : nat) (camera : Camera) (st : state)
    (fuel : nat) :
  (forall i, (i < n)%nat -> close_requested (polls st + i)%nat = false) ->
  close_requested (polls st + n)%nat = true ->
  (n < fuel)%nat ->
  exists st',
    renderLoop key_input close_requested uniform_location fuel [] h camera st =
    Ok (loop_camera key_input n (polls st) camera, st') /\
    log st' = log st ++ idle_loop_calls n /\
    polls st' = (polls st + n)%nat.
Proof.
  revert camera st fuel.
  induction n as [|n IH]; intros camera st fuel Hopen Hclose Hfuel.
  - destruct fuel as [|fuel]; [lia|]. cbn [renderLoop glfwWindowShouldClose].
    rewrite Nat.add_0_r in Hclose. rewrite Hclose.
    eexists. split; [reflexivity|]. split; [reflexivity|]. simpl. lia.
  - destruct fuel as [|fuel]; [lia|]. cbn [renderLoop glfwWindowShouldClose].
    pose proof (Hopen 0%nat ltac:(lia)) as H0. rewrite Nat.add_0_r in H0. rewrite H0.
    rewrite (frame_cases key_input uniform_location [] h camera). cbn [bind polls emit].
    set (camera' := steer (key_input (S (polls st))) camera).
    set (st1 := emit_all idle_frame_calls
                  (set_polls (S (polls st)) (emit Call.WindowShouldClose st))).
    assert (Hp1 : polls st1 = S (polls st)).
    { unfold st1. now rewrite emit_all_polls. }
    destruct (IH camera' st1 fuel) as (st' & Hrun & Hlog & Hpolls).
    + intros i Hi. rewrite Hp1.
      replace (S (polls st) + i)%nat with (polls st + S i)%nat by lia. apply Hopen. lia.
    + rewrite Hp1. replace (S (polls st) + n)%nat with (polls st + S n)%nat by lia.
      exact Hclose.
    + lia.
    + exists st'. split; [|split].
      * rewrite Hrun, Hp1. reflexivity.
      * rewrite Hlog. unfold st1. rewrite emit_all_log.
        cbn [log set_polls emit idle_loop_calls]. now rewrite <- !app_assoc.
      * rewrite Hpolls, Hp1. lia.
Qed.

(** X27: while the window is not asked to close, the loop does not
    return: with no object to draw it goes on for as many iterations as it
    is given, and with an object in the list its first iteration is
    undefined. *)
Theorem renderLoop_while_open (objs : list addr) (h : Heap) (fuel : nat)
    (camera : Camera) (st : state) :
  (0 < fuel)%nat ->
  (forall i, (i < fuel)%nat -> close_requested (polls st + i)%nat = false) ->
  renderLoop key_input close_requested uniform_location fuel objs h camera st =
  match objs with
  | [] => OutOfFuel
  | _ :: _ => Undefined
  end.
Proof.
  intros Hpos. destruct objs as [|go objs].
  - clear Hpos. revert camera st.
    induction fuel as [|fuel IH]; intros camera st Hopen; [reflexivity|].
    cbn [renderLoop glfwWindowShouldClose].
    pose proof (Hopen 0%nat ltac:(lia)) as H0. rewrite Nat.add_0_r in H0. rewrite H0.
    rewrite (frame_cases key_input uniform_location [] h camera).
    cbn [bind polls emit]. apply IH.
    intros i Hi. rewrite emit_all_polls. cbn [polls set_polls].
    replace (S (polls st) + i)%nat with (polls st + S i)%nat by lia. apply Hopen. lia.
  - intros Hopen. destruct fuel as [|fuel]; [lia|].
    cbn [renderLoop glfwWindowShouldClose].
    pose proof (Hopen 0%nat ltac:(lia)) as H0. rewrite Nat.add_0_r in H0. rewrite H0.
    now rewrite frame_cases.
Qed.

End Rendering.


Lemma renderLoop_without_objects_witness :
  (forall i, (i < 2)%nat ->
     Fixtures.close_after 2 (polls Fixtures.no_calls + i)%nat = false) /\
  Fixtures.close_after 2 (polls Fixtures.no_calls + 2)%nat = true /\
  (2 < 3)%nat /\
  exists st',
    renderLoop Fixtures.no_keys (Fixtures.close_after 2) Fixtures.location_zero 3
               [] Fixtures.scene Fixtures.start_camera Fixtures.no_calls =
    Ok (loop_camera Fixtures.no_keys 2 (polls Fixtures.no_calls) Fixtures.start_camera,
        st') /\
    log st' = log Fixtures.no_calls ++ idle_loop_calls 2 /\
    polls st' = (polls Fixtures.no_calls + 2)%nat.
Proof.
  assert (Hopen : forall i, (i < 2)%nat ->
            Fixtures.close_after 2 (polls Fixtures.no_calls + i)%nat = false).
  { intros i Hi. destruct i as [|[|i]]; [reflexivity | reflexivity | lia]. }
  split; [exact Hopen|]. split; [reflexivity|]. split; [lia|].
  apply (renderLoop_without_objects Fixtures.no_keys (Fixtures.close_after 2)
           Fixtures.location_zero Fixtures.scene 2 Fixtures.start_camera
           Fixtures.no_calls 3).
  - exact Hopen.
  - reflexivity.
  - lia.
Defined.

Lemma renderLoop_while_open_witness :
  (0 < 2)%nat /\
  (forall i, (i < 2)%nat ->
     Fixtures.close_after 2 (polls Fixtures.no_calls + i)%nat = false) /\
  renderLoop Fixtures.no_keys (Fixtures.close_after 2) Fixtures.location_zero 2
             [1%N] Fixtures.scene Fixtures.start_camera Fixtures.no_calls =
  match [1%N] with
  | [] => OutOfFuel
  | _ :: _ => Undefined
  end.
Proof.
  assert (Hopen : forall i, (i < 2)%nat ->
            Fixtures.close_after 2 (polls Fixtures.no_calls + i)%nat = false).
  { intros i Hi. destruct i as [|[|i]]; [reflexivity | reflexivity | lia]. }
  split; [lia|]. split; [exact Hopen|].
  apply (renderLoop_while_open Fixtures.no_keys (Fixtures.close_after 2)
           Fixtures.location_zero [1%N] Fixtures.scene 2 Fixtures.start_camera
           Fixtures.no_calls).
  - lia.
  - exact Hopen.
Defined.

End RenderMore.

(** * Further facts about meshes *)

Module MeshMore.

Import Text Glm Platform Game Spec Notions MeshFacts ShaderFacts CloneFacts.

Local Open Scope Z_scope.

Lemma on_vao_buffers (vao : Z) (f : vertex_array -> vertex_array) (st : state) :
  buffers (on_vao vao f st) = buffers st /\
  bound_buffer (on_vao vao f st) = bound_buffer st.
Proof. unfold on_vao. now destruct (vaos st !! vao). Qed.

Lemma glVertexArrayAttribBinding_buffers (vao attribindex bindingindex : Z) (st : state) :
  buffers (glVertexArrayAttribBinding vao attribindex bindingindex st) = buffers st /\
  bound_buffer (glVertexArrayAttribBinding vao attribindex bindingindex st) =
  bound_buffer st.
Proof. apply on_vao_buffers. Qed.

Lemma glVertexArrayAttribFormat_buffers (vao attribindex size type : Z)
    (normalized : bool) (relativeoffset : Z) (st : state) :
  buffers (glVertexArrayAttribFormat vao attribindex size type normalized
             relativeoffset st) = buffers st /\
  bound_buffer (glVertexArrayAttribFormat vao attribindex size type normalized
                  relativeoffset st) = bound_buffer st.
Proof. apply on_vao_buffers. Qed.

Lemma glVertexArrayVertexBuffer_buffers (vao bindingindex buf offset stride : Z)
    (st : state) :
  buffers (glVertexArrayVertexBuffer vao bindingindex buf offset stride st) =
  buffers st /\
  bound_buffer (glVertexArrayVertexBuffer vao bindingindex buf offset stride st) =
  bound_buffer st.
Proof. apply on_vao_buffers. Qed.

Lemma glVertexArrayElementBuffer_buffers (vao buf : Z) (st : state) :
  buffers (glVertexArrayElementBuffer vao buf st) = buffers st /\
  bound_buffer (glVertexArrayElementBuffer vao buf st) = bound_buffer st.
Proof. apply on_vao_buffers. Qed.

Lemma glEnableVertexArrayAttrib_buffers (vao index : Z) (st : state) :
  buffers (glEnableVertexArrayAttrib vao index st) = buffers st /\
  bound_buffer (glEnableVertexArrayAttrib vao index st) = bound_buffer st.
Proof. apply on_vao_buffers. Qed.

Lemma glNamedBufferData_known (buf size : Z) (data : payload) (usage : Z) (st : state)
    (old : buffer) :
  buffers st !! buf = Some old ->
  buffers (glNamedBufferData buf size data usage st) =
  <[buf := Buffer size data usage]> (buffers st).
Proof. intros H. unfold glNamedBufferData. cbn [buffers emit]. now rewrite H. Qed.

Lemma glNamedBufferData_bound (buf size : Z) (data : payload) (usage : Z) (st : state) :
  bound_buffer (glNamedBufferData buf size data usage st) = bound_buffer st.
Proof. unfold glNamedBufferData. cbn [bound_buffer emit]. now destruct (buffers st !! buf). Qed.

(** The names that [createMesh] gets from the driver, and the buffers and
    binding points it leaves. *)
Lemma createMesh_driver (vertices : list Vertex) (indices : list Z)
    (fmt : PrimitiveFormat) (h : Heap) (st : state) :
  exists vao vbo ibo st',
    createMesh vertices indices fmt h st =
    (new (meshes h),
     set_meshes (<[new (meshes h) := mkMesh vertices indices fmt vao vbo ibo]> (meshes h)) h,
     st') /\
    vao = fresh ({[0]} ∪ dom (vaos st)) /\
    vbo = fresh ({[0]} ∪ dom (buffers st)) /\
    ibo = fresh ({[0]} ∪ dom (<[vbo := empty_buffer]> (buffers st))) /\
    vaos st' = <[vao := Vertex_layout sizeof_Vertex vbo ibo]> (vaos st) /\
    buffers st' =
    <[ibo := Buffer (wrap (size_of_list indices * sizeof_uint32_t)) (Words indices)
                    GL_STATIC_DRAW]>
      (<[vbo := Buffer (wrap (size_of_list vertices * sizeof_Vertex))
                       (Floats (concat (map floats_of_Vertex vertices))) GL_STATIC_DRAW]>
         (<[ibo := empty_buffer]> (<[vbo := empty_buffer]> (buffers st)))) /\
    bound_buffer st' =
    <[GL_ELEMENT_ARRAY_BUFFER := ibo]> (<[GL_ARRAY_BUFFER := vbo]> (bound_buffer st)).
Proof.
  unfold createMesh.
  pose proof (glCreateVertexArrays1_vaos st) as H1.
  assert (Hvao : fst (glCreateVertexArrays1 st) = fresh ({[0]} ∪ dom (vaos st)))
    by reflexivity.
  assert (Hb1 : buffers (snd (glCreateVertexArrays1 st)) = buffers st) by reflexivity.
  assert (Hbb1 : bound_buffer (snd (glCreateVertexArrays1 st)) = bound_buffer st)
    by reflexivity.
  destruct (glCreateVertexArrays1 st) as [vao st1]. cbn [fst snd] in H1, Hvao, Hb1, Hbb1.
  pose proof (glCreateBuffers2_vaos st1) as H2.
  assert (Hvbo : fst (fst (glCreateBuffers2 st1)) = fresh ({[0]} ∪ dom (buffers st1)))
    by reflexivity.
  assert (Hibo : snd (fst (glCreateBuffers2 st1)) =
                 fresh ({[0]} ∪ dom (<[fst (fst (glCreateBuffers2 st1)) := empty_buffer]>
                                       (buffers st1))))
    by reflexivity.
  assert (Hb2 : buffers (snd (glCreateBuffers2 st1)) =
                <[snd (fst (glCreateBuffers2 st1)) := empty_buffer]>
                  (<[fst (fst (glCreateBuffers2 st1)) := empty_buffer]> (buffers st1)))
    by reflexivity.
  assert (Hbb2 : bound_buffer (snd (glCreateBuffers2 st1)) = bound_buffer st1)
    by reflexivity.
  destruct (glCreateBuffers2 st1) as [[vbo ibo] st2].
  cbn [fst snd] in H2, Hvbo, Hibo, Hb2, Hbb2.
  rewrite Hb1 in Hvbo, Hibo, Hb2. rewrite Hbb1 in Hbb2.
  exists vao, vbo, ibo. eexists. split; [reflexivity|].
  split; [exact Hvao|]. split; [exact Hvbo|]. split; [exact Hibo|].
  destruct (fresh_name (buffers st)) as [_ Hvnone]. rewrite <- Hvbo in Hvnone.
  destruct (fresh_name (<[vbo := empty_buffer]> (buffers st))) as [_ Hinone].
  rewrite <- Hibo in Hinone.
  assert (Hne : vbo <> ibo).
  { intros ->. now rewrite lookup_insert_eq in Hinone. }
  split; [|split].
  - rewrite <- Vertex_layout_built.
    apply glEnableVertexArrayAttrib_vaos, glEnableVertexArrayAttrib_vaos,
      glEnableVertexArrayAttrib_vaos, glEnableVertexArrayAttrib_vaos,
      glVertexArrayElementBuffer_vaos, glVertexArrayVertexBuffer_vaos,
      glVertexArrayAttribFormat_vaos, glVertexArrayAttribFormat_vaos,
      glVertexArrayAttribFormat_vaos, glVertexArrayAttribFormat_vaos,
      glVertexArrayAttribBinding_vaos, glVertexArrayAttribBinding_vaos,
      glVertexArrayAttribBinding_vaos, glVertexArrayAttribBinding_vaos.
    rewrite !glNamedBufferData_vaos, !glBindBuffer_vaos, H2. exact H1.
  - rewrite !(proj1 (glEnableVertexArrayAttrib_buffers _ _ _)),
      (proj1 (glVertexArrayElementBuffer_buffers _ _ _)),
      (proj1 (glVertexArrayVertexBuffer_buffers _ _ _ _ _ _)),
      !(proj1 (glVertexArrayAttribFormat_buffers _ _ _ _ _ _ _)),
      !(proj1 (glVertexArrayAttribBinding_buffers _ _ _ _)).
    assert (Hb3 : buffers (glBindBuffer GL_ELEMENT_ARRAY_BUFFER ibo
                             (glBindBuffer GL_ARRAY_BUFFER vbo st2)) =
                  <[ibo := empty_buffer]> (<[vbo := empty_buffer]> (buffers st)))
      by exact Hb2.
    set (st3 := glBindBuffer GL_ELEMENT_ARRAY_BUFFER ibo
                  (glBindBuffer GL_ARRAY_BUFFER vbo st2)) in *.
    assert (Hb4 : buffers (glNamedBufferData vbo
                    (wrap (size_of_list vertices * sizeof_Vertex))
                    (Floats (concat (map floats_of_Vertex vertices))) GL_STATIC_DRAW st3) =
                  <[vbo := Buffer (wrap (size_of_list vertices * sizeof_Vertex))
                       (Floats (concat (map floats_of_Vertex vertices))) GL_STATIC_DRAW]>
                    (<[ibo := empty_buffer]> (<[vbo := empty_buffer]> (buffers st)))).
    { rewrite <- Hb3. apply (glNamedBufferData_known _ _ _ _ _ empty_buffer).
      rewrite Hb3, lookup_insert_ne by (intros E; now apply Hne).
      apply lookup_insert_eq. }
    rewrite <- Hb4. apply (glNamedBufferData_known _ _ _ _ _ empty_buffer).
    rewrite Hb4, lookup_insert_ne by exact Hne. apply lookup_insert_eq.
  - rewrite !(proj2 (glEnableVertexArrayAttrib_buffers _ _ _)),
      (proj2 (glVertexArrayElementBuffer_buffers _ _ _)),
      (proj2 (glVertexArrayVertexBuffer_buffers _ _ _ _ _ _)),
      !(proj2 (glVertexArrayAttribFormat_buffers _ _ _ _ _ _ _)),
      !(proj2 (glVertexArrayAttribBinding_buffers _ _ _ _)),
      !glNamedBufferData_bound.
    cbn [glBindBuffer bound_buffer emit set_bound_buffer]. now rewrite Hbb2.
Qed.

(** X28: [createMesh] uploads both arrays: the vertex buffer of the new
    mesh holds the fourteen floats of each vertex, in order, with a size of
    56 bytes a vertex, and its index buffer holds the indices with a size
    of 4 bytes an index, both for static drawing; the two buffers are left
    bound to the array and element-array targets. *)
Theorem createMesh_uploads (vs : list Vertex) (ixs : list Z) (fmt : PrimitiveFormat)
    (h : Heap) (st : state) :
  let '(mesh, h', st') := createMesh vs ixs fmt h st in
  exists m,
    meshes h' !! mesh = Some m /\
    buffers st' !! vbo m =
    Some (Buffer (wrap (size_of_list vs * 56))
                 (Floats (concat (map floats_of_Vertex vs))) GL_STATIC_DRAW) /\
    length (concat (map floats_of_Vertex vs)) = (14 * length vs)%nat /\
    buffers st' !! ibo m =
    Some (Buffer (wrap (size_of_list ixs * 4)) (Words ixs) GL_STATIC_DRAW) /\
    bound_buffer st' !! GL_ARRAY_BUFFER = Some (vbo m) /\
    bound_buffer st' !! GL_ELEMENT_ARRAY_BUFFER = Some (ibo m).
Proof.
  destruct (createMesh_driver vs ixs fmt h st)
    as (vao & vbo & ibo & st' & -> & _ & Hvbo & Hibo & _ & Hb & Hbb).
  eexists. split; [apply lookup_insert_eq|]. cbn [Game.vbo Game.ibo].
  destruct (fresh_name (<[vbo := empty_buffer]> (buffers st))) as [_ Hinone].
  rewrite <- Hibo in Hinone.
  assert (Hne : vbo <> ibo).
  { intros ->. now rewrite lookup_insert_eq in Hinone. }
  split; [|split; [|split; [|split]]].
  - rewrite Hb, lookup_insert_ne by (intros E; now apply Hne). apply lookup_insert_eq.
  - clear. induction vs as [|v vs IH]; [reflexivity|].
    cbn [map concat]. rewrite length_app, IH. cbn [floats_of_Vertex length]. lia.
  - rewrite Hb. apply lookup_insert_eq.
  - rewrite Hbb, lookup_insert_ne by discriminate. apply lookup_insert_eq.
  - rewrite Hbb. apply lookup_insert_eq.
Qed.

(** X29: the mesh that [createMesh] returns is a new one, at an address
    that is not null, and its vertex array and its two buffers have names
    that the driver had not in use, are not zero, and differ from each
    other; the meshes, vertex arrays and buffers that existed are left as
    they were. *)
Theorem createMesh_new_objects (vs : list Vertex) (ixs : list Z) (fmt : PrimitiveFormat)
    (h : Heap) (st : state) :
  let '(mesh, h', st') := createMesh vs ixs fmt h st in
  exists m,
    meshes h' !! mesh = Some m /\
    mesh <> null /\ meshes h !! mesh = None /\
    vao m <> 0 /\ vbo m <> 0 /\ ibo m <> 0 /\ vbo m <> ibo m /\
    vaos st !! vao m = None /\ buffers st !! vbo m = None /\
    buffers st !! ibo m = None /\
    (forall p x, meshes h !! p = Some x -> meshes h' !! p = Some x) /\
    (forall v x, vaos st !! v = Some x -> vaos st' !! v = Some x) /\
    (forall b x, buffers st !! b = Some x -> buffers st' !! b = Some x) /\
    objects h' = objects h /\ materials h' = materials h /\ programs h' = programs h.
Proof.
  destruct (createMesh_driver vs ixs fmt h st)
    as (vao & vbo & ibo & st' & -> & Hvao & Hvbo & Hibo & Hv & Hb & _).
  eexists. split; [apply lookup_insert_eq|]. cbn [Game.vao Game.vbo Game.ibo].
  destruct (new_fresh (meshes h)) as [Hmnone Hmnull].
  destruct (fresh_name (vaos st)) as [Hv0 Hvnone]. rewrite <- Hvao in Hv0, Hvnone.
  destruct (fresh_name (buffers st)) as [Hb0 Hbnone]. rewrite <- Hvbo in Hb0, Hbnone.
  destruct (fresh_name (<[vbo := empty_buffer]> (buffers st))) as [Hi0 Hinone].
  rewrite <- Hibo in Hi0, Hinone.
  assert (Hne : vbo <> ibo).
  { intros ->. now rewrite lookup_insert_eq in Hinone. }
  assert (Hinone' : buffers st !! ibo = None).
  { now rewrite lookup_insert_ne in Hinone by exact Hne. }
  split; [exact Hmnull|]. split; [exact Hmnone|]. split; [exact Hv0|].
  split; [exact Hb0|]. split; [exact Hi0|]. split; [exact Hne|].
  split; [exact Hvnone|]. split; [exact Hbnone|]. split; [exact Hinone'|].
  split; [|split; [|split; [|auto]]].
  - intros p x Hp. cbn [meshes set_meshes].
    rewrite lookup_insert_ne; [exact Hp|]. intros <-. congruence.
  - intros v x Hx. rewrite Hv, lookup_insert_ne; [exact Hx|]. intros <-. congruence.
  - intros b x Hx.
    assert (b <> vbo) by (intros ->; congruence).
    assert (b <> ibo) by (intros ->; congruence).
    rewrite Hb, !lookup_insert_ne by congruence. exact Hx.
Qed.

End MeshMore.

(** * The diagnostics callback *)

Module DiagnosticsFacts.

Import Text Diagnostics Notions.

Local Open Scope Z_scope.

Lemma ignored_ids_test (id : Z) :
  (id =? 131169) || (id =? 131185) || (id =? 131218) || (id =? 131204) = true <->
  In id ignored_ids.
Proof.
  unfold ignored_ids. cbn [In]. rewrite !orb_true_iff, !Z.eqb_eq. intuition lia.
Qed.

(** X30: the callback writes nothing exactly for the four ids 131169,
    131185, 131218 and 131204, whatever the source, the type and the
    severity of the message, a high severity included; for every other id
    it writes a report in which the text of the message stands on the second
    line, before a line end. *)
Theorem glDebugOutput_silent_iff (source type id severity : Z) (message : cstring) :
  (glDebugOutput source type id severity message = [] <-> In id ignored_ids) /\
  (In id ignored_ids \/
   exists post,
     glDebugOutput source type id severity message =
     lit "---------------" ++ endl ++ lit "Debug message (" ++ decimal id ++ lit "): "
     ++ message ++ endl ++ post).
Proof.
  pose proof (ignored_ids_test id) as Hi. unfold glDebugOutput.
  destruct ((id =? 131169) || (id =? 131185) || (id =? 131218) || (id =? 131204)).
  - split; [|left; now apply Hi]. split; [intros _; now apply Hi | reflexivity].
  - split.
    + split; [discriminate|]. intros H. apply Hi in H. discriminate H.
    + right. eexists. reflexivity.
Qed.

End DiagnosticsFacts.
